(** * mdxtractor: the section extractor of [src/parser.ts]

    A shallow embedding of [parser.ts]: [slugify], the handlers that
    [parseMarkdown] registers on the HTMLRewriter, the assembly of the
    [ParsedDoc] with its query closures, [formatTableMd], [fetchDocs] and
    [parseFile].

    Strings are JavaScript strings: finite sequences of UTF-16 code units.
    Regular expressions are run by a backtracking matcher written in
    continuation-passing style, as ECMAScript specifies them. *)

From Stdlib Require Import NArith Ascii String List Lia Bool.
From stdpp Require Import base option list gmap.
Import ListNotations.

Set Default Proof Using "Type".

(** ** JavaScript strings *)

(** A string is its list of UTF-16 code units. *)
Abbreviation jsstring := (list N) (only parsing).

(** The code-unit list of an ASCII literal. *)
Definition js (s : string) : jsstring :=
  map N_of_ascii (list_ascii_of_string s).

Definition LF : N := 10%N.
Definition HYPHEN : N := 45%N.

Definition inRange (lo hi c : N) : bool := (lo <=? c)%N && (c <=? hi)%N.

(** ECMAScript LineTerminator: LF, CR, LS, PS. *)
Definition isLineTerminator (c : N) : bool :=
  (c =? 10)%N || (c =? 13)%N || (c =? 8232)%N || (c =? 8233)%N.

(** ECMAScript WhiteSpace and LineTerminator: what [trim] strips and what
    the class [\s] matches. *)
Definition isWhiteSpace (c : N) : bool :=
  inRange 9 13 c || (c =? 32)%N || (c =? 160)%N || (c =? 5760)%N
  || inRange 8192 8202 c || (c =? 8232)%N || (c =? 8233)%N
  || (c =? 8239)%N || (c =? 8287)%N || (c =? 12288)%N || (c =? 65279)%N.

Definition isDigit (c : N) : bool := inRange 48 57 c.
Definition isLower (c : N) : bool := inRange 97 122 c.
Definition isUpper (c : N) : bool := inRange 65 90 c.

(** The class [\w]: [A-Za-z0-9_]. *)
Definition isWord (c : N) : bool :=
  isLower c || isUpper c || isDigit c || (c =? 95)%N.

(** The class [.] without the [s] flag. *)
Definition isDot (c : N) : bool := negb (isLineTerminator c).

(** The class [[a-z0-9]] and its complement [[^a-z0-9]]. *)
Definition isLowerAlnum (c : N) : bool := isLower c || isDigit c.
Definition notLowerAlnum (c : N) : bool := negb (isLowerAlnum c).

Definition isAscii (c : N) : bool := (c <? 128)%N.

Fixpoint dropWhile (p : N -> bool) (s : jsstring) : jsstring :=
  match s with
  | [] => []
  | c :: t => if p c then dropWhile p t else s
  end.

Definition trimStart (s : jsstring) : jsstring := dropWhile isWhiteSpace s.
Definition trimEnd (s : jsstring) : jsstring :=
  rev (dropWhile isWhiteSpace (rev s)).

(** [String.prototype.trim]. *)
Definition trim (s : jsstring) : jsstring := trimEnd (trimStart s).

(** Truthiness of a string: non-empty. *)
Definition truthy (s : jsstring) : bool :=
  match s with [] => false | _ :: _ => true end.

(** [s.startsWith(q)]. *)
Fixpoint startsWith (s q : jsstring) {struct q} : bool :=
  match q with
  | [] => true
  | c :: q' =>
      match s with
      | [] => false
      | d :: s' => (c =? d)%N && startsWith s' q'
      end
  end.

(** [s.includes(q)]. *)
Fixpoint includes (s q : jsstring) : bool :=
  startsWith s q ||
  match s with
  | [] => false
  | _ :: s' => includes s' q
  end.

(** [a === b] on strings. *)
Definition strictEq (a b : jsstring) : bool := bool_decide (a = b).

(** [parts.join(sep)]. *)
Fixpoint join (sep : jsstring) (parts : list jsstring) : jsstring :=
  match parts with
  | [] => []
  | [p] => p
  | p :: rest => p ++ sep ++ join sep rest
  end.

(** [s.repeat(n)]. *)
Fixpoint repeatStr (s : jsstring) (n : nat) : jsstring :=
  match n with
  | O => []
  | S n' => s ++ repeatStr s n'
  end.

Fixpoint uintUnits (d : Decimal.uint) : jsstring :=
  match d with
  | Decimal.Nil => []
  | Decimal.D0 d => 48%N :: uintUnits d
  | Decimal.D1 d => 49%N :: uintUnits d
  | Decimal.D2 d => 50%N :: uintUnits d
  | Decimal.D3 d => 51%N :: uintUnits d
  | Decimal.D4 d => 52%N :: uintUnits d
  | Decimal.D5 d => 53%N :: uintUnits d
  | Decimal.D6 d => 54%N :: uintUnits d
  | Decimal.D7 d => 55%N :: uintUnits d
  | Decimal.D8 d => 56%N :: uintUnits d
  | Decimal.D9 d => 57%N :: uintUnits d
  end.

(** A non-negative integer interpolated in a template literal. *)
Definition numberToString (n : N) : jsstring := uintUnits (N.to_uint n).

(** A [number] that may be [NaN] ([None]). *)
Definition jsnumber : Type := option N.

(** [parseInt] on a string of one code unit. *)
Definition parseIntUnit (c : N) : jsnumber :=
  if isDigit c then Some (c - 48)%N else None.

(** ASCII lower-casing of one code unit. *)
Definition lowerUnit (c : N) : N := if isUpper c then (c + 32)%N else c.

(** [toLowerCase] where only the letters A-Z are cased. *)
Definition asciiToLowerCase (s : jsstring) : jsstring := map lowerUnit s.

(** ** Regular expressions

    The fragment of ECMAScript regular expressions that [parser.ts] uses:
    literals, classes, greedy [*] and [+] on a class, [^] and [$] (no [m]
    flag), sequence, alternation and capture groups. *)

Inductive regex : Type :=
| RLit (c : N)
| RClass (p : N -> bool)
| RStar (p : N -> bool)
| RPlus (p : N -> bool)
| RBol
| REol
| RSeq (r1 r2 : regex)
| RAlt (r1 r2 : regex)
| RGroup (i : nat) (r : regex).

(** The literal text [s] followed by [r]. *)
Fixpoint RText (s : jsstring) (r : regex) : regex :=
  match s with
  | [] => r
  | c :: t => RSeq (RLit c) (RText t r)
  end.

(** Captured groups, the latest capture first. *)
Definition captures : Type := list (nat * jsstring).

Fixpoint capture (caps : captures) (i : nat) : option jsstring :=
  match caps with
  | [] => None
  | (j, s) :: rest => if Nat.eqb i j then Some s else capture rest i
  end.

Section Matcher.
Context {R : Type}.

(** A continuation receives the position reached, the input that is left
    and the captures so far; [None] makes the matcher backtrack. *)
Definition cont : Type := nat -> jsstring -> captures -> option R.

(** Greedy repetition of a class: the longest run is tried first. *)
Fixpoint starM (p : N -> bool) (pos : nat) (rest : jsstring)
    (caps : captures) (k : cont) : option R :=
  match rest with
  | c :: rest' =>
      if p c then
        match starM p (S pos) rest' caps k with
        | Some r => Some r
        | None => k pos rest caps
        end
      else k pos rest caps
  | [] => k pos rest caps
  end.

Fixpoint matcher (r : regex) (pos : nat) (rest : jsstring)
    (caps : captures) (k : cont) : option R :=
  match r with
  | RLit c =>
      match rest with
      | d :: rest' => if (c =? d)%N then k (S pos) rest' caps else None
      | [] => None
      end
  | RClass p =>
      match rest with
      | d :: rest' => if p d then k (S pos) rest' caps else None
      | [] => None
      end
  | RStar p => starM p pos rest caps k
  | RPlus p =>
      match rest with
      | d :: rest' => if p d then starM p (S pos) rest' caps k else None
      | [] => None
      end
  | RBol => if Nat.eqb pos 0 then k pos rest caps else None
  | REol => match rest with [] => k pos rest caps | _ :: _ => None end
  | RSeq r1 r2 =>
      matcher r1 pos rest caps
        (fun pos' rest' caps' => matcher r2 pos' rest' caps' k)
  | RAlt r1 r2 =>
      match matcher r1 pos rest caps k with
      | Some x => Some x
      | None => matcher r2 pos rest caps k
      end
  | RGroup i r1 =>
      matcher r1 pos rest caps
        (fun pos' rest' caps' =>
           k pos' rest' ((i, take (pos' - pos) rest) :: caps'))
  end.
End Matcher.

(** One attempt at position [pos]: the end position, the input left after
    the match and the captures. *)
Definition matchAt (r : regex) (pos : nat) (rest : jsstring)
    : option (nat * jsstring * captures) :=
  matcher r pos rest [] (fun pos' rest' caps' => Some (pos', rest', caps')).

(** The leftmost match at or after [pos]. *)
Fixpoint searchFrom (r : regex) (pos : nat) (rest : jsstring)
    : option (nat * jsstring * captures) :=
  match matchAt r pos rest with
  | Some m => Some m
  | None =>
      match rest with
      | [] => None
      | _ :: rest' => searchFrom r (S pos) rest'
      end
  end.

(** [s.match(r)] for a regex without the [g] flag: the captures of the
    leftmost match, or [None] for [null]. *)
Definition regexMatch (r : regex) (s : jsstring) : option captures :=
  snd <$> searchFrom r 0 s.

(** [s.replace(r, rep)] for a regex with the [g] flag and a replacement
    without [$] patterns.  Each round looks for a match at the current
    position; without one the code unit there is copied.  After an empty
    match the next code unit is copied too, as [lastIndex] advances by one.
    Every round consumes a code unit or ends, so the fuel [S (length s)]
    of [replaceAll] is never used up. *)
Fixpoint replaceLoop (fuel : nat) (r : regex) (rep : jsstring)
    (pos : nat) (rest : jsstring) : jsstring :=
  match fuel with
  | O => rest
  | S fuel' =>
      let copy :=
        match rest with
        | [] => []
        | c :: t => c :: replaceLoop fuel' r rep (S pos) t
        end in
      match matchAt r pos rest with
      | Some (pos', rest', _) =>
          if Nat.ltb pos pos'
          then rep ++ replaceLoop fuel' r rep pos' rest'
          else rep ++ copy
      | None => copy
      end
  end.

Definition replaceAll (r : regex) (rep : jsstring) (s : jsstring) : jsstring :=
  replaceLoop (S (length s)) r rep 0 s.

(** [/[^a-z0-9]+/g] *)
Definition nonAlnumRe : regex := RPlus notLowerAlnum.

(** [/^-|-$/g] *)
Definition edgeHyphenRe : regex :=
  RAlt (RSeq RBol (RLit HYPHEN)) (RSeq (RLit HYPHEN) REol).

(** [/language-(\w+)/] *)
Definition languageRe : regex :=
  RText (js "language-") (RGroup 1 (RPlus isWord)).

(** [/^\/\/\s*(.+\.\w+)\s*\n|^#\s*(.+\.\w+)\s*\n/] *)
Definition fileNameBody (i : nat) : regex :=
  RSeq (RStar isWhiteSpace)
    (RSeq (RGroup i (RSeq (RPlus isDot) (RSeq (RLit 46%N) (RPlus isWord))))
       (RSeq (RStar isWhiteSpace) (RLit LF))).

Definition filenameRe : regex :=
  RAlt (RSeq RBol (RText (js "//") (fileNameBody 1)))
       (RSeq RBol (RText (js "#") (fileNameBody 2))).


(** ** Arrays and objects *)

(** [a[i] = v] on an array: an index below the length overwrites, the
    length appends, a larger index first extends the array with holes.  A
    hole reads as [undefined], which every reader of these arrays in
    [parser.ts] treats as the empty string ([!a[i]], [join] and
    [a[i]?.trim() ?? '']), so a hole is written as the empty string.  The
    handlers never write past the length ([cell_index_within_row]). *)
Fixpoint arraySet (a : list jsstring) (i : nat) (v : jsstring)
    : list jsstring :=
  match i, a with
  | O, [] => [v]
  | O, _ :: t => v :: t
  | S i', [] => [] :: arraySet [] i' v
  | S i', x :: t => x :: arraySet t i' v
  end.

Definition PROTO : list N := js "__proto__".

(** [obj[k] = v], where [obj] was created by [{}] and [v] is a string: an
    own property is created or overwritten.  The key [__proto__] is the
    exception: the assignment reaches the accessor that [obj] inherits
    from [Object.prototype], whose setter ignores a value that is neither
    an object nor [null]; no own property appears. *)
Definition objSet (obj : gmap (list N) (list N)) (k v : jsstring)
    : gmap (list N) (list N) :=
  if bool_decide (k = PROTO) then obj else <[k := v]> obj.

(** ** Sections *)

Inductive SectionType : Type :=
| TyHeading | TyCode | TyTable | TyContent | TyList.

Record HeadingSection : Type := {
  h_idx : nat;
  h_level : jsnumber;
  h_text : list N;
  h_slug : list N;
  h_raw : list N;
}.

Record CodeSection : Type := {
  c_idx : nat;
  c_lang : list N;
  c_code : list N;
  c_filename : option (list N);
  c_raw : list N;
}.

Record TableSection : Type := {
  t_idx : nat;
  t_headers : list (list N);
  t_rows : list (gmap (list N) (list N));
  t_raw : list N;
}.

Record ListSection : Type := {
  l_idx : nat;
  l_ordered : bool;
  l_items : list (list N);
  l_raw : list N;
}.

Record ContentSection : Type := {
  p_idx : nat;
  p_text : list N;
  p_raw : list N;
}.

Inductive Section : Type :=
| SHeading (h : HeadingSection)
| SCode (c : CodeSection)
| STable (t : TableSection)
| SList (l : ListSection)
| SContent (p : ContentSection).

Definition sec_idx (s : Section) : nat :=
  match s with
  | SHeading h => h_idx h
  | SCode c => c_idx c
  | STable t => t_idx t
  | SList l => l_idx l
  | SContent p => p_idx p
  end.

Definition sec_type (s : Section) : SectionType :=
  match s with
  | SHeading _ => TyHeading
  | SCode _ => TyCode
  | STable _ => TyTable
  | SList _ => TyList
  | SContent _ => TyContent
  end.

Definition sec_raw (s : Section) : jsstring :=
  match s with
  | SHeading h => h_raw h
  | SCode c => c_raw c
  | STable t => t_raw t
  | SList l => l_raw l
  | SContent p => p_raw p
  end.

Definition SectionType_eqb (a b : SectionType) : bool :=
  match a, b with
  | TyHeading, TyHeading | TyCode, TyCode | TyTable, TyTable
  | TyContent, TyContent | TyList, TyList => true
  | _, _ => false
  end.

Record ParsedDoc : Type := {
  source : list N;
  title : list N;
  doc_sections : list Section;
  headings : list HeadingSection;
  codeBlocks : list CodeSection;
  tables : list TableSection;
  total : nat;
  byType : SectionType -> list Section;
  byLang : list N -> list CodeSection;
  search : list N -> list Section;
}.

(** ** The event stream

    HTMLRewriter calls the handlers registered by [.on(selector, ...)] in
    document order.  An event is one such call, named by the selector of
    the handler it reaches. *)

Inductive selector : Type :=
| SelHeading   (* 'h1, h2, h3, h4, h5, h6' *)
| SelPreCode   (* 'pre > code' *)
| SelPre       (* 'pre' *)
| SelTable     (* 'table' *)
| SelThead     (* 'thead' *)
| SelTbody     (* 'tbody' *)
| SelTr        (* 'tr' *)
| SelCell      (* 'th, td' *)
| SelList      (* 'ul, ol' *)
| SelLi        (* 'li' *)
| SelP.        (* 'p' *)

Record Element : Type := {
  tagName : list N;
  classAttr : option (list N);   (* el.getAttribute('class') *)
}.

Record TextChunk : Type := {
  chunk_text : list N;
  lastInTextNode : bool;
}.

(** [OnEndTag sel] is the call of the closure that the element handler of
    [sel] passed to [el.onEndTag]. *)
Inductive event : Type :=
| OnElement (sel : selector) (el : Element)
| OnText (sel : selector) (chunk : TextChunk)
| OnEndTag (sel : selector).

(** ** The state of one [parseMarkdown] call *)

Record HeadingAcc : Type := { ha_level : jsnumber; ha_text : list N }.
Record CodeAcc : Type := { ca_lang : list N; ca_code : list N }.
Record TableAcc : Type := {
  ta_headers : list (list N);
  ta_rows : list (list (list N));
}.
Record ListAcc : Type := { la_ordered : bool; la_items : list (list N) }.

(** The [let] variables of [parseMarkdown], and [pText]: the variable
    [text] that each call of the [p] element handler declares for its own
    end-tag closure, one entry per closure that has not run yet, the
    innermost first. *)
Record state : Type := {
  sections : list Section;
  idx : nat;
  currentHeading : option HeadingAcc;
  currentCode : option CodeAcc;
  currentTable : option TableAcc;
  currentList : option ListAcc;
  currentRow : list (list N);
  currentListItem : list N;
  inThead : bool;
  cellIndex : nat;
  pText : list (list N);
}.

Definition initial : state := {|
  sections := []; idx := 0;
  currentHeading := None; currentCode := None;
  currentTable := None; currentList := None;
  currentRow := []; currentListItem := [];
  inThead := false; cellIndex := 0; pText := [];
|}.

Definition setHeading (v : option HeadingAcc) (st : state) : state :=
  {| sections := sections st; idx := idx st; currentHeading := v;
     currentCode := currentCode st; currentTable := currentTable st;
     currentList := currentList st; currentRow := currentRow st;
     currentListItem := currentListItem st; inThead := inThead st;
     cellIndex := cellIndex st; pText := pText st |}.

Definition setCode (v : option CodeAcc) (st : state) : state :=
  {| sections := sections st; idx := idx st;
     currentHeading := currentHeading st; currentCode := v;
     currentTable := currentTable st; currentList := currentList st;
     currentRow := currentRow st; currentListItem := currentListItem st;
     inThead := inThead st; cellIndex := cellIndex st; pText := pText st |}.

Definition setTable (v : option TableAcc) (st : state) : state :=
  {| sections := sections st; idx := idx st;
     currentHeading := currentHeading st; currentCode := currentCode st;
     currentTable := v; currentList := currentList st;
     currentRow := currentRow st; currentListItem := currentListItem st;
     inThead := inThead st; cellIndex := cellIndex st; pText := pText st |}.

Definition setList (v : option ListAcc) (st : state) : state :=
  {| sections := sections st; idx := idx st;
     currentHeading := currentHeading st; currentCode := currentCode st;
     currentTable := currentTable st; currentList := v;
     currentRow := currentRow st; currentListItem := currentListItem st;
     inThead := inThead st; cellIndex := cellIndex st; pText := pText st |}.

Definition setRow (row : list (list N)) (ci : nat) (st : state) : state :=
  {| sections := sections st; idx := idx st;
     currentHeading := currentHeading st; currentCode := currentCode st;
     currentTable := currentTable st; currentList := currentList st;
     currentRow := row; currentListItem := currentListItem st;
     inThead := inThead st; cellIndex := ci; pText := pText st |}.

Definition setListItem (v : list N) (st : state) : state :=
  {| sections := sections st; idx := idx st;
     currentHeading := currentHeading st; currentCode := currentCode st;
     currentTable := currentTable st; currentList := currentList st;
     currentRow := currentRow st; currentListItem := v;
     inThead := inThead st; cellIndex := cellIndex st; pText := pText st |}.

Definition setInThead (v : bool) (st : state) : state :=
  {| sections := sections st; idx := idx st;
     currentHeading := currentHeading st; currentCode := currentCode st;
     currentTable := currentTable st; currentList := currentList st;
     currentRow := currentRow st; currentListItem := currentListItem st;
     inThead := v; cellIndex := cellIndex st; pText := pText st |}.

Definition setPText (v : list (list N)) (st : state) : state :=
  {| sections := sections st; idx := idx st;
     currentHeading := currentHeading st; currentCode := currentCode st;
     currentTable := currentTable st; currentList := currentList st;
     currentRow := currentRow st; currentListItem := currentListItem st;
     inThead := inThead st; cellIndex := cellIndex st; pText := v |}.

(** [sections.push({ idx: idx++, ... })]: the section is built from the
    current counter, which is then incremented. *)
Definition push (mk : nat -> Section) (st : state) : state :=
  {| sections := sections st ++ [mk (idx st)]; idx := S (idx st);
     currentHeading := currentHeading st; currentCode := currentCode st;
     currentTable := currentTable st; currentList := currentList st;
     currentRow := currentRow st; currentListItem := currentListItem st;
     inThead := inThead st; cellIndex := cellIndex st; pText := pText st |}.

(** [formatTableMd] *)
Definition formatTableMd (headers : list jsstring)
    (rows : list (list jsstring)) : jsstring :=
  let header := js "| " ++ join (js " | ") headers ++ js " |" in
  let separator :=
    js "| " ++ join (js " | ") (map (fun _ => js "---") headers) ++ js " |" in
  let body :=
    join [LF] (map (fun row => js "| " ++ join (js " | ") row ++ js " |") rows) in
  join [LF] [header; separator; body].

(** [row[i]?.trim() ?? ''] *)
Definition cellText (row : list jsstring) (i : nat) : jsstring :=
  match row !! i with
  | Some c => trim c
  | None => []
  end.

(** [headers.forEach((h, i) => { obj[h] = row[i]?.trim() ?? '' })] from
    index [i] on. *)
Fixpoint fillRow (hs : list jsstring) (i : nat) (row : list jsstring)
    (obj : gmap (list N) (list N)) : gmap (list N) (list N) :=
  match hs with
  | [] => obj
  | h :: hs' => fillRow hs' (S i) row (objSet obj h (cellText row i))
  end.

(** The callback of [currentTable.rows.map] in the table end-tag handler. *)
Definition rowObject (headers : list jsstring) (row : list jsstring)
    : gmap (list N) (list N) :=
  fillRow headers 0 row ∅.

(** [filenameMatch?.[1] ?? filenameMatch?.[2]] for
    [filenameMatch = code.match(filenameRe)]. *)
Definition detectFilename (code : jsstring) : option jsstring :=
  match regexMatch filenameRe code with
  | None => None
  | Some caps =>
      match capture caps 1 with
      | Some name => Some name
      | None => capture caps 2
      end
  end.

(** [className.match(/language-(\w+)/)?.[1] ?? 'text'] *)
Definition detectLang (className : jsstring) : jsstring :=
  match regexMatch languageRe className with
  | None => js "text"
  | Some caps => default (js "text") (capture caps 1)
  end.

(** [items.map((item, i) => ordered ? `${i + 1}. ${item}` : `- ${item}`)]
    from index [i] on. *)
Fixpoint listLines (ordered : bool) (i : nat) (items : list jsstring)
    : list jsstring :=
  match items with
  | [] => []
  | item :: rest =>
      (if ordered
       then numberToString (N.of_nat (i + 1)) ++ js ". " ++ item
       else js "- " ++ item) :: listLines ordered (S i) rest
  end.

(** [parseInt(el.tagName[1] ?? '1')] *)
Definition headingLevel (el : Element) : jsnumber :=
  match tagName el !! 1 with
  | Some c => parseIntUnit c
  | None => Some 1%N
  end.

(** ['#'.repeat(level)]: [NaN] counts as 0. *)
Definition hashes (level : jsnumber) : jsstring :=
  match level with
  | Some n => repeatStr (js "#") (N.to_nat n)
  | None => []
  end.

(** A promise that has settled. *)
Inductive promise (A : Type) : Type :=
| Fulfilled (a : A)
| Rejected (message : jsstring).
Arguments Fulfilled {A} a.
Arguments Rejected {A} message.

(** What [fetch] resolves to. *)
Record Response : Type := {
  status : N;
  res_text : promise (list N);
}.

(** [res.ok]: a status from 200 to 299. *)
Definition ok (res : Response) : bool := inRange 200 299 (status res).

(** What [Bun.file(path)] gives. *)
Record BunFile : Type := {
  exists_ : bool;
  file_text : promise (list N);
}.

Section Parser.
(** [String.prototype.toLowerCase], whose Unicode tables are not part of
    the repository. *)
Variable toLowerCase : list N -> list N.

(** [slugify] *)
Definition slugify (text : jsstring) : jsstring :=
  replaceAll edgeHyphenRe []
    (replaceAll nonAlnumRe [HYPHEN] (toLowerCase text)).

(** The element handlers. *)
Definition onElement (sel : selector) (el : Element) (st : state) : state :=
  match sel with
  | SelHeading =>
      setHeading (Some {| ha_level := headingLevel el; ha_text := [] |}) st
  | SelPreCode =>
      let className := default [] (classAttr el) in
      setCode (Some {| ca_lang := detectLang className; ca_code := [] |}) st
  | SelPre => st
  | SelTable =>
      setInThead false
        (setTable (Some {| ta_headers := []; ta_rows := [] |}) st)
  | SelThead => setInThead true st
  | SelTbody => setInThead false st
  | SelTr => setRow [] 0 st
  | SelCell => st
  | SelList =>
      setList (Some {| la_ordered := strictEq (tagName el) (js "ol");
                       la_items := [] |}) st
  | SelLi => setListItem [] st
  | SelP => setPText ([] :: pText st) st
  end.

(** The text handlers. *)
Definition onText (sel : selector) (chunk : TextChunk) (st : state) : state :=
  match sel with
  | SelHeading =>
      match currentHeading st with
      | Some h =>
          setHeading (Some {| ha_level := ha_level h;
                              ha_text := ha_text h ++ chunk_text chunk |}) st
      | None => st
      end
  | SelPreCode =>
      match currentCode st with
      | Some c =>
          setCode (Some {| ca_lang := ca_lang c;
                           ca_code := ca_code c ++ chunk_text chunk |}) st
      | None => st
      end
  | SelCell =>
      let old := default [] (currentRow st !! cellIndex st) in
      let row := arraySet (currentRow st) (cellIndex st)
                   (old ++ chunk_text chunk) in
      setRow row
        (if lastInTextNode chunk then S (cellIndex st) else cellIndex st) st
  | SelLi => setListItem (currentListItem st ++ chunk_text chunk) st
  | SelP => st   (* // Handled in element *)
  | _ => st
  end.

(** The closures passed to [el.onEndTag]. *)
Definition onEndTag (sel : selector) (st : state) : state :=
  match sel with
  | SelHeading =>
      match currentHeading st with
      | Some h =>
          let text := trim (ha_text h) in
          setHeading None
            (push (fun i => SHeading
               {| h_idx := i; h_level := ha_level h; h_text := text;
                  h_slug := slugify text;
                  h_raw := hashes (ha_level h) ++ js " " ++ text |}) st)
      | None => st
      end
  | SelPre =>
      match currentCode st with
      | Some c =>
          let code := trim (ca_code c) in
          setCode None
            (push (fun i => SCode
               {| c_idx := i; c_lang := ca_lang c; c_code := code;
                  c_filename := detectFilename code;
                  c_raw := js "```" ++ ca_lang c ++ [LF] ++ code
                             ++ [LF] ++ js "```" |}) st)
      | None => st
      end
  | SelTable =>
      match currentTable st with
      | Some t =>
          let rows := map (rowObject (ta_headers t)) (ta_rows t) in
          setTable None
            (push (fun i => STable
               {| t_idx := i; t_headers := ta_headers t; t_rows := rows;
                  t_raw := formatTableMd (ta_headers t) (ta_rows t) |}) st)
      | None => st
      end
  | SelTr =>
      match currentTable st with
      | Some t =>
          if inThead st || Nat.eqb (length (ta_headers t)) 0
          then setTable (Some {| ta_headers := currentRow st;
                                 ta_rows := ta_rows t |}) st
          else setTable (Some {| ta_headers := ta_headers t;
                                 ta_rows := ta_rows t ++ [currentRow st] |}) st
      | None => st
      end
  | SelList =>
      match currentList st with
      | Some l =>
          if Nat.ltb 0 (length (la_items l))
          then setList None
            (push (fun i => SList
               {| l_idx := i; l_ordered := la_ordered l;
                  l_items := la_items l;
                  l_raw := join [LF] (listLines (la_ordered l) 0 (la_items l)) |})
               st)
          else st
      | None => st
      end
  | SelLi =>
      match currentList st with
      | Some l =>
          setList (Some {| la_ordered := la_ordered l;
                           la_items := la_items l ++ [trim (currentListItem st)] |})
            st
      | None => st
      end
  | SelP =>
      match pText st with
      | text :: outer =>
          let st' := setPText outer st in
          if truthy (trim text)
          then push (fun i => SContent
                 {| p_idx := i; p_text := trim text; p_raw := trim text |}) st'
          else st'
      | [] => st
      end
  | _ => st
  end.

Definition handle (st : state) (e : event) : state :=
  match e with
  | OnElement sel el => onElement sel el st
  | OnText sel chunk => onText sel chunk st
  | OnEndTag sel => onEndTag sel st
  end.

(** [rewriter.transform(...)]: the handlers run in stream order. *)
Definition run (evs : list event) (st : state) : state :=
  fold_left handle evs st.

Definition asHeading (s : Section) : option HeadingSection :=
  match s with SHeading h => Some h | _ => None end.
Definition asCode (s : Section) : option CodeSection :=
  match s with SCode c => Some c | _ => None end.
Definition asTable (s : Section) : option TableSection :=
  match s with STable t => Some t | _ => None end.

(** The part of [parseMarkdown] after the transform. *)
Definition assemble (secs : list Section) (src : jsstring) : ParsedDoc :=
  let hs := omap asHeading secs in
  let cs := omap asCode secs in
  let ts := omap asTable secs in
  let ttl :=
    match List.find (fun h => bool_decide (h_level h = Some 1%N)) hs with
    | Some h => h_text h
    | None => src
    end in
  {| source := src;
     title := ttl;
     doc_sections := secs;
     headings := hs;
     codeBlocks := cs;
     tables := ts;
     total := length secs;
     byType := fun ty =>
       List.filter (fun s => SectionType_eqb (sec_type s) ty) secs;
     byLang := fun lang =>
       List.filter
         (fun c => strictEq (c_lang c) lang || startsWith (c_lang c) lang) cs;
     search := fun query =>
       let q := toLowerCase query in
       List.filter (fun s => includes (toLowerCase (sec_raw s)) q) secs |}.

(** [parseMarkdown] from the event stream on. *)
Definition parseEvents (evs : list event) (src : jsstring) : ParsedDoc :=
  assemble (sections (run evs initial)) src.

(** [Bun.markdown.html] followed by the calls that the HTMLRewriter
    makes on the handlers while it transforms the HTML. *)
Variable htmlEvents : list N -> list event.

(** [parseMarkdown(content, source)] *)
Definition parseMarkdown (content src : jsstring) : ParsedDoc :=
  parseEvents (htmlEvents content) src.

(** [fetch] *)
Variable fetch : list N -> promise Response.

(** [fetchDocs] *)
Definition fetchDocs (url : jsstring) : promise ParsedDoc :=
  match fetch url with
  | Rejected e => Rejected e
  | Fulfilled res =>
      if negb (ok res)
      then Rejected (js "Failed to fetch " ++ url ++ js ": "
                       ++ numberToString (status res))
      else
        match res_text res with
        | Rejected e => Rejected e
        | Fulfilled content => Fulfilled (parseMarkdown content url)
        end
  end.

(** [Bun.file] *)
Variable bunFile : list N -> BunFile.

(** [parseFile] *)
Definition parseFile (path : jsstring) : promise ParsedDoc :=
  let file := bunFile path in
  if negb (exists_ file)
  then Rejected (js "File not found: " ++ path)
  else
    match file_text file with
    | Rejected e => Rejected e
    | Fulfilled content => Fulfilled (parseMarkdown content path)
    end.
End Parser.

(** ** Notions used to state the properties *)

(** [q] occurs in [s] as a contiguous substring. *)
Definition substring (q s : jsstring) : Prop :=
  exists pre post : jsstring, s = pre ++ q ++ post.

(** The number of [tr] end tags handled since the last [table] element:
    0 while the row being closed is the first one of the open table. *)
Definition rowsClosed (evs : list event) : nat :=
  fold_left
    (fun n e =>
       match e with
       | OnElement SelTable _ => 0
       | OnEndTag SelTr => S n
       | _ => n
       end) evs 0.

Definition firstRow (evs : list event) : bool := Nat.eqb (rowsClosed evs) 0.

(** The [tr] end tag as the specification words it: the first row seen, or
    a row within the head, becomes the headers; any other row is appended. *)
Definition trCloseAsSpecified (first : bool) (st : state) (t : TableAcc)
    : TableAcc :=
  if first || inThead st
  then {| ta_headers := currentRow st; ta_rows := ta_rows t |}
  else {| ta_headers := ta_headers t; ta_rows := ta_rows t ++ [currentRow st] |}.

(** The maximal runs of [s]: consecutive code units on the same side of
    [p], each run tagged with its side. *)
Fixpoint runs (p : N -> bool) (s : jsstring) : list (bool * jsstring) :=
  match s with
  | [] => []
  | c :: t =>
      match runs p t with
      | (b, r) :: rs =>
          if eqb b (p c) then (b, c :: r) :: rs
          else (p c, [c]) :: (b, r) :: rs
      | [] => [(p c, [c])]
      end
  end.

(** Every maximal run outside [[a-z0-9]] replaced by one hyphen. *)
Definition hyphenateRuns (s : jsstring) : jsstring :=
  concat (map (fun br : bool * jsstring =>
                 if fst br then snd br else [HYPHEN])
              (runs isLowerAlnum s)).

Definition stripLeadingHyphen (s : jsstring) : jsstring :=
  match s with
  | c :: t => if (c =? HYPHEN)%N then t else s
  | [] => []
  end.

Definition stripTrailingHyphen (s : jsstring) : jsstring :=
  rev (stripLeadingHyphen (rev s)).

(** The slug algorithm in the words of the specification. *)
Definition slugSpec (lower : jsstring -> jsstring) (text : jsstring)
    : jsstring :=
  stripTrailingHyphen (stripLeadingHyphen (hyphenateRuns (lower text))).

(** The same algorithm with the non-ASCII code units dropped before the
    runs are hyphenated. *)
Definition slugDroppingFirst (lower : jsstring -> jsstring) (text : jsstring)
    : jsstring :=
  stripTrailingHyphen
    (stripLeadingHyphen (hyphenateRuns (List.filter isAscii (lower text)))).

(** The first line of a text: everything before the first line feed. *)
Fixpoint firstLine (s : jsstring) : jsstring :=
  match s with
  | [] => []
  | c :: t => if (c =? LF)%N then [] else c :: firstLine t
  end.

Definition allOf (p : N -> bool) (s : jsstring) : Prop :=
  Forall (fun c => p c = true) s.

(** A file name as [filenameRe] captures it: one or more code units other
    than line terminators, a dot, one or more word characters. *)
Definition fileNameShape (name : jsstring) : Prop :=
  exists stem ext : jsstring,
    name = stem ++ [46%N] ++ ext /\
    stem <> [] /\ allOf isDot stem /\ ext <> [] /\ allOf isWord ext.

(** What [filenameRe] matches: a comment marker at the start, white space,
    a file name, white space, a line feed. *)
Definition commentHeader (code name : jsstring) : Prop :=
  exists marker ws1 ws2 rest : jsstring,
    code = marker ++ ws1 ++ name ++ ws2 ++ [LF] ++ rest /\
    (marker = js "//" \/ marker = js "#") /\
    allOf isWhiteSpace ws1 /\ fileNameShape name /\ allOf isWhiteSpace ws2.

(** Collaborators for closed examples: a rewriter that reports one
    paragraph, a server that answers 404, an empty file system. *)
Definition el (tag : string) (cls : option jsstring) : Element :=
  {| tagName := js tag; classAttr := cls |}.

Definition chunk (s : jsstring) (last : bool) : TextChunk :=
  {| chunk_text := s; lastInTextNode := last |}.

Definition paragraphEvents (content : jsstring) : list event :=
  [OnElement SelP (el "p" None); OnText SelP (chunk content false);
   OnText SelP (chunk [] true); OnEndTag SelP].

Definition fetch404 (url : jsstring) : promise Response :=
  Fulfilled {| status := 404; res_text := Fulfilled (js "Not Found") |}.

Definition noFiles (path : jsstring) : BunFile :=
  {| exists_ := false; file_text := Rejected (js "ENOENT") |}.

(** What a regex may match, without the order in which the matcher tries
    the alternatives: [Matches r pos a rest caps caps'] says that [r]
    matches the text [a] at position [pos] when [rest] follows, and turns
    the captures [caps] into [caps']. *)
Inductive Matches : regex -> nat -> jsstring -> jsstring ->
                    captures -> captures -> Prop :=
| MLit c pos rest caps :
    Matches (RLit c) pos [c] rest caps caps
| MClass (p : N -> bool) c pos rest caps :
    p c = true -> Matches (RClass p) pos [c] rest caps caps
| MStar (p : N -> bool) a pos rest caps :
    allOf p a -> Matches (RStar p) pos a rest caps caps
| MPlus (p : N -> bool) a pos rest caps :
    a <> [] -> allOf p a -> Matches (RPlus p) pos a rest caps caps
| MBol rest caps :
    Matches RBol 0 [] rest caps caps
| MEol pos caps :
    Matches REol pos [] [] caps caps
| MSeq r1 r2 pos a b rest caps caps1 caps2 :
    Matches r1 pos a (b ++ rest) caps caps1 ->
    Matches r2 (pos + length a) b rest caps1 caps2 ->
    Matches (RSeq r1 r2) pos (a ++ b) rest caps caps2
| MAltL r1 r2 pos a rest caps caps' :
    Matches r1 pos a rest caps caps' ->
    Matches (RAlt r1 r2) pos a rest caps caps'
| MAltR r1 r2 pos a rest caps caps' :
    Matches r2 pos a rest caps caps' ->
    Matches (RAlt r1 r2) pos a rest caps caps'
| MGroup i r pos a rest caps caps' :
    Matches r pos a rest caps caps' ->
    Matches (RGroup i r) pos a rest caps ((i, a) :: caps').

(** Neighbouring runs lie on different sides of the class. *)
Fixpoint alternating (l : list (bool * jsstring)) : Prop :=
  match l with
  | (b1, _) :: (((b2, _) :: _) as tl) => b1 <> b2 /\ alternating tl
  | _ => True
  end.

(** [s] without a final hyphen, from the left. *)
Fixpoint dropLastHyphen (s : jsstring) : jsstring :=
  match s with
  | [] => []
  | c :: t =>
      match t with
      | [] => if (c =? HYPHEN)%N then [] else [c]
      | _ :: _ => c :: dropLastHyphen t
      end
  end.

(** "Título", "título" and "t-tulo": U+00ED is the i with acute. *)
Definition Titulo : list N := js "T" ++ [237%N] ++ js "tulo".
Definition titulo : list N := js "t" ++ [237%N] ++ js "tulo".

(** The code units of a slug: [[a-z0-9]] and the hyphen. *)
Definition slugUnit (c : N) : Prop := isLowerAlnum c = true \/ c = HYPHEN.

(** The sections carry the counter values 0, 1, ... in list order. *)
Definition indexed (st : state) : Prop :=
  map sec_idx (sections st) = seq 0 (idx st).

(** No end-tag closure of [p] ever sees text, and no paragraph section
    is ever pushed. *)
Definition paragraphFree (st : state) : Prop :=
  Forall (fun text => text = []) (pText st) /\
  Forall (fun s => sec_type s <> TyContent) (sections st).

(** A table whose head row has only empty cells, then a body row with the
    cell "a", up to the end tag of that row. *)
Definition emptyHeadTable : list event :=
  [OnElement SelTable (el "table" None);
   OnElement SelThead (el "thead" None);
   OnElement SelTr (el "tr" None);
   OnEndTag SelTr;
   OnElement SelTbody (el "tbody" None);
   OnElement SelTr (el "tr" None);
   OnText SelCell (chunk (js "a") false);
   OnText SelCell (chunk [] true)].

(** Code blocks in [ts], [tsx] and [css]. *)
Definition codeBlock (cls : string) (body : jsstring) : list event :=
  [OnElement SelPre (el "pre" None);
   OnElement SelPreCode (el "code" (Some (js cls)));
   OnText SelPreCode (chunk body false);
   OnText SelPreCode (chunk [] true);
   OnEndTag SelPre].

Definition threeBlocks : list event :=
  codeBlock "language-tsx" (js "import { Button } from './button';")
  ++ codeBlock "language-css" (js ".btn { color: red; }")
  ++ codeBlock "language-ts" (js "export type Props = {};").

(** A table with the header "A" twice and the body row "1", "2", and one
    with the header [__proto__] twice, each up to the end tag of the
    table. *)
Definition cell (s : string) : list event :=
  [OnText SelCell (chunk (js s) false); OnText SelCell (chunk [] true)].

Definition twoColumnTable (h1 h2 c1 c2 : string) : list event :=
  [OnElement SelTable (el "table" None);
   OnElement SelThead (el "thead" None);
   OnElement SelTr (el "tr" None)]
  ++ cell h1 ++ cell h2 ++
  [OnEndTag SelTr;
   OnElement SelTbody (el "tbody" None);
   OnElement SelTr (el "tr" None)]
  ++ cell c1 ++ cell c2 ++
  [OnEndTag SelTr].

(** What every pushed section satisfies: a code section carries the file
    name detected in its code, a table section the row mappings and the
    Markdown of some accumulated rows. *)
Definition emitted (s : Section) : Prop :=
  match s with
  | SCode c =>
      c_filename c = detectFilename (c_code c) /\
      exists acc, c_code c = trim acc
  | STable t =>
      exists cells,
        t_rows t = map (rowObject (t_headers t)) cells /\
        t_raw t = formatTableMd (t_headers t) cells
  | _ => True
  end.

(** ** Further notions *)

(** No two hyphens in a row. *)
Fixpoint noDoubleHyphen (s : jsstring) : Prop :=
  match s with
  | c :: ((d :: _) as t) => ~ (c = HYPHEN /\ d = HYPHEN) /\ noDoubleHyphen t
  | _ => True
  end.

(** No white space at either end. *)
Definition trimmed (s : jsstring) : Prop :=
  (forall c, head s = Some c -> isWhiteSpace c = false) /\
  (forall c, last s = Some c -> isWhiteSpace c = false).

(** *** Event streams of single elements *)

(** The text handler calls of [sel] for a sequence of chunks, and the text
    they carry. *)
Definition textEvents (sel : selector) (chunks : list TextChunk)
    : list event :=
  map (OnText sel) chunks.

Definition chunksText (chunks : list TextChunk) : jsstring :=
  concat (map chunk_text chunks).

(** A heading element with its text chunks. *)
Definition headingEvents (h : Element) (chunks : list TextChunk)
    : list event :=
  OnElement SelHeading h :: textEvents SelHeading chunks
    ++ [OnEndTag SelHeading].

(** A [pre] element that holds a [code] element with its text chunks. *)
Definition codeEvents (pre cd : Element) (chunks : list TextChunk)
    : list event :=
  OnElement SelPre pre :: OnElement SelPreCode cd
    :: textEvents SelPreCode chunks ++ [OnEndTag SelPre].

(** A list item, and a list of items. *)
Definition itemEvents (chunks : list TextChunk) : list event :=
  OnElement SelLi (el "li" None) :: textEvents SelLi chunks
    ++ [OnEndTag SelLi].

Definition listEvents (l : Element) (items : list (list TextChunk))
    : list event :=
  OnElement SelList l :: concat (map itemEvents items)
    ++ [OnEndTag SelList].

(** The handler calls of the selector [li]. *)
Definition itemEvent (e : event) : bool :=
  match e with
  | OnElement SelLi _ | OnText SelLi _ | OnEndTag SelLi => true
  | _ => false
  end.

(** A list element that starts and ends inside another list element:
    between the start of the outer list and the inner list, and between
    the inner list and the end of the outer list, only handlers of [li]
    are called. *)
Definition nestedListEvents (outer inner : Element) (before : list event)
    (items : list (list TextChunk)) (after : list event) : list event :=
  OnElement SelList outer :: before ++ listEvents inner items ++ after
    ++ [OnEndTag SelList].

(** An [ol] with the item [b] inside the first item of a [ul] whose items
    start with [a] and [c]. *)
Definition nestedSample : list event :=
  nestedListEvents (el "ul" None) (el "ol" None)
    [OnElement SelLi (el "li" None); OnText SelLi (chunk (js "a") true)]
    [[chunk (js "b") true]]
    (OnEndTag SelLi :: itemEvents [chunk (js "c") true]).

(** The type of the sections that the end-tag closure of a selector
    pushes; the other selectors register no closure that pushes. *)
Definition pushedType (sel : selector) : option SectionType :=
  match sel with
  | SelHeading => Some TyHeading
  | SelPre => Some TyCode
  | SelTable => Some TyTable
  | SelList => Some TyList
  | SelP => Some TyContent
  | _ => None
  end.

(** A language as [detectLang] gives it: one or more word characters. *)
Definition langWord (lang : jsstring) : Prop := lang <> [] /\ allOf isWord lang.

(** The fields of a section that are computed from its other fields: the
    slug and [raw] of a heading, [raw] of a code block, a list and a
    paragraph. *)
Definition coherent (toLowerCase : list N -> list N) (s : Section) : Prop :=
  match s with
  | SHeading h =>
      h_slug h = slugify toLowerCase (h_text h) /\
      h_raw h = hashes (h_level h) ++ js " " ++ h_text h
  | SCode c =>
      langWord (c_lang c) /\
      c_raw c = js "```" ++ c_lang c ++ [LF] ++ c_code c ++ [LF] ++ js "```"
  | STable t => True
  | SList l => l_raw l = join [LF] (listLines (l_ordered l) 0 (l_items l))
  | SContent p => p_raw p = p_text p
  end.

(** The same for a state: the sections pushed so far, and the language of
    the open code block. *)
Definition coherentState (toLowerCase : list N -> list N) (st : state)
    : Prop :=
  Forall (coherent toLowerCase) (sections st) /\
  (forall c, currentCode st = Some c -> langWord (ca_lang c)).

(** A table cell whose text node arrives in several chunks, the final one
    flagged; the cell is given by the texts of its chunks. *)
Definition cellChunks (parts : list jsstring) (final : jsstring)
    : list TextChunk :=
  map (fun p => chunk p false) parts ++ [chunk final true].

Definition cellEvents (c : list jsstring * jsstring) : list event :=
  textEvents SelCell (cellChunks (fst c) (snd c)).

Definition cellValue (c : list jsstring * jsstring) : jsstring :=
  concat (fst c) ++ snd c.

(** The text handler calls within one cell.  A cell holds any number of
    text nodes: none when it is empty, several when it has inline markup. *)
Definition cellNodesEvents (nodes : list (list jsstring * jsstring))
    : list event :=
  concat (map cellEvents nodes).

(** A row of three cells: "1", an empty cell, "3". *)
Definition sparseRow : list (list (list jsstring * jsstring)) :=
  [[([], js "1")]; []; [([], js "3")]].



(** The slot at the cell position: absent, or the text gathered so far. *)
Definition slotList (o : option jsstring) : list jsstring :=
  match o with Some a => [a] | None => [] end.


(** One line of a Markdown table. *)
Definition tableLine (cells : list jsstring) : jsstring :=
  js "| " ++ join (js " | ") cells ++ js " |".

(** What the text fields of every pushed section satisfy: no white space
    at either end of a heading text, a code body, a list item, a value of a
    table row or a paragraph text; a list has an item. *)
Definition tidy (s : Section) : Prop :=
  match s with
  | SHeading h => trimmed (h_text h)
  | SCode c => trimmed (c_code c)
  | STable t =>
      forall (m : gmap (list N) (list N)) k v,
        m ∈ t_rows t -> m !! k = Some v -> trimmed v
  | SList l => l_items l <> [] /\ Forall trimmed (l_items l)
  | SContent p => trimmed (p_text p)
  end.

(** The same for a state: the sections pushed so far, and the items of
    the open list. *)
Definition tidyState (st : state) : Prop :=
  Forall tidy (sections st) /\
  (forall l, currentList st = Some l -> Forall trimmed (la_items l)).

(** ** The extractor ([extractor.ts]) *)

Record CodeExample : Type := {
  ex_title : list N;
  ex_lang : list N;
  ex_code : list N;
  ex_filename : option (list N);
}.

Record PropDefinition : Type := {
  pd_name : list N;
  pd_type : list N;
  pd_description : list N;
  pd_default : option (list N);
}.


(** [s.matchAll(r)] for a regex with the [g] flag: the captures of the
    successive matches.  As in [replaceLoop], each round looks for a match
    at the current position and moves on by one code unit without one or
    after an empty one; the fuel [S (length s)] is never used up. *)
Fixpoint matchAllLoop (fuel : nat) (r : regex) (pos : nat) (rest : jsstring)
    : list captures :=
  match fuel with
  | O => []
  | S fuel' =>
      let skip :=
        match rest with
        | [] => []
        | _ :: t => matchAllLoop fuel' r (S pos) t
        end in
      match matchAt r pos rest with
      | Some (pos', rest', caps) =>
          if Nat.ltb pos pos'
          then caps :: matchAllLoop fuel' r pos' rest'
          else caps :: skip
      | None => skip
      end
  end.

Definition matchAll (r : regex) (s : jsstring) : list captures :=
  matchAllLoop (S (length s)) r 0 s.

Definition QUOTE : N := 34%N.
Definition isQuote (c : N) : bool := (c =? 34)%N || (c =? 39)%N.
Definition notQuote (c : N) : bool := negb (isQuote c).
Definition notCloseBrace (c : N) : bool := negb (c =? 125)%N.

(** The regex of [extractImports], with the [g] flag: [import], [\s+],
    an opening brace, group 1 [[^}]+], a closing brace, [\s+], [from],
    [\s+], a double or single quote, group 2 of one or more code units
    that are no quote, and a double or single quote. *)
Definition importRe : regex :=
  RText (js "import")
    (RSeq (RPlus isWhiteSpace)
       (RSeq (RLit 123%N)
          (RSeq (RGroup 1 (RPlus notCloseBrace))
             (RSeq (RLit 125%N)
                (RSeq (RPlus isWhiteSpace)
                   (RText (js "from")
                      (RSeq (RPlus isWhiteSpace)
                         (RSeq (RClass isQuote)
                            (RSeq (RGroup 2 (RPlus notQuote))
                               (RClass isQuote)))))))))).

(** An import clause as [importRe] reads it: the names between braces,
    the path between quotes, and white space [ws1], [ws2], [ws3] after
    [import], before [from] and after it. *)
Definition importClause (ws1 names ws2 ws3 : jsstring) (q1 : N)
    (path : jsstring) (q2 : N) : jsstring :=
  js "import" ++ ws1 ++ [123%N] ++ names ++ [125%N] ++ ws2 ++ js "from"
    ++ ws3 ++ [q1] ++ path ++ [q2].

(** One or more white space characters. *)
Definition blank (ws : jsstring) : Prop := ws <> [] /\ allOf isWhiteSpace ws.

(** [set.add(x)] on a [Set] kept in insertion order. *)
Definition setAdd (s : list jsstring) (x : jsstring) : list jsstring :=
  if bool_decide (x ∈ s) then s else s ++ [x].

(** The template literal of [extractImports]: [import { ], the trimmed
    group 1, [ } from ], group 2 in double quotes and a semicolon; both
    groups take part in every match of [importRe]. *)
Definition importLine (caps : captures) : jsstring :=
  js "import { " ++ trim (default [] (capture caps 1)) ++ js " } from "
    ++ [QUOTE] ++ default [] (capture caps 2) ++ [QUOTE] ++ js ";".

(** [block.lang === 'tsx' || block.lang === 'ts' || block.lang === 'jsx'] *)
Definition importLang (lang : jsstring) : bool :=
  strictEq lang (js "tsx") || strictEq lang (js "ts")
  || strictEq lang (js "jsx").

(** [extractImports] *)
Definition extractImports (blocks : list CodeSection) : list jsstring :=
  fold_left
    (fun imports block =>
       if importLang (c_lang block)
       then fold_left (fun imports caps => setAdd imports (importLine caps))
              (matchAll importRe (c_code block)) imports
       else imports)
    blocks [].

(** [for (const h of headings) headingMap.set(h.idx, h.text)] *)
Definition headingMap (hs : list HeadingSection) : gmap nat (list N) :=
  fold_left (fun m h => <[h_idx h := h_text h]> m) hs ∅.

(** [for (let i = n - 1; i >= 0; i--) if (headingMap.has(i)) ...]: the
    text at the largest index below [n], if any. *)
Fixpoint nearestHeading (m : gmap nat (list N)) (n : nat)
    : option jsstring :=
  match n with
  | O => None
  | S i =>
      match m !! i with
      | Some t => Some t
      | None => nearestHeading m i
      end
  end.

(** [['tsx', 'ts', 'jsx', 'js'].includes(block.lang)] *)
Definition exampleLang (lang : jsstring) : bool :=
  strictEq lang (js "tsx") || strictEq lang (js "ts")
  || strictEq lang (js "jsx") || strictEq lang (js "js").

Definition exampleOf (title : jsstring) (block : CodeSection) : CodeExample :=
  {| ex_title := title; ex_lang := c_lang block; ex_code := c_code block;
     ex_filename := c_filename block |}.

(** The loop of [extractExamples] over the code blocks; [cur] is
    [currentHeading]. *)
Fixpoint examplesLoop (m : gmap nat (list N)) (blocks : list CodeSection)
    (cur : jsstring) : list CodeExample :=
  match blocks with
  | [] => []
  | block :: rest =>
      let cur' := default cur (nearestHeading m (c_idx block)) in
      (if exampleLang (c_lang block) then [exampleOf cur' block] else [])
        ++ examplesLoop m rest cur'
  end.

(** [extractExamples] *)
Definition extractExamples (hs : list HeadingSection)
    (blocks : list CodeSection) : list CodeExample :=
  examplesLoop (headingMap hs) blocks (js "Example").

(** [a || b] where [a] is a property of a row object: a string, or
    [undefined] when the key is absent.  None of the keys read by
    [extractProps] is inherited from [Object.prototype]. *)
Definition orElse (a : option jsstring) (b : jsstring) : jsstring :=
  match a with
  | Some s => if truthy s then s else b
  | None => b
  end.

(** [s.replace(/`/g, '')] *)
Definition removeBackticks (s : jsstring) : jsstring :=
  replaceAll (RLit 96%N) [] s.

(** The body of the loop over the rows in [extractProps]. *)
Definition rowProp (row : gmap (list N) (list N)) : option PropDefinition :=
  let name :=
    orElse (row !! js "Prop")
      (orElse (row !! js "Name")
         (orElse (row !! js "Property") (orElse (row !! js "prop") []))) in
  let type := orElse (row !! js "Type") (orElse (row !! js "type") []) in
  let description :=
    orElse (row !! js "Description")
      (orElse (row !! js "description") (orElse (row !! js "Desc") [])) in
  let defaultVal :=
    orElse (row !! js "Default") (orElse (row !! js "default") []) in
  if truthy name
  then Some {| pd_name := removeBackticks name;
               pd_type := removeBackticks type;
               pd_description := description;
               pd_default := if truthy defaultVal then Some defaultVal
                             else None |}
  else None.

(** A snippet map: a [Map] in insertion order; [set] on a key that is
    present replaces the value in place. *)
Fixpoint mapSet (m : list (jsstring * jsstring)) (k v : jsstring)
    : list (jsstring * jsstring) :=
  match m with
  | [] => [(k, v)]
  | (k', v') :: rest =>
      if strictEq k' k then (k', v) :: rest else (k', v') :: mapSet rest k v
  end.

(** [map.get(k)] *)
Fixpoint mapGet (m : list (jsstring * jsstring)) (k : jsstring)
    : option jsstring :=
  match m with
  | [] => None
  | (k', v') :: rest => if strictEq k' k then Some v' else mapGet rest k
  end.

(** [example.filename || `${example.title}.${example.lang}`] *)
Definition snippetKey (e : CodeExample) : jsstring :=
  orElse (ex_filename e) (ex_title e ++ js "." ++ ex_lang e).

(** The loop of [extractSnippets] over the examples. *)
Definition snippetsOf (examples : list CodeExample)
    : list (jsstring * jsstring) :=
  fold_left (fun m e => mapSet m (snippetKey e) (ex_code e)) examples [].

(** [extractSnippets] *)
Definition extractSnippets (doc : ParsedDoc) : list (jsstring * jsstring) :=
  snippetsOf (extractExamples (headings doc) (codeBlocks doc)).

Section ExtractProps.
(** [String.prototype.toLowerCase] *)
Variable toLowerCase : list N -> list N.

(** [table.headers.some((h) => names.includes(h.toLowerCase()))] *)
Definition hasHeader (names : list jsstring) (headers : list jsstring)
    : bool :=
  existsb (fun h => existsb (strictEq (toLowerCase h)) names) headers.

(** The props that one table contributes in [extractProps]. *)
Definition tableProps (t : TableSection) : list PropDefinition :=
  if hasHeader [js "prop"; js "name"; js "property"] (t_headers t)
     && hasHeader [js "type"] (t_headers t)
  then omap rowProp (t_rows t)
  else [].

(** [extractProps] *)
Definition extractProps (ts : list TableSection) : list PropDefinition :=
  concat (map tableProps ts).
End ExtractProps.

(** The examples in a list of sections, read front to back: the title of
    an example is the text of the last heading before its code block, or
    "Example" before any heading. *)
Fixpoint examplesIn (secs : list Section) (cur : jsstring)
    : list CodeExample :=
  match secs with
  | [] => []
  | SHeading h :: rest => examplesIn rest (h_text h)
  | SCode c :: rest =>
      (if exampleLang (c_lang c) then [exampleOf cur c] else [])
        ++ examplesIn rest cur
  | _ :: rest => examplesIn rest cur
  end.

(** ** The handlers and the shared counter *)

Section Invariants.
(** Any [toLowerCase]. *)
Variable lower : list N -> list N.

Lemma run_app evs1 evs2 st : run lower (evs1 ++ evs2) st = run lower evs2 (run lower evs1 st).
Proof. apply fold_left_app. Qed.

Lemma run_snoc evs e st : run lower (evs ++ [e]) st = handle lower (run lower evs st) e.
Proof. now rewrite run_app. Qed.

(** A property of states that every handler call preserves holds after
    any event stream. *)
Lemma run_invariant (P : state -> Prop) :
  (forall st e, P st -> P (handle lower st e)) ->
  forall evs st, P st -> P (run lower evs st).
Proof.
  intros Hstep evs. induction evs as [|e evs IH]; intros st HP; simpl.
  - exact HP.
  - apply IH, Hstep, HP.
Qed.


Lemma push_indexed mk st :
  (forall i, sec_idx (mk i) = i) -> indexed st -> indexed (push mk st).
Proof.
  unfold indexed. intros Hmk Hst.
  change (sections (push mk st)) with (sections st ++ [mk (idx st)]).
  change (idx (push mk st)) with (S (idx st)).
  rewrite map_app, Hst, seq_S. simpl. now rewrite Hmk.
Qed.

Lemma handle_indexed st e : indexed st -> indexed (handle lower st e).
Proof.
  intros Hst.
  destruct e as [sel e|sel c|sel]; destruct sel;
    cbv beta iota zeta delta [handle onElement onText onEndTag];
    repeat match goal with
    | |- context [match ?x with _ => _ end] => destruct x
    end;
    try exact Hst;
    match goal with
    | |- indexed (_ _ (push ?mk ?s)) => change (indexed (push mk s))
    | |- indexed (push ?mk ?s) => idtac
    end;
    apply push_indexed; try exact Hst; reflexivity.
Qed.

Lemma run_indexed evs : indexed (run lower evs initial).
Proof.
  apply run_invariant; [exact handle_indexed | reflexivity].
Qed.

(** C2: for every event stream, [total] is the number of sections, and
    the section at list position [i] carries [idx = i]: the sections
    receive the successive values of one counter that starts at 0, so
    [idx] is strictly increasing along the list. *)
Theorem total_and_idx_follow_one_counter (evs : list event) (src : jsstring) :
  let doc := parseEvents lower evs src in
  total doc = length (doc_sections doc) /\
  map sec_idx (doc_sections doc) = seq 0 (total doc) /\
  (forall i s, doc_sections doc !! i = Some s -> sec_idx s = i) /\
  (forall i j a b, i < j ->
     doc_sections doc !! i = Some a -> doc_sections doc !! j = Some b ->
     sec_idx a < sec_idx b).
Proof.
  simpl. pose proof (run_indexed evs) as Hidx. unfold indexed in Hidx.
  set (secs := sections (run lower evs initial)) in *.
  assert (Hlen : length secs = idx (run lower evs initial)).
  { rewrite <- (length_map sec_idx), Hidx. apply length_seq. }
  assert (Hpos : forall i s, secs !! i = Some s -> sec_idx s = i).
  { intros i s Hs.
    assert (Hm : map sec_idx secs !! i = Some (sec_idx s)).
    { change (map sec_idx secs) with (sec_idx <$> secs).
      rewrite list_lookup_fmap, Hs. reflexivity. }
    rewrite Hidx in Hm. apply lookup_seq in Hm. lia. }
  repeat split.
  - rewrite Hlen. exact Hidx.
  - exact Hpos.
  - intros i j a b Hij Ha Hb.
    rewrite (Hpos _ _ Ha), (Hpos _ _ Hb). exact Hij.
Qed.

(** *** The row buffer *)

Lemma arraySet_length (a : list jsstring) i v :
  length (arraySet a i v) = Nat.max (length a) (S i).
Proof.
  revert a. induction i as [|i IH]; intros [|x a]; simpl; try reflexivity.
  - lia.
  - now rewrite IH.
  - now rewrite IH.
Qed.

(** Up to the length, [a[i] = v] overwrites or appends: no hole appears. *)
Lemma arraySet_within (a : list jsstring) i v :
  i <= length a ->
  arraySet a i v = if i <? length a then <[i := v]> a else a ++ [v].
Proof.
  revert a. induction i as [|i IH]; intros [|x a] Hi; simpl in *;
    try reflexivity; try lia.
  rewrite IH by lia. change (S i <? S (length a)) with (i <? length a).
  now destruct (i <? length a).
Qed.

(** The cell position never runs ahead of the row buffer, so the text
    handler of [th, td] never writes past the end of [currentRow]. *)
Lemma cell_index_within_row (evs : list event) :
  cellIndex (run lower evs initial) <= length (currentRow (run lower evs initial)).
Proof.
  apply (run_invariant (fun st => cellIndex st <= length (currentRow st)));
    [|simpl; lia].
  intros st e Hst.
  destruct e as [sel e|sel c|sel]; destruct sel;
    cbv beta iota zeta delta [handle onElement onText onEndTag];
    repeat match goal with
    | |- context [match ?x with _ => _ end] => destruct x
    end;
    try exact Hst; simpl; try lia;
    rewrite arraySet_length; lia.
Qed.

(** *** Paragraphs *)


Lemma push_paragraphFree mk st :
  (forall i, sec_type (mk i) <> TyContent) ->
  paragraphFree st -> paragraphFree (push mk st).
Proof.
  intros Hmk [Hp Hs]. split; [exact Hp|]. simpl.
  apply Forall_app. split; [exact Hs|]. constructor; [apply Hmk|constructor].
Qed.

Lemma handle_paragraphFree st e :
  paragraphFree st -> paragraphFree (handle lower st e).
Proof.
  intros Hst. destruct e as [sel e|sel c|sel]; destruct sel; simpl;
    try exact Hst.
  - destruct Hst as [Hp Hs]. split; [constructor; [reflexivity|exact Hp]|exact Hs].
  - destruct (currentHeading st); exact Hst.
  - destruct (currentCode st); exact Hst.
  - destruct (currentHeading st); [|exact Hst].
    apply (push_paragraphFree _ st); [discriminate|exact Hst].
  - destruct (currentCode st); [|exact Hst].
    apply (push_paragraphFree _ st); [discriminate|exact Hst].
  - destruct (currentTable st); [|exact Hst].
    apply (push_paragraphFree _ st); [discriminate|exact Hst].
  - destruct (currentTable st); [|exact Hst].
    destruct (inThead st || _); exact Hst.
  - destruct (currentList st); [|exact Hst].
    destruct (0 <? _); [|exact Hst].
    apply (push_paragraphFree _ st); [discriminate|exact Hst].
  - destruct (currentList st); exact Hst.
  - destruct Hst as [Hp Hs]. destruct (pText st) as [|text outer] eqn:Ht.
    + split; [rewrite Ht; constructor|exact Hs].
    + inversion Hp as [|? ? Htext Houter]; subst. simpl.
      split; [exact Houter|exact Hs].
Qed.

(** Whatever the event stream, the document has no paragraph section. *)
Lemma no_paragraph_section (evs : list event) (src : jsstring) :
  byType (parseEvents lower evs src) TyContent = [].
Proof.
  simpl.
  assert (H : paragraphFree (run lower evs initial)).
  { apply run_invariant; [exact handle_paragraphFree|].
    split; constructor. }
  destruct H as [_ H]. induction H as [|s l Hs Hl IH]; simpl.
  - reflexivity.
  - destruct s; simpl; try exact IH. now contradict Hs.
Qed.

(** C1 (at the failing input): the text chunks of a paragraph do not
    reach the end-tag closure; the paragraph "This is a paragraph."
    closes with an empty text and no section is pushed. *)
Theorem paragraph_text_is_lost :
  let evs := paragraphEvents (js "This is a paragraph.") in
  pText (run lower (firstn 3 evs) initial) = [[]] /\
  sections (run lower evs initial) = [] /\
  byType (parseEvents lower evs (js "unknown")) TyContent = [].
Proof. repeat split; reflexivity. Qed.
End Invariants.

(** ** Table rows *)

Section TableRows.
Variable lower : list N -> list N.

Lemma rowsClosed_snoc evs e :
  rowsClosed (evs ++ [e]) =
  match e with
  | OnElement SelTable _ => 0
  | OnEndTag SelTr => S (rowsClosed evs)
  | _ => rowsClosed evs
  end.
Proof. unfold rowsClosed. now rewrite fold_left_app. Qed.

(** While the first row of the open table has not been closed, the
    table has no headers. *)
Lemma first_row_no_headers evs t :
  currentTable (run lower evs initial) = Some t ->
  rowsClosed evs = 0 -> ta_headers t = [].
Proof.
  revert t. induction evs as [|e evs IH] using rev_ind; intros t Ht Hn.
  - discriminate.
  - rewrite run_snoc in Ht. rewrite rowsClosed_snoc in Hn.
    set (st := run lower evs initial) in *.
    destruct e as [sel e|sel c|sel]; destruct sel; simpl in Ht, Hn;
      try discriminate Hn;
      repeat match type of Ht with
      | context [match ?x with _ => _ end] => destruct x eqn:?; simpl in Ht
      end;
      try discriminate Ht; try (apply IH; assumption).
    all: try (now inversion Ht).
    all: congruence.
Qed.

(** C3, as the code has it: at the end tag of a [tr] while a table is
    open, the row buffer becomes the headers when the within-head flag is
    set or the table has no headers yet, and is appended to the rows
    otherwise.  The first row of a table always finds the headers empty,
    so it always becomes the headers. *)
Theorem tr_close_headers_or_rows (evs : list event) (st : state) (t : TableAcc) :
  st = run lower evs initial ->
  currentTable st = Some t ->
  handle lower st (OnEndTag SelTr) =
    setTable
      (Some (if inThead st || Nat.eqb (length (ta_headers t)) 0
             then {| ta_headers := currentRow st; ta_rows := ta_rows t |}
             else {| ta_headers := ta_headers t;
                     ta_rows := ta_rows t ++ [currentRow st] |})) st
  /\ (firstRow evs || inThead st = true ->
      handle lower st (OnEndTag SelTr) =
        setTable (Some {| ta_headers := currentRow st;
                          ta_rows := ta_rows t |}) st).
Proof.
  intros Hst Ht. simpl. rewrite Ht. split.
  - destruct (inThead st || _); reflexivity.
  - intros Hor. destruct (inThead st) eqn:Hhead; [reflexivity|].
    rewrite orb_false_r in Hor. apply Nat.eqb_eq in Hor.
    subst st. rewrite (first_row_no_headers _ _ Ht Hor). reflexivity.
Qed.
End TableRows.

(** On [emptyHeadTable] the body row finds the headers empty and becomes
    the headers. *)
Lemma tr_close_headers_or_rows_witness :
  handle asciiToLowerCase (run asciiToLowerCase emptyHeadTable initial)
    (OnEndTag SelTr) =
  setTable (Some {| ta_headers := [js "a"]; ta_rows := [] |})
    (run asciiToLowerCase emptyHeadTable initial).
Proof.
  exact (proj1 (tr_close_headers_or_rows asciiToLowerCase emptyHeadTable
                  (run asciiToLowerCase emptyHeadTable initial)
                  {| ta_headers := []; ta_rows := [] |} eq_refl eq_refl)).
Defined.

(** C3 as worded fails: the second row of [emptyHeadTable] is neither the
    first row nor within the head, yet it becomes the headers. *)
Lemma tr_close_not_first_row_becomes_headers :
  ~ (forall (evs : list event) (st : state) (t : TableAcc),
       st = run asciiToLowerCase evs initial ->
       currentTable st = Some t ->
       currentTable (handle asciiToLowerCase st (OnEndTag SelTr)) =
         Some (trCloseAsSpecified (firstRow evs) st t)).
Proof.
  intros H.
  specialize (H emptyHeadTable _ {| ta_headers := []; ta_rows := [] |}
                eq_refl eq_refl).
  vm_compute in H. discriminate H.
Qed.

(** ** Queries *)

Lemma startsWith_prefix (s q : jsstring) :
  startsWith s q = true <-> q `prefix_of` s.
Proof.
  revert s. induction q as [|c q IH]; intros s; simpl.
  - split; [intros _; apply prefix_nil | reflexivity].
  - destruct s as [|d s].
    + split; [discriminate|]. intros [k Hk]. discriminate Hk.
    + rewrite andb_true_iff, N.eqb_eq, IH. split.
      * intros [-> Hp]. now apply prefix_cons.
      * intros [k Hk]. simpl in Hk. simplify_eq. split; [reflexivity|]. now exists k.
  Qed.

Lemma includes_substring (s q : jsstring) :
  includes s q = true <-> substring q s.
Proof.
  induction s as [|d s IH]; simpl.
  - rewrite orb_false_r, startsWith_prefix. split.
    + intros [k Hk]. exists [], k. exact Hk.
    + intros (pre & post & H). destruct pre; [|discriminate H].
      exists post. exact H.
  - rewrite orb_true_iff, startsWith_prefix, IH. split.
    + intros [[k Hk]|(pre & post & H)].
      * exists [], k. exact Hk.
      * exists (d :: pre), post. simpl. now rewrite H.
    + intros (pre & post & H). destruct pre as [|p pre].
      * left. exists post. exact H.
      * right. simpl in H. simplify_eq. now exists pre, post.
  Qed.

(** Whether [q] occurs in [s] is decided by [includes]. *)
Lemma substring_decision (q s : jsstring) : Decision (substring q s).
Proof.
  destruct (includes s q) eqn:H.
  - left. now apply includes_substring.
  - right. intros Hs. apply includes_substring in Hs. congruence.
Defined.

Lemma List_filter_decide {A} (f : A -> bool) (P : A -> Prop)
    `{!forall x, Decision (P x)} (l : list A) :
  (forall x, f x = true <-> P x) -> List.filter f l = filter P l.
Proof.
  intros Hf. induction l as [|x l IH]; [reflexivity|]. simpl.
  rewrite filter_cons. destruct (decide (P x)) as [HP|HP].
  - apply Hf in HP. rewrite HP. now rewrite IH.
  - destruct (f x) eqn:Hx; [apply Hf in Hx; contradiction|]. exact IH.
Qed.

Lemma elem_of_omap_asCode (secs : list Section) (c : CodeSection) :
  c ∈ omap asCode secs <-> SCode c ∈ secs.
Proof.
  rewrite list_elem_of_omap. split.
  - intros (s & Hs & Hc). destruct s; simpl in Hc; simplify_eq. exact Hs.
  - intros Hs. exists (SCode c). split; [exact Hs|reflexivity].
Qed.


Section Queries.
Variable lower : list N -> list N.

(** C7: [byLang(lang)] is the list of code sections whose language is
    [lang] or has [lang] as a prefix, in document order; [byLang("ts")]
    on a document with a [tsx], a [css] and a [ts] block returns the
    [tsx] and the [ts] block. *)
Theorem byLang_filters_by_prefix (secs : list Section) (src lang : jsstring) :
  let doc := assemble lower secs src in
  codeBlocks doc = omap asCode secs /\
  byLang doc lang = filter (fun c => lang `prefix_of` c_lang c) (codeBlocks doc) /\
  (forall c, c ∈ byLang doc lang <->
     SCode c ∈ secs /\
     (c_lang c = lang \/ exists rest, c_lang c = lang ++ rest)) /\
  map c_lang (byLang (parseEvents lower threeBlocks src) (js "ts"))
    = [js "tsx"; js "ts"] /\
  map c_lang (byLang (parseEvents lower threeBlocks src) (js "css"))
    = [js "css"].
Proof.
  assert (Hf : forall c : CodeSection,
             strictEq (c_lang c) lang || startsWith (c_lang c) lang = true
             <-> lang `prefix_of` c_lang c).
  { intros c. rewrite orb_true_iff, startsWith_prefix. unfold strictEq.
    rewrite bool_decide_eq_true. split; [|now right].
    intros [->|H]; [reflexivity|exact H]. }
  simpl. split; [reflexivity|]. split; [|split; [|split]].
  - apply List_filter_decide. exact Hf.
  - intros c. rewrite (List_filter_decide _ _ _ Hf), list_elem_of_filter.
    rewrite elem_of_omap_asCode. split.
    + intros [[k Hk] Hc]. split; [exact Hc|]. right. now exists k.
    + intros [Hc [->|[k Hk]]]; (split; [|exact Hc]); [reflexivity|now exists k].
  - reflexivity.
  - reflexivity.
Qed.

(** C8: [search(query)] is the list of sections whose lower-cased [raw]
    contains the lower-cased query as a substring, in document order; it
    is the empty list when no section matches. *)
Theorem search_filters_by_lowercase_substring
    (secs : list Section) (src query : jsstring)
    `{!forall s, Decision (substring (lower query) (lower (sec_raw s)))} :
  let doc := assemble lower secs src in
  search doc query
    = filter (fun s => substring (lower query) (lower (sec_raw s))) secs /\
  (forall s, s ∈ search doc query <->
     s ∈ secs /\ substring (lower query) (lower (sec_raw s))) /\
  search doc query `sublist_of` doc_sections doc /\
  ((forall s, s ∈ secs -> ~ substring (lower query) (lower (sec_raw s))) ->
   search doc query = []).
Proof.
  simpl.
  assert (Heq : List.filter
                  (fun s => includes (lower (sec_raw s)) (lower query)) secs
                = filter (fun s => substring (lower query) (lower (sec_raw s)))
                    secs).
  { apply List_filter_decide. intros s. apply includes_substring. }
  rewrite Heq. split; [reflexivity|]. split; [|split].
  - intros s. rewrite list_elem_of_filter. tauto.
  - apply sublist_filter.
  - intros Hnone. induction secs as [|s l IH]; [reflexivity|].
    rewrite filter_cons. destruct (decide _) as [HP|HP].
    + exfalso. apply (Hnone s); [left|exact HP].
    + apply IH; [|intros x Hx; apply Hnone; now right].
      apply List_filter_decide. intros x. apply includes_substring.
Qed.
End Queries.

(** ** Failures of the collaborators *)

Section EntryPoints.
Variable lower : list N -> list N.
Variable htmlEvents : list N -> list event.

(** C9: [parseFile] rejects with "File not found: <path>" when the file
    does not exist, and no document is returned; [fetchDocs] rejects with
    "Failed to fetch <url>: <status>" when the response is not ok, the
    message ending in the decimal status; a rejection of [fetch] itself
    is passed on unchanged. *)
Theorem parseFile_fetchDocs_reject
    (fetch : list N -> promise Response) (bunFile : list N -> BunFile) :
  (forall path, exists_ (bunFile path) = false ->
     parseFile lower htmlEvents bunFile path
       = Rejected (js "File not found: " ++ path)) /\
  (forall url res, fetch url = Fulfilled res -> ok res = false ->
     fetchDocs lower htmlEvents fetch url
       = Rejected (js "Failed to fetch " ++ url ++ js ": "
                     ++ numberToString (status res)) /\
     substring (numberToString (status res))
       (js "Failed to fetch " ++ url ++ js ": "
          ++ numberToString (status res))) /\
  (forall url e, fetch url = Rejected e ->
     fetchDocs lower htmlEvents fetch url = Rejected e).
Proof.
  split; [|split].
  - intros path Hex. unfold parseFile. now rewrite Hex.
  - intros url res Hres Hok. unfold fetchDocs. rewrite Hres, Hok. simpl.
    split; [reflexivity|].
    exists (js "Failed to fetch " ++ url ++ js ": "), [].
    rewrite app_nil_r. now rewrite <- !app_assoc.
  - intros url e He. unfold fetchDocs. now rewrite He.
Qed.
End EntryPoints.

(** A missing file and a 404 response. *)
Lemma parseFile_fetchDocs_reject_witness :
  parseFile asciiToLowerCase paragraphEvents noFiles (js "nonexistent.md")
    = Rejected (js "File not found: nonexistent.md") /\
  fetchDocs asciiToLowerCase paragraphEvents fetch404 (js "http://localhost/x.md")
    = Rejected (js "Failed to fetch http://localhost/x.md: 404").
Proof.
  destruct (parseFile_fetchDocs_reject asciiToLowerCase paragraphEvents
              fetch404 noFiles) as (Hfile & Hfetch & _).
  split.
  - exact (Hfile (js "nonexistent.md") eq_refl).
  - exact (proj1 (Hfetch (js "http://localhost/x.md") _ eq_refl eq_refl)).
Defined.

(** ** Row mappings *)

Lemma objSet_lookup (obj : gmap (list N) (list N)) (k v k' : list N) :
  objSet obj k v !! k' =
  if bool_decide (k = PROTO) then obj !! k'
  else if bool_decide (k = k') then Some v else obj !! k'.
Proof.
  unfold objSet. destruct (bool_decide (k = PROTO)); [reflexivity|].
  rewrite lookup_insert. destruct (decide (k = k')) as [->|Hne].
  - now rewrite bool_decide_eq_true_2.
  - now rewrite bool_decide_eq_false_2.
Qed.

(** A key that is no header, and the key [__proto__], are left alone. *)
Lemma fillRow_lookup_other hs i row obj (k : list N) :
  k ∉ hs \/ k = PROTO -> fillRow hs i row obj !! k = obj !! k.
Proof.
  revert i obj. induction hs as [|h hs IH]; intros i obj Hk; simpl.
  - reflexivity.
  - rewrite IH.
    + rewrite objSet_lookup.
      destruct (bool_decide_reflect (h = PROTO)) as [Hp|Hp]; [reflexivity|].
      destruct (bool_decide_reflect (h = k)) as [->|Hne]; [|reflexivity].
      destruct Hk as [Hk|Hk]; [|contradiction].
      exfalso. apply Hk. left.
    + destruct Hk as [Hk|Hk]; [left|now right]. intros Hin. apply Hk. now right.
Qed.

(** A header other than [__proto__] is mapped to the cell at its last
    position among the headers. *)
Lemma fillRow_lookup_last hs i row obj (j : nat) (k : list N) :
  hs !! j = Some k -> k <> PROTO ->
  (forall j', j < j' -> hs !! j' <> Some k) ->
  fillRow hs i row obj !! k = Some (cellText row (i + j)).
Proof.
  revert i obj j. induction hs as [|h hs IH]; intros i obj j Hj Hk Hlast.
  - discriminate Hj.
  - simpl. destruct j as [|j].
    + simpl in Hj. simplify_eq.
      rewrite fillRow_lookup_other.
      * rewrite objSet_lookup, bool_decide_eq_false_2 by exact Hk.
        rewrite bool_decide_eq_true_2 by reflexivity.
        now rewrite Nat.add_0_r.
      * left. intros Hin. apply list_elem_of_lookup in Hin as [j' Hj'].
        apply (Hlast (S j')); [lia|exact Hj'].
    + simpl in Hj. rewrite (IH (S i) _ j Hj Hk).
      * f_equal. f_equal. lia.
      * intros j' Hlt. apply (Hlast (S j')). lia.
Qed.

Lemma fillRow_dom hs i row obj :
  PROTO ∉ hs ->
  dom (fillRow hs i row obj) = (list_to_set hs ∪ dom obj : gset (list N)).
Proof.
  revert i obj. induction hs as [|h hs IH]; intros i obj Hp; simpl.
  - now rewrite (left_id_L ∅ (∪)).
  - rewrite IH by (intros Hin; apply Hp; now right).
    unfold objSet. rewrite bool_decide_eq_false_2.
    + rewrite dom_insert_L, (assoc_L (∪)), (comm_L (∪) (list_to_set hs)).
      reflexivity.
    + intros ->. apply Hp. left.
Qed.

Section TableClose.
Variable lower : list N -> list N.

(** What the end tag of a table pushes. *)
Lemma table_close_sections (st : state) (t : TableAcc) :
  currentTable st = Some t ->
  sections (handle lower st (OnEndTag SelTable)) =
  sections st ++
    [STable {| t_idx := idx st; t_headers := ta_headers t;
               t_rows := map (rowObject (ta_headers t)) (ta_rows t);
               t_raw := formatTableMd (ta_headers t) (ta_rows t) |}].
Proof. intros Ht. simpl. now rewrite Ht. Qed.

(** C4, as the code has it: the end tag of a table pushes a table
    section with one mapping per accumulated row.  When no header is
    [__proto__], the key set of each mapping is the set of headers.  A
    header is mapped to the trimmed cell at the last position where it
    occurs (its own position when it occurs once), and to the empty
    string when the row has no cell there.  Without rows the section has
    [rows = []]. *)
Theorem table_close_row_mappings (st : state) (t : TableAcc) :
  currentTable st = Some t ->
  exists sec : TableSection,
    sections (handle lower st (OnEndTag SelTable))
      = sections st ++ [STable sec] /\
    t_headers sec = ta_headers t /\
    t_rows sec = map (rowObject (ta_headers t)) (ta_rows t) /\
    (ta_rows t = [] -> t_rows sec = []) /\
    (forall r row m,
       ta_rows t !! r = Some row -> t_rows sec !! r = Some m ->
       (PROTO ∉ ta_headers t ->
        dom m = (list_to_set (ta_headers t) : gset (list N))) /\
       (forall i h,
          ta_headers t !! i = Some h -> h <> PROTO ->
          (forall j, i < j -> ta_headers t !! j <> Some h) ->
          (forall c, row !! i = Some c -> m !! h = Some (trim c)) /\
          (length row <= i -> m !! h = Some []))).
Proof.
  intros Ht. eexists. split; [exact (table_close_sections st t Ht)|].
  cbn [t_headers t_rows].
  split; [reflexivity|]. split; [reflexivity|]. split.
  - intros ->. reflexivity.
  - intros r row m Hrow Hm.
    change (map (rowObject (ta_headers t)) (ta_rows t))
      with (rowObject (ta_headers t) <$> ta_rows t) in Hm.
    rewrite list_lookup_fmap, Hrow in Hm. simpl in Hm. simplify_eq.
    unfold rowObject. split.
    + intros Hp. rewrite fillRow_dom by exact Hp.
      now rewrite dom_empty_L, (right_id_L ∅ (∪)).
    + intros i h Hi Hh Hlast.
      pose proof (fillRow_lookup_last _ 0 row ∅ _ _ Hi Hh Hlast) as Hl.
      simpl in Hl. rewrite Hl. unfold cellText. split.
      * intros c Hc. now rewrite Hc.
      * intros Hlen. now rewrite (lookup_ge_None_2 _ _ Hlen).
Qed.
End TableClose.


(** The headers "Prop", "Type" and the row " size ", "string". *)
Lemma table_close_row_mappings_witness :
  exists sec : TableSection,
    sections (run asciiToLowerCase
                (twoColumnTable "Prop" "Type" " size " "string"
                   ++ [OnEndTag SelTable]) initial) = [STable sec] /\
    t_headers sec = [js "Prop"; js "Type"] /\
    t_rows sec = [ <[js "Type" := js "string"]> {[ js "Prop" := js "size" ]} ].
Proof.
  destruct (table_close_row_mappings asciiToLowerCase
              (run asciiToLowerCase
                 (twoColumnTable "Prop" "Type" " size " "string") initial)
              {| ta_headers := [js "Prop"; js "Type"];
                 ta_rows := [[js " size "; js "string"]] |} eq_refl)
    as (sec & Hsec & Hh & Hrows & _).
  exists sec. rewrite run_snoc. split; [exact Hsec|]. split; [exact Hh|].
  rewrite Hrows. vm_compute. reflexivity.
Defined.

(** C4 as worded fails on duplicate headers: with the headers "A", "A" and
    the row "1", "2", the header at position 0 is mapped to "2". *)
Lemma table_close_duplicate_header_not_own_cell :
  ~ (forall (st : state) (t : TableAcc) (sec : TableSection),
       currentTable st = Some t ->
       sections (handle asciiToLowerCase st (OnEndTag SelTable))
         = sections st ++ [STable sec] ->
       forall r row m i h,
         ta_rows t !! r = Some row -> t_rows sec !! r = Some m ->
         ta_headers t !! i = Some h -> m !! h = Some (cellText row i)).
Proof.
  intros H.
  set (st := run asciiToLowerCase (twoColumnTable "A" "A" "1" "2") initial).
  set (t := {| ta_headers := [js "A"; js "A"];
               ta_rows := [[js "1"; js "2"]] |}).
  assert (Ht : currentTable st = Some t) by (vm_compute; reflexivity).
  pose proof (H st t _ Ht (table_close_sections asciiToLowerCase st t Ht)
                0 [js "1"; js "2"]
                (rowObject [js "A"; js "A"] [js "1"; js "2"])
                0 (js "A") eq_refl eq_refl eq_refl) as Hm.
  assert (Hcode : rowObject [js "A"; js "A"] [js "1"; js "2"] !! js "A"
                  = Some (js "2")) by (vm_compute; reflexivity).
  rewrite Hcode in Hm. discriminate Hm.
Qed.

(** C10 (at the failing input): with the header [__proto__] twice, the
    mapping of the row has no key at all. *)
Theorem proto_header_has_no_key :
  exists sec : TableSection,
    sections (run asciiToLowerCase
                (twoColumnTable "__proto__" "__proto__" "a" "b"
                   ++ [OnEndTag SelTable]) initial) = [STable sec] /\
    t_headers sec = [PROTO; PROTO] /\
    t_rows sec = [∅].
Proof.
  rewrite run_snoc.
  set (st := run asciiToLowerCase
               (twoColumnTable "__proto__" "__proto__" "a" "b") initial).
  set (t := {| ta_headers := [PROTO; PROTO]; ta_rows := [[js "a"; js "b"]] |}).
  assert (Ht : currentTable st = Some t) by (vm_compute; reflexivity).
  assert (Hs : sections st = []) by (vm_compute; reflexivity).
  rewrite (table_close_sections asciiToLowerCase st t Ht), Hs.
  eexists. split; [reflexivity|]. cbn [t_headers t_rows].
  split; [reflexivity|]. vm_compute. reflexivity.
Qed.

(** ** The matcher *)

Section MatcherFacts.
Context {R : Type}.
Implicit Types (k : @cont R) (p : N -> bool).

(** A result of the greedy repetition comes from some split of the
    input after a run of the class. *)
Lemma starM_sound p pos input caps k res :
  starM p pos input caps k = Some res ->
  exists a rest, input = a ++ rest /\ allOf p a /\
                 k (pos + length a) rest caps = Some res.
Proof.
  revert pos. induction input as [|c input IH]; intros pos H; simpl in H.
  - exists [], []. rewrite Nat.add_0_r. repeat split; [constructor|exact H].
  - destruct (p c) eqn:Hc.
    + destruct (starM p (S pos) input caps k) as [r|] eqn:Hin.
      * simplify_eq. apply IH in Hin as (a & rest & -> & Ha & Hk).
        exists (c :: a), rest. simpl. rewrite Nat.add_succ_r.
        repeat split; [constructor; assumption|exact Hk].
      * exists [], (c :: input). rewrite Nat.add_0_r.
        repeat split; [constructor|exact H].
    + exists [], (c :: input). rewrite Nat.add_0_r.
      repeat split; [constructor|exact H].
Qed.

(** The repetition finds a result whenever some split has one. *)
Lemma starM_complete p pos a rest caps k :
  allOf p a -> is_Some (k (pos + length a) rest caps) ->
  is_Some (starM p pos (a ++ rest) caps k).
Proof.
  intros Ha. revert pos. induction Ha as [|c a Hc Ha IH]; intros pos Hk.
  - simpl in *. rewrite Nat.add_0_r in Hk. destruct rest as [|c rest]; simpl.
    + exact Hk.
    + destruct (p c); [|exact Hk].
      destruct (starM p (S pos) rest caps k); [eauto|exact Hk].
  - simpl. rewrite Hc. simpl in Hk. rewrite Nat.add_succ_r in Hk.
    destruct (IH (S pos) Hk) as [r ->]. eauto.
Qed.

(** Without a run that the continuation accepts, the repetition hands
    over the whole input. *)
Lemma starM_no_run p pos rest caps k :
  (forall a2 rest2, a2 <> [] -> rest = a2 ++ rest2 -> allOf p a2 ->
     k (pos + length a2) rest2 caps = None) ->
  starM p pos rest caps k = k pos rest caps.
Proof.
  revert pos. induction rest as [|c rest IH]; intros pos Hlong.
  - reflexivity.
  - simpl. destruct (p c) eqn:Hc; [|reflexivity].
    rewrite IH.
    + specialize (Hlong [c] rest). simpl in Hlong.
      rewrite Nat.add_1_r in Hlong. rewrite Hlong; try easy.
      constructor; [exact Hc|constructor].
    + intros a2 rest2 Hne -> Ha2.
      specialize (Hlong (c :: a2) rest2). simpl in Hlong.
      rewrite Nat.add_succ_r in Hlong. apply Hlong; try easy.
      constructor; assumption.
Qed.

(** Greed: the repetition takes the run [a] when the continuation
    accepts it and rejects every longer run. *)
Lemma starM_greedy p pos a rest caps k res :
  allOf p a ->
  (forall a2 rest2, a2 <> [] -> rest = a2 ++ rest2 -> allOf p a2 ->
     k (pos + length a + length a2) rest2 caps = None) ->
  k (pos + length a) rest caps = Some res ->
  starM p pos (a ++ rest) caps k = Some res.
Proof.
  intros Ha. revert pos. induction Ha as [|c a Hc Ha IH]; intros pos Hlong Hk.
  - simpl in *. rewrite Nat.add_0_r in Hk. rewrite <- Hk.
    apply starM_no_run. intros a2 rest2 Hne Hr Ha2.
    specialize (Hlong a2 rest2 Hne Hr Ha2).
    now rewrite Nat.add_0_r in Hlong.
  - simpl. rewrite Hc. rewrite (IH (S pos)); [reflexivity| |].
    + intros a2 rest2 Hne Hr Ha2.
      specialize (Hlong a2 rest2 Hne Hr Ha2). simpl in Hlong.
      rewrite Nat.add_succ_r in Hlong. exact Hlong.
    + simpl in Hk. rewrite Nat.add_succ_r in Hk. exact Hk.
Qed.

(** Whatever the matcher returns comes from a match of the regex on a
    prefix of the input, followed by the continuation. *)
Lemma matcher_sound r pos input caps k res :
  matcher r pos input caps k = Some res ->
  exists a rest caps',
    input = a ++ rest /\ Matches r pos a rest caps caps' /\
    k (pos + length a) rest caps' = Some res.
Proof.
  revert pos input caps k res.
  induction r as [c|p|p|p| | |r1 IH1 r2 IH2|r1 IH1 r2 IH2|i r IH];
    intros pos input caps k res H; simpl in H.
  - destruct input as [|d input]; [discriminate|].
    destruct (N.eqb_spec c d) as [->|]; [|discriminate].
    exists [d], input, caps. rewrite Nat.add_1_r.
    repeat split; [constructor|exact H].
  - destruct input as [|d input]; [discriminate|].
    destruct (p d) eqn:Hd; [|discriminate].
    exists [d], input, caps. rewrite Nat.add_1_r.
    repeat split; [now constructor|exact H].
  - apply starM_sound in H as (a & rest & -> & Ha & Hk).
    exists a, rest, caps. repeat split; [now constructor|exact Hk].
  - destruct input as [|d input]; [discriminate|].
    destruct (p d) eqn:Hd; [|discriminate].
    apply starM_sound in H as (a & rest & -> & Ha & Hk).
    exists (d :: a), rest, caps. simpl. rewrite Nat.add_succ_r.
    repeat split; [|exact Hk].
    constructor; [discriminate|constructor; assumption].
  - destruct (Nat.eqb_spec pos 0) as [->|]; [|discriminate].
    exists [], input, caps. repeat split; [constructor|exact H].
  - destruct input; [|discriminate].
    exists [], [], caps. rewrite Nat.add_0_r.
    repeat split; [constructor|exact H].
  - apply IH1 in H as (a & rest1 & caps1 & -> & Hm1 & H).
    apply IH2 in H as (b & rest & caps2 & -> & Hm2 & H).
    exists (a ++ b), rest, caps2. rewrite length_app, Nat.add_assoc.
    repeat split; [now rewrite app_assoc| |exact H].
    econstructor; eassumption.
  - destruct (matcher r1 pos input caps k) as [x|] eqn:H1.
    + simplify_eq. apply IH1 in H1 as (a & rest & caps' & -> & Hm & H).
      exists a, rest, caps'. repeat split; [now apply MAltL|exact H].
    + apply IH2 in H as (a & rest & caps' & -> & Hm & H).
      exists a, rest, caps'. repeat split; [now apply MAltR|exact H].
  - apply IH in H as (a & rest & caps' & -> & Hm & H).
    replace (pos + length a - pos) with (length a) in H by lia.
    rewrite take_app_length in H.
    exists a, rest, ((i, a) :: caps').
    repeat split; [now constructor|exact H].
Qed.

(** The matcher finds a result whenever the regex matches a prefix that
    the continuation accepts. *)
Lemma matcher_complete r pos a rest caps caps' k :
  Matches r pos a rest caps caps' ->
  is_Some (k (pos + length a) rest caps') ->
  is_Some (matcher r pos (a ++ rest) caps k).
Proof.
  intros Hm. revert k.
  induction Hm as [c pos rest caps|p c pos rest caps Hc|p a pos rest caps Ha
                  |p a pos rest caps Hne Ha|rest caps|pos caps
                  |r1 r2 pos a b rest caps caps1 caps2 Hm1 IH1 Hm2 IH2
                  |r1 r2 pos a rest caps caps' Hm IH
                  |r1 r2 pos a rest caps caps' Hm IH
                  |i r pos a rest caps caps' Hm IH];
    intros k Hk; simpl.
  - rewrite N.eqb_refl. simpl in Hk. now rewrite Nat.add_1_r in Hk.
  - rewrite Hc. simpl in Hk. now rewrite Nat.add_1_r in Hk.
  - now apply starM_complete.
  - destruct a as [|d a]; [contradiction|]. simpl.
    inversion Ha as [|? ? Hd Ha']; subst. rewrite Hd.
    apply starM_complete; [exact Ha'|].
    simpl in Hk. now rewrite Nat.add_succ_r in Hk.
  - exact Hk.
  - simpl in Hk. now rewrite Nat.add_0_r in Hk.
  - rewrite <- app_assoc. apply IH1. apply IH2.
    now rewrite length_app, Nat.add_assoc in Hk.
  - destruct (matcher r1 pos (a ++ rest) caps k) eqn:H1; [eauto|].
    specialize (IH k Hk). rewrite H1 in IH. now destruct IH.
  - destruct (matcher r1 pos (a ++ rest) caps k); [eauto|]. now apply IH.
  - apply IH. replace (pos + length a - pos) with (length a) by lia.
    now rewrite take_app_length.
Qed.
End MatcherFacts.

(** ** Slugs *)

Lemma dropWhile_length p (s : jsstring) : length (dropWhile p s) <= length s.
Proof.
  induction s as [|c s IH]; simpl; [lia|]. destruct (p c); simpl; lia.
Qed.

(** The runs of [s] are a partition of [s] into non-empty pieces, each on
    one side of the class, neighbours on different sides: they are the
    maximal runs. *)
Lemma runs_maximal p (s : jsstring) :
  concat (map snd (runs p s)) = s /\
  Forall (fun br => snd br <> [] /\ Forall (fun c => p c = fst br) (snd br))
         (runs p s) /\
  alternating (runs p s).
Proof.
  induction s as [|c s (Hcat & Hall & Halt)]; simpl.
  - repeat split. constructor.
  - destruct (runs p s) as [|[b r] rs] eqn:Hr.
    + simpl in Hcat. subst s. repeat split.
      constructor; [|constructor]. split; [discriminate|].
      constructor; [reflexivity|constructor].
    + pose proof Hall as Hall'.
      apply Forall_cons in Hall' as [[Hne Hrun] Hrest]. simpl in Hne, Hrun.
      destruct (eqb b (p c)) eqn:Hb.
      * apply eqb_prop in Hb. repeat split.
        -- simpl. f_equal. exact Hcat.
        -- constructor; [|exact Hrest]. split; [discriminate|]. simpl.
           constructor; [now symmetry|exact Hrun].
        -- exact Halt.
      * repeat split.
        -- simpl. f_equal. exact Hcat.
        -- constructor; [|exact Hall]. split; [discriminate|].
           constructor; [reflexivity|constructor].
        -- simpl. intros Heq. rewrite Heq, eqb_reflx in Hb. discriminate.
        -- exact Halt.
Qed.

Lemma runs_head p d (t : jsstring) :
  exists r rs, runs p (d :: t) = (p d, d :: r) :: rs.
Proof.
  simpl. destruct (runs p t) as [|[b r] rs]; [eauto|].
  destruct (eqb b (p d)) eqn:Hb; [|eauto].
  apply eqb_prop in Hb. subst b. eauto.
Qed.

Lemma hyphenateRuns_alnum d (t : jsstring) :
  isLowerAlnum d = true -> hyphenateRuns (d :: t) = d :: hyphenateRuns t.
Proof.
  intros Hd. unfold hyphenateRuns. simpl.
  destruct (runs isLowerAlnum t) as [|[b r] rs]; simpl.
  - now rewrite Hd.
  - rewrite Hd. destruct b; reflexivity.
Qed.

Lemma hyphenateRuns_other d (t : jsstring) :
  isLowerAlnum d = false ->
  hyphenateRuns (d :: t) = HYPHEN :: hyphenateRuns (dropWhile notLowerAlnum t).
Proof.
  revert d. induction t as [|e t IH]; intros d Hd.
  - unfold hyphenateRuns. simpl. now rewrite Hd.
  - simpl dropWhile. unfold notLowerAlnum at 1.
    destruct (isLowerAlnum e) eqn:He; simpl negb; cbv iota.
    + destruct (runs_head isLowerAlnum e t) as (r & rs & Hr).
      unfold hyphenateRuns. change (runs isLowerAlnum (d :: e :: t))
        with (match runs isLowerAlnum (e :: t) with
              | (b, r) :: rs =>
                  if eqb b (isLowerAlnum d) then (b, d :: r) :: rs
                  else (isLowerAlnum d, [d]) :: (b, r) :: rs
              | [] => [(isLowerAlnum d, [d])]
              end).
      rewrite Hr, He, Hd. reflexivity.
    + rewrite <- (IH e He).
      destruct (runs_head isLowerAlnum e t) as (r & rs & Hr).
      unfold hyphenateRuns. change (runs isLowerAlnum (d :: e :: t))
        with (match runs isLowerAlnum (e :: t) with
              | (b, r) :: rs =>
                  if eqb b (isLowerAlnum d) then (b, d :: r) :: rs
                  else (isLowerAlnum d, [d]) :: (b, r) :: rs
              | [] => [(isLowerAlnum d, [d])]
              end).
      rewrite Hr, He, Hd. reflexivity.
Qed.

Lemma starM_all p pos (rest : jsstring) caps :
  exists pos',
    starM p pos rest caps (fun pos' rest' caps' => Some (pos', rest', caps'))
      = Some (pos', dropWhile p rest, caps) /\ pos <= pos'.
Proof.
  revert pos. induction rest as [|c rest IH]; intros pos; simpl.
  - eauto.
  - destruct (p c); [|eauto].
    destruct (IH (S pos)) as (pos' & -> & Hle). exists pos'. split; [reflexivity|lia].
Qed.

(** [replace(/[^a-z0-9]+/g, '-')] puts one hyphen for every maximal run
    outside [[a-z0-9]]. *)
Lemma replaceLoop_nonAlnum fuel pos (rest : jsstring) :
  length rest < fuel ->
  replaceLoop fuel nonAlnumRe [HYPHEN] pos rest = hyphenateRuns rest.
Proof.
  revert pos rest. induction fuel as [|fuel IH]; intros pos rest Hlen; [lia|].
  destruct rest as [|d t].
  - reflexivity.
  - cbn [replaceLoop]. unfold matchAt, nonAlnumRe. cbn [matcher].
    unfold notLowerAlnum at 1. destruct (isLowerAlnum d) eqn:Hd; cbn [negb].
    + rewrite hyphenateRuns_alnum by exact Hd. f_equal. apply IH.
      simpl in Hlen. lia.
    + destruct (starM_all notLowerAlnum (S pos) t []) as (pos' & -> & Hle).
      assert (Hlt : (pos <? pos') = true) by (apply Nat.ltb_lt; lia).
      rewrite Hlt, hyphenateRuns_other by exact Hd.
      simpl. f_equal. apply IH.
      pose proof (dropWhile_length notLowerAlnum t). simpl in Hlen. lia.
Qed.

Lemma replaceAll_nonAlnum (s : jsstring) :
  replaceAll nonAlnumRe [HYPHEN] s = hyphenateRuns s.
Proof. apply replaceLoop_nonAlnum. lia. Qed.

(** Past the start, [replace(/^-|-$/g, '')] only removes a final hyphen. *)
Lemma replaceLoop_edge fuel pos (rest : jsstring) :
  length rest < fuel ->
  replaceLoop fuel edgeHyphenRe [] (S pos) rest = dropLastHyphen rest.
Proof.
  revert pos rest. induction fuel as [|fuel IH]; intros pos rest Hlen; [lia|].
  destruct rest as [|c t]; [reflexivity|].
  cbn [replaceLoop]. unfold matchAt, edgeHyphenRe. cbn [matcher Nat.eqb].
  simpl in Hlen.
  destruct t as [|d t].
  - destruct (N.eqb_spec HYPHEN c) as [<-|Hc].
    + simpl.
      assert (Hlt : (S pos <? S (S pos)) = true) by (apply Nat.ltb_lt; lia).
      rewrite Hlt. destruct fuel; reflexivity.
    + simpl. destruct (N.eqb_spec c HYPHEN) as [->|_]; [contradiction|].
      destruct fuel; reflexivity.
  - replace (if (HYPHEN =? c)%N then None else None)
      with (@None (nat * list N * captures)) by (now destruct (HYPHEN =? c)%N).
    rewrite IH by (simpl in *; lia). reflexivity.
Qed.

Lemma replaceLoop_edge_start fuel (s : jsstring) :
  length s < fuel ->
  replaceLoop fuel edgeHyphenRe [] 0 s = dropLastHyphen (stripLeadingHyphen s).
Proof.
  intros Hlen. destruct fuel as [|fuel]; [lia|].
  destruct s as [|c t]; [reflexivity|]. simpl in Hlen.
  cbn [replaceLoop]. unfold matchAt, edgeHyphenRe. cbn [matcher Nat.eqb].
  rewrite (N.eqb_sym HYPHEN c). cbn [stripLeadingHyphen].
  destruct (c =? HYPHEN)%N eqn:Hc.
  - change (0 <? 1) with true. cbn iota. simpl app.
    apply replaceLoop_edge. lia.
  - rewrite replaceLoop_edge by lia.
    destruct t as [|d t]; simpl; [now rewrite Hc|reflexivity].
Qed.

Lemma replaceAll_edge (s : jsstring) :
  replaceAll edgeHyphenRe [] s = dropLastHyphen (stripLeadingHyphen s).
Proof. apply replaceLoop_edge_start. lia. Qed.

Lemma dropLastHyphen_snoc (s : jsstring) c :
  dropLastHyphen (s ++ [c]) = if (c =? HYPHEN)%N then s else s ++ [c].
Proof.
  induction s as [|d s IH]; [reflexivity|].
  change ((d :: s) ++ [c]) with (d :: (s ++ [c])).
  cbn [dropLastHyphen]. destruct (s ++ [c]) as [|e u] eqn:Hs.
  - now destruct s.
  - rewrite IH. now destruct (c =? HYPHEN)%N.
Qed.

Lemma dropLastHyphen_strip (s : jsstring) :
  dropLastHyphen s = stripTrailingHyphen s.
Proof.
  unfold stripTrailingHyphen. destruct s as [|c s _] using rev_ind.
  - reflexivity.
  - rewrite dropLastHyphen_snoc, rev_app_distr. simpl.
    destruct (c =? HYPHEN)%N; simpl; now rewrite rev_involutive.
Qed.

Section Slug.
Variable lower : list N -> list N.

(** [slugify] is the algorithm of the specification. *)
Lemma slugify_slugSpec (text : jsstring) :
  slugify lower text = slugSpec lower text.
Proof.
  unfold slugify, slugSpec.
  now rewrite replaceAll_nonAlnum, replaceAll_edge, dropLastHyphen_strip.
Qed.

Lemma hyphenateRuns_units (s : jsstring) : Forall slugUnit (hyphenateRuns s).
Proof.
  unfold hyphenateRuns.
  destruct (runs_maximal isLowerAlnum s) as (_ & Hall & _).
  induction Hall as [|[b r] rs [_ Hrun] _ IH]; simpl; [constructor|].
  apply Forall_app. split; [|exact IH]. simpl in *. destruct b.
  - eapply Forall_impl; [exact Hrun|]. intros c Hc. now left.
  - constructor; [now right|constructor].
Qed.

Lemma slugSpec_units (text : jsstring) : Forall slugUnit (slugSpec lower text).
Proof.
  unfold slugSpec, stripTrailingHyphen.
  apply Forall_rev.
  assert (Hstrip : forall s : jsstring,
             Forall slugUnit s -> Forall slugUnit (stripLeadingHyphen s)).
  { intros [|c s] Hs; [constructor|]. simpl.
    destruct (c =? HYPHEN)%N; [now inversion Hs|exact Hs]. }
  apply Hstrip, Forall_rev, Hstrip, hyphenateRuns_units.
Qed.

(** C6, as the code has it: [slugify] lower-cases the text, replaces
    every maximal run of code units outside [[a-z0-9]] by one hyphen and
    strips one leading and one trailing hyphen; the slug consists of
    [[a-z0-9]] and hyphens only, so no non-ASCII code unit survives.
    Non-ASCII code units are not dropped first: they belong to the runs
    that become hyphens.  "Hello World!" gives "hello-world" and
    "Título" gives "t-tulo". *)
Theorem slugify_hyphenates_runs (text : jsstring) :
  slugify lower text = slugSpec lower text /\
  Forall (fun c => isLowerAlnum c = true \/ c = HYPHEN) (slugify lower text) /\
  (lower (js "Hello World!") = js "hello world!" ->
   slugify lower (js "Hello World!") = js "hello-world") /\
  (lower Titulo = titulo -> slugify lower Titulo = js "t-tulo").
Proof.
  split; [apply slugify_slugSpec|]. split.
  - rewrite slugify_slugSpec. apply slugSpec_units.
  - split; intros Hl; unfold slugify; rewrite Hl; reflexivity.
Qed.
End Slug.

(** With the ASCII lower-casing, which maps both texts as assumed. *)
Lemma slugify_hyphenates_runs_witness :
  slugify asciiToLowerCase (js "Hello World!") = js "hello-world" /\
  slugify asciiToLowerCase Titulo = js "t-tulo".
Proof.
  destruct (slugify_hyphenates_runs asciiToLowerCase (js "Hello World!"))
    as (_ & _ & Hhello & Htitulo).
  split; [exact (Hhello eq_refl)|exact (Htitulo eq_refl)].
Defined.

(** C6 as worded fails: dropping the non-ASCII code units before the runs
    are hyphenated would turn "Título" into "ttulo", while [slugify] gives
    "t-tulo". *)
Lemma slugify_non_ascii_not_dropped_first :
  ~ (forall text : jsstring,
       slugify asciiToLowerCase text = slugDroppingFirst asciiToLowerCase text).
Proof.
  intros H. specialize (H Titulo). vm_compute in H. discriminate H.
Qed.

(** ** File names of code blocks *)

Ltac class_props :=
  unfold isWord, isDot, isLineTerminator, isWhiteSpace, isLower, isUpper,
    isDigit, inRange in *;
  repeat rewrite ?orb_true_iff, ?andb_true_iff, ?negb_true_iff,
    ?orb_false_iff, ?andb_false_iff, ?N.leb_le, ?N.leb_gt,
    ?N.eqb_eq, ?N.eqb_neq in *.

Lemma word_not_dot_unit c : isWord c = true -> c <> 46%N.
Proof. intros H ->. discriminate H. Qed.

Lemma space_not_dot_unit c : isWhiteSpace c = true -> c <> 46%N.
Proof. intros H ->. discriminate H. Qed.

Lemma space_not_word c : isWhiteSpace c = true -> isWord c = false.
Proof.
  intros H. destruct (isWord c) eqn:Hw; [|reflexivity]. exfalso.
  class_props. lia.
Qed.

Lemma not_space_isDot c : isWhiteSpace c = false -> isDot c = true.
Proof.
  intros H. destruct (isDot c) eqn:Hd; [reflexivity|]. exfalso.
  unfold isDot in Hd. apply negb_false_iff in Hd.
  class_props. lia.
Qed.

Lemma Matches_lit_inv c pos a rest caps caps' :
  Matches (RLit c) pos a rest caps caps' -> a = [c] /\ caps' = caps.
Proof. inversion 1; auto. Qed.

Lemma Matches_star_inv p pos a rest caps caps' :
  Matches (RStar p) pos a rest caps caps' -> allOf p a /\ caps' = caps.
Proof. inversion 1; auto. Qed.

Lemma Matches_plus_inv p pos a rest caps caps' :
  Matches (RPlus p) pos a rest caps caps' ->
  a <> [] /\ allOf p a /\ caps' = caps.
Proof. inversion 1; auto. Qed.

Lemma Matches_bol_inv pos a rest caps caps' :
  Matches RBol pos a rest caps caps' -> pos = 0 /\ a = [] /\ caps' = caps.
Proof. inversion 1; auto. Qed.

Lemma Matches_seq_inv r1 r2 pos x rest caps caps2 :
  Matches (RSeq r1 r2) pos x rest caps caps2 ->
  exists a b caps1,
    x = a ++ b /\ Matches r1 pos a (b ++ rest) caps caps1 /\
    Matches r2 (pos + length a) b rest caps1 caps2.
Proof. inversion 1; subst; eauto 8. Qed.

Lemma Matches_alt_inv r1 r2 pos a rest caps caps' :
  Matches (RAlt r1 r2) pos a rest caps caps' ->
  Matches r1 pos a rest caps caps' \/ Matches r2 pos a rest caps caps'.
Proof. inversion 1; auto. Qed.

Lemma Matches_group_inv i r pos a rest caps caps' :
  Matches (RGroup i r) pos a rest caps caps' ->
  exists caps1, Matches r pos a rest caps caps1 /\ caps' = (i, a) :: caps1.
Proof. inversion 1; subst; eauto. Qed.

Lemma Matches_text_inv s r pos a rest caps caps' :
  Matches (RText s r) pos a rest caps caps' ->
  exists b, a = s ++ b /\ Matches r (pos + length s) b rest caps caps'.
Proof.
  revert pos a. induction s as [|c s IH]; intros pos a H; simpl in *.
  - exists a. now rewrite Nat.add_0_r.
  - apply Matches_seq_inv in H as (x & b & caps1 & -> & Hc & H).
    apply Matches_lit_inv in Hc as [-> ->].
    apply IH in H as (b' & -> & H). exists b'. split; [reflexivity|].
    replace (pos + S (length s)) with (pos + length [c] + length s)
      by (simpl; lia).
    exact H.
Qed.

Lemma Matches_text s r pos b rest caps caps' :
  Matches r (pos + length s) b rest caps caps' ->
  Matches (RText s r) pos (s ++ b) rest caps caps'.
Proof.
  revert pos. induction s as [|c s IH]; intros pos H; simpl in *.
  - now rewrite Nat.add_0_r in H.
  - change (c :: s ++ b) with ([c] ++ (s ++ b)).
    econstructor; [constructor|]. apply IH.
    replace (pos + length [c] + length s) with (pos + S (length s))
      by (simpl; lia).
    exact H.
Qed.

(** What the part of [filenameRe] after the comment marker matches. *)
Lemma fileNameBody_inv i pos a rest caps caps' :
  Matches (fileNameBody i) pos a rest caps caps' ->
  exists ws1 name ws2,
    a = ws1 ++ name ++ ws2 ++ [LF] /\
    allOf isWhiteSpace ws1 /\ fileNameShape name /\ allOf isWhiteSpace ws2 /\
    caps' = (i, name) :: caps.
Proof.
  unfold fileNameBody. intros H.
  apply Matches_seq_inv in H as (ws1 & x & c1 & -> & Hws1 & H).
  apply Matches_star_inv in Hws1 as [Hws1 ->].
  apply Matches_seq_inv in H as (name & y & c2 & -> & Hg & H).
  apply Matches_group_inv in Hg as (c3 & Hg & ->).
  apply Matches_seq_inv in Hg as (stem & z & c4 & -> & Hstem & Hg).
  apply Matches_plus_inv in Hstem as (Hne & Hstem & ->).
  apply Matches_seq_inv in Hg as (dot & ext & c5 & -> & Hdot & Hext).
  apply Matches_lit_inv in Hdot as [-> ->].
  apply Matches_plus_inv in Hext as (Hne' & Hext & ->).
  apply Matches_seq_inv in H as (ws2 & lf & c6 & -> & Hws2 & Hlf).
  apply Matches_star_inv in Hws2 as [Hws2 ->].
  apply Matches_lit_inv in Hlf as [-> ->].
  exists ws1, (stem ++ [46%N] ++ ext), ws2.
  repeat split; try assumption. now exists stem, ext.
Qed.

Lemma fileNameBody_matches i pos ws1 name ws2 rest caps :
  allOf isWhiteSpace ws1 -> fileNameShape name -> allOf isWhiteSpace ws2 ->
  Matches (fileNameBody i) pos (ws1 ++ name ++ ws2 ++ [LF]) rest caps
    ((i, name) :: caps).
Proof.
  intros Hws1 (stem & ext & -> & Hne & Hstem & Hne' & Hext) Hws2.
  unfold fileNameBody.
  econstructor; [now constructor|].
  econstructor.
  - constructor. econstructor; [now constructor|].
    econstructor; [constructor|now constructor].
  - econstructor; [now constructor|constructor].
Qed.

(** What [filenameRe] matches, and what it captures. *)
Lemma filenameRe_inv pos a rest caps' :
  Matches filenameRe pos a rest [] caps' ->
  pos = 0 /\
  exists marker i ws1 name ws2,
    a = marker ++ ws1 ++ name ++ ws2 ++ [LF] /\
    (marker = js "//" /\ i = 1 \/ marker = js "#" /\ i = 2) /\
    allOf isWhiteSpace ws1 /\ fileNameShape name /\ allOf isWhiteSpace ws2 /\
    caps' = [(i, name)].
Proof.
  unfold filenameRe. intros H.
  apply Matches_alt_inv in H as [H|H];
    apply Matches_seq_inv in H as (x & y & c1 & -> & Hbol & H);
    apply Matches_bol_inv in Hbol as (-> & -> & ->);
    apply Matches_text_inv in H as (b & -> & H);
    apply fileNameBody_inv in H
      as (ws1 & name & ws2 & -> & Hws1 & Hname & Hws2 & ->);
    (split; [reflexivity|]).
  - exists (js "//"), 1, ws1, name, ws2. repeat split; auto.
  - exists (js "#"), 2, ws1, name, ws2. repeat split; auto.
Qed.

Lemma searchFrom_sound r pos (rest : jsstring) m :
  searchFrom r pos rest = Some m ->
  exists pre suf,
    rest = pre ++ suf /\ matchAt r (pos + length pre) suf = Some m.
Proof.
  revert pos. induction rest as [|c rest IH]; intros pos H; simpl in H.
  - destruct (matchAt r pos []) eqn:Hm; [|discriminate]. simplify_eq.
    exists [], []. now rewrite Nat.add_0_r.
  - destruct (matchAt r pos (c :: rest)) eqn:Hm.
    + simplify_eq. exists [], (c :: rest). now rewrite Nat.add_0_r.
    + apply IH in H as (pre & suf & -> & H).
      exists (c :: pre), suf. simpl. now rewrite Nat.add_succ_r.
Qed.

Lemma searchFrom_first r pos (rest : jsstring) m :
  matchAt r pos rest = Some m -> searchFrom r pos rest = Some m.
Proof. intros H. destruct rest; cbn [searchFrom]; now rewrite H. Qed.

(** A match of [filenameRe] starts at the start of the code, on a comment
    header, and captures the file name in group 1 or 2. *)
Lemma matchAt_filenameRe_inv pos (code : jsstring) pos' rest' caps' :
  matchAt filenameRe pos code = Some (pos', rest', caps') ->
  pos = 0 /\
  exists marker i ws1 name ws2,
    code = marker ++ ws1 ++ name ++ ws2 ++ [LF] ++ rest' /\
    (marker = js "//" /\ i = 1 \/ marker = js "#" /\ i = 2) /\
    allOf isWhiteSpace ws1 /\ fileNameShape name /\ allOf isWhiteSpace ws2 /\
    caps' = [(i, name)].
Proof.
  unfold matchAt. intros H.
  apply matcher_sound in H as (a & rest & caps & -> & Hm & Hk).
  simplify_eq. apply filenameRe_inv in Hm as (-> & Hm).
  split; [reflexivity|].
  destruct Hm as (marker & i & ws1 & name & ws2 & -> & Hi & H1 & H2 & H3 & ->).
  exists marker, i, ws1, name, ws2.
  repeat split; auto. now rewrite <- !app_assoc.
Qed.

Lemma detectFilename_sound (code name : jsstring) :
  detectFilename code = Some name -> commentHeader code name.
Proof.
  unfold detectFilename, regexMatch. intros H.
  destruct (searchFrom filenameRe 0 code) as [[[pos' rest'] caps']|] eqn:Hs;
    [|discriminate].
  apply searchFrom_sound in Hs as (pre & suf & -> & Hm).
  apply matchAt_filenameRe_inv in Hm as (Hpos & Hm).
  destruct pre; [|discriminate Hpos]. simpl in *.
  destruct Hm as (marker & i & ws1 & n & ws2 & -> & Hi & H1 & H2 & H3 & ->).
  assert (n = name) as ->.
  { destruct Hi as [[_ ->]|[_ ->]]; simpl in H; now simplify_eq. }
  exists marker, ws1, ws2, rest'. repeat split; auto.
  destruct Hi as [[-> _]|[-> _]]; auto.
Qed.

Lemma detectFilename_complete (code name : jsstring) :
  commentHeader code name -> is_Some (detectFilename code).
Proof.
  intros (marker & ws1 & ws2 & rest & -> & Hmarker & Hws1 & Hname & Hws2).
  assert (Hm : exists i, Matches filenameRe 0
                 (marker ++ ws1 ++ name ++ ws2 ++ [LF]) rest [] [(i, name)]).
  { destruct Hmarker as [->| ->].
    - exists 1. apply MAltL.
      change (js "//" ++ ws1 ++ name ++ ws2 ++ [LF])
        with ([] ++ (js "//" ++ ws1 ++ name ++ ws2 ++ [LF])).
      econstructor; [constructor|]. apply Matches_text.
      now apply fileNameBody_matches.
    - exists 2. apply MAltR.
      change (js "#" ++ ws1 ++ name ++ ws2 ++ [LF])
        with ([] ++ (js "#" ++ ws1 ++ name ++ ws2 ++ [LF])).
      econstructor; [constructor|]. apply Matches_text.
      now apply fileNameBody_matches. }
  destruct Hm as [i Hm].
  assert (Hsome : is_Some (matchAt filenameRe 0
                    ((marker ++ ws1 ++ name ++ ws2 ++ [LF]) ++ rest))).
  { unfold matchAt. eapply matcher_complete; [exact Hm|]. eauto. }
  rewrite <- !app_assoc in Hsome.
  destruct Hsome as [[[pos' rest'] caps'] Hat].
  unfold detectFilename, regexMatch.
  assert (Hsearch : searchFrom filenameRe 0
            (marker ++ ws1 ++ name ++ ws2 ++ [LF] ++ rest)
          = Some (pos', rest', caps')).
  { now apply searchFrom_first. }
  rewrite Hsearch. simpl.
  apply matchAt_filenameRe_inv in Hat as (_ & Hinv).
  destruct Hinv as (m' & i' & w1 & n' & w2 & _ & Hi & _ & _ & _ & ->).
  destruct Hi as [[_ ->]|[_ ->]]; simpl; eauto.
Qed.

Lemma split_before_LF (a2 rest2 w rest0 : jsstring) :
  allOf isDot a2 -> a2 ++ rest2 = w ++ LF :: rest0 ->
  exists w2, w = a2 ++ w2 /\ rest2 = w2 ++ LF :: rest0.
Proof.
  intros Ha. revert w. induction Ha as [|y a2 Hy Ha IH]; intros w H.
  - exists w. auto.
  - destruct w as [|z w]; simpl in H; simplify_eq.
    destruct (IH w) as (w2 & -> & ->); [assumption|]. now exists w2.
Qed.

Lemma fileNameBody_greedy i pos (ws1 stem ext ws2 rest : jsstring) caps :
  allOf isWhiteSpace ws1 ->
  stem <> [] -> allOf (fun c => negb (isWhiteSpace c)) stem ->
  ext <> [] -> allOf isWord ext ->
  allOf isWhiteSpace ws2 ->
  exists pos' rest',
    matcher (fileNameBody i) pos
      (ws1 ++ (stem ++ [46%N] ++ ext) ++ ws2 ++ [LF] ++ rest) caps
      (fun a b c => Some (a, b, c))
    = Some (pos', rest', (i, stem ++ [46%N] ++ ext) :: caps).
Proof.
  intros Hws1 Hstem0 Hstem Hext0 Hext Hws2.
  set (name := stem ++ [46%N] ++ ext).
  set (caps1 := (i, name) :: caps).
  set (kLF := fun (pos' : nat) (rest' : list N) (caps' : captures) =>
                matcher (RLit LF) pos' rest' caps'
                  (fun a b c => Some (a, b, c))).
  assert (H3 : exists pos' rest',
             starM isWhiteSpace (pos + length ws1 + length name)
               (ws2 ++ [LF] ++ rest) caps1 kLF = Some (pos', rest', caps1)).
  { assert (Hsome : is_Some (starM isWhiteSpace (pos + length ws1 + length name)
                               (ws2 ++ [LF] ++ rest) caps1 kLF)).
    { apply starM_complete; [exact Hws2|]. simpl. eauto. }
    destruct Hsome as [[[pos' rest'] caps'] Hres].
    pose proof Hres as Hres'.
    apply starM_sound in Hres' as (a & r & _ & _ & Hk).
    unfold kLF in Hk. cbn [matcher] in Hk. destruct r as [|d r]; [discriminate|].
    destruct (LF =? d)%N; [|discriminate]. simplify_eq. eauto. }
  destruct H3 as (pos' & rest' & H3). exists pos', rest'.
  unfold fileNameBody. cbn [matcher].
  destruct stem as [|s0 stem]; [contradiction|].
  destruct ext as [|e0 ext]; [contradiction|].
  apply Forall_cons in Hstem as [Hs0 Hstem].
  apply Forall_cons in Hext as [He0 Hext].
  apply negb_true_iff in Hs0.
  assert (Htail : forall a2 rest2,
             a2 <> [] -> ws2 ++ [LF] ++ rest = a2 ++ rest2 ->
             allOf isWord a2 -> False).
  { intros [|x a2] rest2 Hne Heq Ha2; [contradiction|].
    apply Forall_cons in Ha2 as [Hx _].
    assert (Hsp : isWhiteSpace x = true).
    { destruct ws2 as [|y ws2]; simpl in Heq; simplify_eq;
        first [reflexivity|now apply Forall_cons in Hws2 as [Hy _]]. }
    apply space_not_word in Hsp. congruence. }
  apply (starM_greedy _ _ ws1 (name ++ ws2 ++ [LF] ++ rest)).
  { exact Hws1. }
  { intros [|x a2] rest2 Hne Heq Ha2; [contradiction|].
    apply Forall_cons in Ha2 as [Hx _].
    unfold name in Heq. simpl in Heq. simplify_eq. congruence. }
  unfold name at 1. cbn [app]. rewrite (not_space_isDot _ Hs0).
  rewrite <- app_assoc.
  apply (starM_greedy _ _ stem ([46%N] ++ (e0 :: ext) ++ ws2 ++ [LF] ++ rest)).
  { eapply Forall_impl; [exact Hstem|]. intros c Hc.
    apply not_space_isDot. now apply negb_true_iff. }
  { intros [|x a2] rest2 Hne Heq Ha2; [contradiction|].
    apply Forall_cons in Ha2 as [_ Ha2]. simpl in Heq. simplify_eq.
    assert (Hsplit : a2 ++ rest2 = ((e0 :: ext) ++ ws2) ++ LF :: rest).
    { rewrite <- app_assoc. simpl. now rewrite <- H0. }
    apply split_before_LF in Hsplit as (w2 & Hw & ->); [|exact Ha2].
    destruct w2 as [|d w2]; [reflexivity|]. cbn [app].
    assert (Hd : d <> 46%N).
    { assert (Hin : d ∈ (e0 :: ext) ++ ws2).
      { rewrite Hw. apply elem_of_app. right. left. }
      apply elem_of_app in Hin as [Hin|Hin].
      - apply word_not_dot_unit.
        apply (proj1 (Forall_forall _ _) (Forall_cons_2 _ _ _ He0 Hext) d Hin).
      - apply space_not_dot_unit.
        apply (proj1 (Forall_forall _ _) Hws2 d Hin). }
    destruct (N.eqb_spec 46 d) as [E|_]; [now symmetry in E|reflexivity]. }
  cbn [app]. rewrite N.eqb_refl, He0.
  apply (starM_greedy _ _ ext (ws2 ++ [LF] ++ rest)).
  { exact Hext. }
  { intros a2 rest2 Hne Heq Ha2. exfalso. eapply Htail; eassumption. }
  replace (S (S (S (pos + length ws1) + length stem)) + length ext
           - (pos + length ws1)) with (length name)
    by (unfold name; rewrite !length_app; simpl; lia).
  replace (S (S (S (pos + length ws1) + length stem)) + length ext)
    with (pos + length ws1 + length name)
    by (unfold name; rewrite !length_app; simpl; lia).
  change (s0 :: stem ++ [46%N] ++ (e0 :: ext) ++ ws2 ++ [LF] ++ rest)
    with (name ++ ws2 ++ [LF] ++ rest).
  rewrite take_app_length. exact H3.
Qed.

(** A comment header whose file name has no white space: the name is
    captured whole, with the marker and the white space around it
    stripped. *)
Lemma detectFilename_plain_name (marker ws1 stem ext ws2 rest : jsstring) :
  marker = js "//" \/ marker = js "#" ->
  allOf isWhiteSpace ws1 ->
  stem <> [] -> allOf (fun c => negb (isWhiteSpace c)) stem ->
  ext <> [] -> allOf isWord ext ->
  allOf isWhiteSpace ws2 ->
  detectFilename (marker ++ ws1 ++ (stem ++ [46%N] ++ ext) ++ ws2 ++ [LF] ++ rest)
    = Some (stem ++ [46%N] ++ ext).
Proof.
  intros Hmarker Hws1 Hstem0 Hstem Hext0 Hext Hws2.
  unfold detectFilename, regexMatch.
  destruct Hmarker as [->| ->].
  - destruct (fileNameBody_greedy 1 2 ws1 stem ext ws2 rest []
                Hws1 Hstem0 Hstem Hext0 Hext Hws2) as (pos' & rest' & Hm).
    rewrite (searchFrom_first _ _ _ (pos', rest', [(1, stem ++ [46%N] ++ ext)])).
    + reflexivity.
    + unfold matchAt, filenameRe. change (js "//") with [47%N; 47%N].
      cbn [matcher RText Nat.eqb app]. rewrite !N.eqb_refl.
      cbn [app] in Hm. now rewrite Hm.
  - destruct (fileNameBody_greedy 2 1 ws1 stem ext ws2 rest []
                Hws1 Hstem0 Hstem Hext0 Hext Hws2) as (pos' & rest' & Hm).
    rewrite (searchFrom_first _ _ _ (pos', rest', [(2, stem ++ [46%N] ++ ext)])).
    + reflexivity.
    + unfold matchAt, filenameRe.
      change (js "//") with [47%N; 47%N]. change (js "#") with [35%N].
      cbn [matcher RText Nat.eqb app].
      change (47 =? 35)%N with false. cbn iota. rewrite N.eqb_refl.
      cbn [app] in Hm. now rewrite Hm.
Qed.

Section CodeBlocks.
Variable lower : list N -> list N.

(** What the end tag of [pre] detects: the code section that it pushes
    has a [filename] exactly when the trimmed code starts with [//] or
    [#], white space, a name that ends in a dot and word characters, white
    space and a line feed; [filename] is then such a name.  The white space
    may hold line feeds, so the name need not lie on the first line, and a
    line feed has to follow the name within the trimmed code, so the
    comment cannot be the last line. *)
Lemma pre_close_detects_filename (st : state) (c : CodeAcc) :
  currentCode st = Some c ->
  exists sec : CodeSection,
    sections (handle lower st (OnEndTag SelPre)) = sections st ++ [SCode sec] /\
    c_code sec = trim (ca_code c) /\
    (is_Some (c_filename sec) <->
     exists name, commentHeader (c_code sec) name) /\
    (forall name, c_filename sec = Some name ->
       commentHeader (c_code sec) name) /\
    (forall marker ws1 stem ext ws2 rest,
       c_code sec
         = marker ++ ws1 ++ (stem ++ [46%N] ++ ext) ++ ws2 ++ [LF] ++ rest ->
       marker = js "//" \/ marker = js "#" ->
       allOf isWhiteSpace ws1 ->
       stem <> [] -> allOf (fun u => negb (isWhiteSpace u)) stem ->
       ext <> [] -> allOf isWord ext ->
       allOf isWhiteSpace ws2 ->
       c_filename sec = Some (stem ++ [46%N] ++ ext)) /\
    (forall rest, c_code sec = js "// app.ts" ++ [LF] ++ rest ->
       c_filename sec = Some (js "app.ts")) /\
    (forall rest, c_code sec = js "# setup.sh" ++ [LF] ++ rest ->
       c_filename sec = Some (js "setup.sh")) /\
    (c_code sec = js "// app.ts" -> c_filename sec = None).
Proof.
  intros Hc. simpl. rewrite Hc. simpl. eexists. split; [reflexivity|].
  simpl. set (code := trim (ca_code c)).
  split; [reflexivity|]. split; [|split; [|split; [|split; [|split]]]].
  - split.
    + intros [name Hname]. exists name. now apply detectFilename_sound.
    + intros [name Hname]. now apply detectFilename_complete in Hname.
  - intros name. apply detectFilename_sound.
  - intros marker ws1 stem ext ws2 rest -> Hm H1 H2 H3 H4 H5 H6.
    now apply detectFilename_plain_name.
  - intros rest ->.
    apply (detectFilename_plain_name (js "//") [32%N] (js "app") (js "ts")
             [] rest); try discriminate; auto; repeat constructor.
  - intros rest ->.
    apply (detectFilename_plain_name (js "#") [32%N] (js "setup") (js "sh")
             [] rest); try discriminate; auto; repeat constructor.
  - intros ->. reflexivity.
Qed.
End CodeBlocks.

(** C5 (at the failing inputs): the file name is not read from the
    comment on the first line.  A block whose only line is "// app.ts"
    gets no file name, as the trimmed code has no line feed after the
    comment; and in a block whose first line is "//" alone the file name
    is read from the second line. *)
Theorem first_line_comment_not_detected :
  (exists sec : CodeSection,
     sections (run asciiToLowerCase
                 (codeBlock "language-ts" (js "// app.ts" ++ [LF])) initial)
       = [SCode sec] /\
     c_code sec = js "// app.ts" /\
     firstLine (c_code sec) = js "// app.ts" /\
     c_filename sec = None) /\
  (exists sec : CodeSection,
     sections (run asciiToLowerCase
                 (codeBlock "language-ts"
                    (js "//" ++ [LF] ++ js "app.ts" ++ [LF]
                       ++ js "const x = 1;" ++ [LF])) initial)
       = [SCode sec] /\
     c_code sec = js "//" ++ [LF] ++ js "app.ts" ++ [LF] ++ js "const x = 1;" /\
     firstLine (c_code sec) = js "//" /\
     c_filename sec = Some (js "app.ts")).
Proof.
  split; eexists; (split; [vm_compute; reflexivity|]);
    repeat split; vm_compute; reflexivity.
Qed.

(** ** Every section of a document *)

Section Emitted.
Variable lower : list N -> list N.

Lemma push_emitted mk st :
  (forall i, emitted (mk i)) ->
  Forall emitted (sections st) -> Forall emitted (sections (push mk st)).
Proof.
  intros Hmk Hst. simpl. apply Forall_app. split; [exact Hst|].
  constructor; [apply Hmk|constructor].
Qed.

Lemma handle_emitted st e :
  Forall emitted (sections st) -> Forall emitted (sections (handle lower st e)).
Proof.
  intros Hst.
  destruct e as [sel e|sel c|sel]; destruct sel;
    cbv beta iota zeta delta [handle onElement onText onEndTag];
    repeat match goal with
    | |- context [match ?x with _ => _ end] => destruct x
    end;
    try exact Hst;
    match goal with
    | |- Forall emitted (sections (_ _ (push ?mk ?s))) =>
        change (Forall emitted (sections (push mk s)))
    | |- Forall emitted (sections (push ?mk ?s)) => idtac
    end;
    apply push_emitted; try exact Hst; intros i; simpl; eauto.
Qed.

(** Whatever the event stream, each code section of the document carries
    the file name detected in its trimmed code, and each table section the
    mappings built from its headers. *)
Lemma sections_emitted (evs : list event) (src : jsstring) :
  Forall emitted (doc_sections (parseEvents lower evs src)).
Proof.
  simpl.
  apply (run_invariant lower (fun st => Forall emitted (sections st)));
    [exact handle_emitted|constructor].
Qed.
End Emitted.

(** ** The shape of slugs *)

Lemma dropWhile_head p (s : jsstring) c :
  head (dropWhile p s) = Some c -> p c = false.
Proof.
  induction s as [|d s IH]; simpl; [discriminate|].
  destruct (p d) eqn:Hd; [exact IH|]. simpl. intros [= <-]. exact Hd.
Qed.

Lemma hyphen_not_alnum : isLowerAlnum HYPHEN = false.
Proof. reflexivity. Qed.

(** One hyphen per run: the hyphenated text has no two hyphens in a row,
    and what follows a hyphen is in [[a-z0-9]]. *)
Lemma hyphenateRuns_shape n (s : jsstring) :
  length s <= n ->
  noDoubleHyphen (hyphenateRuns s) /\
  (forall c, head s = Some c -> isLowerAlnum c = true ->
     head (hyphenateRuns s) = Some c) /\
  (s = [] -> hyphenateRuns s = []).
Proof.
  revert s. induction n as [|n IH]; intros s Hlen.
  - destruct s; [|simpl in Hlen; lia]. repeat split; intros; discriminate.
  - destruct s as [|d t]; [repeat split; intros; discriminate|].
    simpl in Hlen. destruct (isLowerAlnum d) eqn:Hd.
    + rewrite hyphenateRuns_alnum by exact Hd.
      destruct (IH t ltac:(lia)) as (Hnd & _ & _). split; [|split].
      * simpl. destruct (hyphenateRuns t) as [|e u] eqn:Ht; [exact I|].
        split; [|exact Hnd]. intros [-> _]. discriminate Hd.
      * intros c [= <-] _. reflexivity.
      * discriminate.
    + rewrite hyphenateRuns_other by exact Hd.
      pose proof (dropWhile_length notLowerAlnum t) as Hdl.
      destruct (IH (dropWhile notLowerAlnum t) ltac:(lia)) as (Hnd & Hhead & _).
      split; [|split].
      * simpl. destruct (hyphenateRuns (dropWhile notLowerAlnum t))
          as [|e u] eqn:Ht; [exact I|].
        split; [|exact Hnd]. intros [_ ->].
        destruct (dropWhile notLowerAlnum t) as [|f v] eqn:Hdw.
        -- discriminate Ht.
        -- assert (Hf : isLowerAlnum f = true).
           { pose proof (dropWhile_head notLowerAlnum t f) as Hh.
             rewrite Hdw in Hh. specialize (Hh eq_refl).
             unfold notLowerAlnum in Hh. now apply negb_false_iff in Hh. }
           specialize (Hhead f eq_refl Hf).
           simpl in Hhead. simplify_eq.
      * intros c [= <-] Hc. congruence.
      * discriminate.
Qed.

Lemma noDoubleHyphen_tail c (s : jsstring) :
  noDoubleHyphen (c :: s) -> noDoubleHyphen s.
Proof. destruct s; simpl; tauto. Qed.

Lemma stripLeadingHyphen_shape (s : jsstring) :
  noDoubleHyphen s ->
  noDoubleHyphen (stripLeadingHyphen s) /\
  head (stripLeadingHyphen s) <> Some HYPHEN.
Proof.
  intros Hnd. destruct s as [|c t]; [split; [exact I|discriminate]|].
  simpl. destruct (N.eqb_spec c HYPHEN) as [->|Hc].
  - split; [now apply noDoubleHyphen_tail in Hnd|].
    destruct t as [|d u]; [discriminate|]. simpl in *.
    intros [= ->]. now apply (proj1 Hnd).
  - split; [exact Hnd|]. simpl. congruence.
Qed.

Lemma dropLastHyphen_shape (s : jsstring) :
  noDoubleHyphen s ->
  noDoubleHyphen (dropLastHyphen s) /\
  last (dropLastHyphen s) <> Some HYPHEN /\
  (head s <> Some HYPHEN -> head (dropLastHyphen s) <> Some HYPHEN).
Proof.
  induction s as [|c t IH]; intros Hnd; [repeat split; discriminate|].
  cbn [dropLastHyphen]. destruct t as [|d u].
  - destruct (N.eqb_spec c HYPHEN) as [->|Hc]; simpl.
    + repeat split; discriminate.
    + repeat split; congruence.
  - destruct (IH (noDoubleHyphen_tail _ _ Hnd)) as (Hnd' & Hlast & Hhead).
    split; [|split].
    + destruct (dropLastHyphen (d :: u)) as [|e v] eqn:Hdl; [exact I|].
      split; [|exact Hnd'].
      intros [-> ->]. apply Hhead; [|reflexivity].
      simpl. intros [= ->]. now apply (proj1 Hnd).
    + destruct (dropLastHyphen (d :: u)) as [|e v] eqn:Hdl.
      * simpl. intros [= ->].
        (* [c] is a hyphen and the tail was a single hyphen *)
        destruct u as [|f w]; simpl in Hdl.
        -- destruct (N.eqb_spec d HYPHEN) as [Hd|Hd]; [|discriminate].
           apply (proj1 Hnd). now split.
        -- discriminate.
      * exact Hlast.
    + simpl. congruence.
Qed.

Lemma slugify_unfold lower (text : jsstring) :
  slugify lower text
  = dropLastHyphen (stripLeadingHyphen (hyphenateRuns (lower text))).
Proof. unfold slugify. now rewrite replaceAll_nonAlnum, replaceAll_edge. Qed.

Lemma slugify_units_and_hyphens (lower : list N -> list N) (text : jsstring) :
  Forall slugUnit (slugify lower text) /\
  head (slugify lower text) <> Some HYPHEN /\
  last (slugify lower text) <> Some HYPHEN /\
  noDoubleHyphen (slugify lower text).
Proof.
  split.
  - rewrite slugify_slugSpec. apply slugSpec_units.
  - rewrite slugify_unfold.
    destruct (hyphenateRuns_shape _ (lower text) (le_n _)) as (Hnd & _ & _).
    destruct (stripLeadingHyphen_shape _ Hnd) as (Hnd' & Hhead).
    destruct (dropLastHyphen_shape _ Hnd') as (Hnd'' & Hlast & Hhead').
    auto.
Qed.

(** X1: a slug consists of [[a-z0-9]] and hyphens, neither starts nor ends
    with a hyphen and has no two hyphens in a row. *)
Theorem slugify_shape (lower : list N -> list N) (text : jsstring) :
  Forall slugUnit (slugify lower text) /\
  head (slugify lower text) <> Some HYPHEN /\
  last (slugify lower text) <> Some HYPHEN /\
  noDoubleHyphen (slugify lower text).
Proof. apply slugify_units_and_hyphens. Qed.

Lemma elem_of_dropWhile p (s : jsstring) c :
  c ∈ s -> p c = false -> c ∈ dropWhile p s.
Proof.
  induction s as [|d s IH]; intros Hin Hc; [exact Hin|]. simpl.
  destruct (p d) eqn:Hd; [|exact Hin].
  apply elem_of_cons in Hin as [<-|Hin]; [congruence|now apply IH].
Qed.

Lemma elem_of_hyphenateRuns n (s : jsstring) c :
  length s <= n -> c ∈ s -> isLowerAlnum c = true -> c ∈ hyphenateRuns s.
Proof.
  revert s. induction n as [|n IH]; intros s Hlen Hin Hc.
  - destruct s; [inversion Hin|simpl in Hlen; lia].
  - destruct s as [|d t]; [inversion Hin|]. simpl in Hlen.
    destruct (isLowerAlnum d) eqn:Hd.
    + rewrite hyphenateRuns_alnum by exact Hd.
      apply elem_of_cons in Hin as [<-|Hin]; [left|right].
      apply IH; [lia|exact Hin|exact Hc].
    + rewrite hyphenateRuns_other by exact Hd. right.
      apply elem_of_cons in Hin as [<-|Hin]; [congruence|].
      pose proof (dropWhile_length notLowerAlnum t).
      apply IH; [lia| |exact Hc].
      apply elem_of_dropWhile; [exact Hin|].
      unfold notLowerAlnum. now rewrite Hc.
Qed.

Lemma elem_of_stripLeadingHyphen (s : jsstring) c :
  c ∈ s -> c <> HYPHEN -> c ∈ stripLeadingHyphen s.
Proof.
  destruct s as [|d t]; intros Hin Hc; [exact Hin|].
  cbn [stripLeadingHyphen].
  destruct (N.eqb_spec d HYPHEN) as [Hd|_]; [|exact Hin].
  apply elem_of_cons in Hin as [Heq|Hin]; [congruence|exact Hin].
Qed.

Lemma elem_of_dropLastHyphen (s : jsstring) c :
  c ∈ s -> c <> HYPHEN -> c ∈ dropLastHyphen s.
Proof.
  induction s as [|d t IH]; intros Hin Hc; [exact Hin|].
  cbn [dropLastHyphen]. destruct t as [|e u].
  - apply elem_of_cons in Hin as [<-|Hin]; [|inversion Hin].
    destruct (N.eqb_spec c HYPHEN); [contradiction|left].
  - apply elem_of_cons in Hin as [<-|Hin]; [left|right; now apply IH].
Qed.

Lemma hyphenateRuns_no_alnum (s : jsstring) :
  Forall (fun c => isLowerAlnum c = false) s ->
  hyphenateRuns s = [] \/ hyphenateRuns s = [HYPHEN].
Proof.
  intros Hs. destruct s as [|d t]; [now left|right].
  apply Forall_cons in Hs as [Hd Ht].
  rewrite hyphenateRuns_other by exact Hd.
  replace (dropWhile notLowerAlnum t) with (@nil N); [reflexivity|].
  induction Ht as [|e t He Ht IH]; [reflexivity|]. simpl.
  unfold notLowerAlnum at 1. now rewrite He.
Qed.

(** X3: the slug is empty exactly when the lower-cased text has no
    character in [[a-z0-9]]. *)
Theorem slugify_empty_iff (lower : list N -> list N) (text : jsstring) :
  slugify lower text = [] <->
  Forall (fun c => isLowerAlnum c = false) (lower text).
Proof.
  rewrite slugify_unfold. split.
  - intros Hempty. apply Forall_forall. intros c Hin.
    destruct (isLowerAlnum c) eqn:Hc; [|reflexivity]. exfalso.
    assert (Hne : c <> HYPHEN) by (intros ->; discriminate Hc).
    apply (elem_of_hyphenateRuns _ _ _ (le_n _)) in Hin; [|exact Hc].
    apply (elem_of_stripLeadingHyphen _ _) in Hin; [|exact Hne].
    apply (elem_of_dropLastHyphen _ _) in Hin; [|exact Hne].
    rewrite Hempty in Hin. inversion Hin.
  - intros Hall. destruct (hyphenateRuns_no_alnum _ Hall) as [-> | ->];
      reflexivity.
Qed.

Lemma stripLeadingHyphen_fixed (s : jsstring) :
  head s <> Some HYPHEN -> stripLeadingHyphen s = s.
Proof.
  destruct s as [|c t]; [reflexivity|]. simpl. intros Hc.
  destruct (N.eqb_spec c HYPHEN) as [->|_]; [contradiction|reflexivity].
Qed.

Lemma dropLastHyphen_fixed (s : jsstring) :
  last s <> Some HYPHEN -> dropLastHyphen s = s.
Proof.
  destruct s as [|c s _] using rev_ind; [reflexivity|].
  rewrite last_snoc, dropLastHyphen_snoc. intros Hc.
  destruct (N.eqb_spec c HYPHEN) as [->|_]; [contradiction|reflexivity].
Qed.

Lemma hyphenateRuns_fixed (s : jsstring) :
  Forall slugUnit s -> noDoubleHyphen s -> last s <> Some HYPHEN ->
  hyphenateRuns s = s.
Proof.
  induction s as [|d t IH]; intros Hu Hnd Hlast; [reflexivity|].
  apply Forall_cons in Hu as [Hd Hu].
  assert (Ht : hyphenateRuns t = t).
  { apply IH; [exact Hu|now apply noDoubleHyphen_tail in Hnd|].
    destruct t; [discriminate|exact Hlast]. }
  destruct Hd as [Hd| ->].
  - rewrite hyphenateRuns_alnum by exact Hd. now rewrite Ht.
  - rewrite hyphenateRuns_other by reflexivity.
    destruct t as [|e u]; [now contradict Hlast|].
    apply Forall_cons in Hu as [He _]. simpl in Hnd.
    destruct He as [He| ->]; [|exfalso; now apply (proj1 Hnd)].
    simpl. unfold notLowerAlnum at 1. rewrite He. simpl. now rewrite Ht.
Qed.

(** X2: where [toLowerCase] leaves strings of [[a-z0-9-]] alone, the slug
    of a slug is the slug itself. *)
Theorem slugify_idempotent (lower : list N -> list N) (text : jsstring) :
  (forall s : jsstring, Forall slugUnit s -> lower s = s) ->
  slugify lower (slugify lower text) = slugify lower text.
Proof.
  intros Hlower.
  destruct (slugify_units_and_hyphens lower text)
    as (Hu & Hhead & Hlast & Hnd).
  rewrite (slugify_unfold lower (slugify lower text)), (Hlower _ Hu).
  rewrite hyphenateRuns_fixed by assumption.
  rewrite stripLeadingHyphen_fixed by assumption.
  now apply dropLastHyphen_fixed.
Qed.

Lemma asciiToLowerCase_slug (s : jsstring) :
  Forall slugUnit s -> asciiToLowerCase s = s.
Proof.
  intros Hs. induction Hs as [|c s Hc Hs IH]; [reflexivity|].
  unfold asciiToLowerCase in *. simpl. rewrite IH. f_equal.
  unfold lowerUnit. destruct (isUpper c) eqn:Hup; [|reflexivity]. exfalso.
  destruct Hc as [Hc| ->]; [|discriminate Hup].
  unfold isLowerAlnum, isLower, isDigit, isUpper, inRange in *.
  repeat rewrite ?orb_true_iff, ?andb_true_iff, ?N.leb_le in *. lia.
Qed.

(** "Hello World!" and its slug under the ASCII lower-casing. *)
Lemma slugify_idempotent_witness :
  slugify asciiToLowerCase (slugify asciiToLowerCase (js "Hello World!"))
  = slugify asciiToLowerCase (js "Hello World!").
Proof.
  exact (slugify_idempotent asciiToLowerCase (js "Hello World!")
           asciiToLowerCase_slug).
Defined.

(** ** One element from open to close *)

Section Lifecycle.
Variable lower : list N -> list N.

Lemma run_cons e evs st :
  run lower (e :: evs) st = run lower evs (handle lower st e).
Proof. reflexivity. Qed.

(** The text chunks of a heading are appended to the open heading. *)
Lemma run_heading_text chunks st level acc :
  run lower (textEvents SelHeading chunks)
    (setHeading (Some {| ha_level := level; ha_text := acc |}) st)
  = setHeading
      (Some {| ha_level := level; ha_text := acc ++ chunksText chunks |}) st.
Proof.
  revert acc. induction chunks as [|c chunks IH]; intros acc.
  - unfold chunksText. simpl. now rewrite app_nil_r.
  - unfold textEvents. simpl map. rewrite run_cons.
    change (handle lower
              (setHeading (Some {| ha_level := level; ha_text := acc |}) st)
              (OnText SelHeading c))
      with (setHeading
              (Some {| ha_level := level; ha_text := acc ++ chunk_text c |}) st).
    fold (textEvents SelHeading chunks). rewrite IH.
    unfold chunksText. simpl. now rewrite app_assoc.
Qed.

(** X4: a heading element, its text chunks and its end tag push one
    heading section: the level is the digit of the tag name, the text is
    the trimmed concatenation of the chunks (empty without chunks), [raw]
    is that many hashes, a space and the text.  Nothing else of the state
    changes, and the heading is closed. *)
Theorem heading_lifecycle (h : Element) (chunks : list TextChunk) (st : state) :
  run lower (headingEvents h chunks) st
  = setHeading None
      (push (fun i => SHeading
         {| h_idx := i; h_level := headingLevel h;
            h_text := trim (chunksText chunks);
            h_slug := slugify lower (trim (chunksText chunks));
            h_raw := hashes (headingLevel h) ++ js " "
                       ++ trim (chunksText chunks) |}) st)
  /\ (forall c d rest, tagName h = c :: d :: rest -> isDigit d = true ->
        headingLevel h = Some (d - 48)%N /\
        hashes (headingLevel h) = repeatStr (js "#") (N.to_nat (d - 48))).
Proof.
  split.
  - unfold headingEvents. rewrite run_cons.
    change (handle lower st (OnElement SelHeading h))
      with (setHeading
              (Some {| ha_level := headingLevel h; ha_text := [] |}) st).
    rewrite run_app, run_heading_text. reflexivity.
  - intros c d rest Htag Hd. unfold headingLevel. rewrite Htag. simpl.
    unfold parseIntUnit. rewrite Hd. split; reflexivity.
Qed.

Lemma run_code_text chunks st lang acc :
  run lower (textEvents SelPreCode chunks)
    (setCode (Some {| ca_lang := lang; ca_code := acc |}) st)
  = setCode (Some {| ca_lang := lang; ca_code := acc ++ chunksText chunks |}) st.
Proof.
  revert acc. induction chunks as [|c chunks IH]; intros acc.
  - unfold chunksText. simpl. now rewrite app_nil_r.
  - unfold textEvents. simpl map. rewrite run_cons.
    change (handle lower
              (setCode (Some {| ca_lang := lang; ca_code := acc |}) st)
              (OnText SelPreCode c))
      with (setCode
              (Some {| ca_lang := lang; ca_code := acc ++ chunk_text c |}) st).
    fold (textEvents SelPreCode chunks). rewrite IH.
    unfold chunksText. simpl. now rewrite app_assoc.
Qed.

(** X5: a [pre] element with a [code] child, the text chunks of the code
    and the end tag of the [pre] push one code section: the language is
    read from the class of the [code] element, the code is the trimmed
    concatenation of the chunks, the file name is detected in it, and
    [raw] is the fenced block.  Nothing else of the state changes. *)
Theorem code_lifecycle (pre cd : Element) (chunks : list TextChunk)
    (st : state) :
  let lang := detectLang (default [] (classAttr cd)) in
  let code := trim (chunksText chunks) in
  run lower (codeEvents pre cd chunks) st
  = setCode None
      (push (fun i => SCode
         {| c_idx := i; c_lang := lang; c_code := code;
            c_filename := detectFilename code;
            c_raw := js "```" ++ lang ++ [LF] ++ code ++ [LF] ++ js "```" |})
         st).
Proof.
  cbv zeta. unfold codeEvents. rewrite !run_cons.
  change (handle lower (handle lower st (OnElement SelPre pre))
            (OnElement SelPreCode cd))
    with (setCode (Some {| ca_lang := detectLang (default [] (classAttr cd));
                           ca_code := [] |}) st).
  rewrite run_app, run_code_text. reflexivity.
Qed.
(** *** Lists *)

Lemma run_item_text chunks st acc :
  run lower (textEvents SelLi chunks) (setListItem acc st)
  = setListItem (acc ++ chunksText chunks) st.
Proof.
  revert acc. induction chunks as [|c chunks IH]; intros acc.
  - unfold chunksText. simpl. now rewrite app_nil_r.
  - unfold textEvents. simpl map. rewrite run_cons.
    change (handle lower (setListItem acc st) (OnText SelLi c))
      with (setListItem (acc ++ chunk_text c) st).
    fold (textEvents SelLi chunks). rewrite IH.
    unfold chunksText. simpl. now rewrite app_assoc.
Qed.

(** One item of an open list: its trimmed text is appended to the items. *)
Lemma run_item chunks st ordered items t :
  run lower (itemEvents chunks)
    (setList (Some {| la_ordered := ordered; la_items := items |})
       (setListItem t st))
  = setList (Some {| la_ordered := ordered;
                     la_items := items ++ [trim (chunksText chunks)] |})
      (setListItem (chunksText chunks) st).
Proof.
  unfold itemEvents. rewrite run_cons.
  change (handle lower
            (setList (Some {| la_ordered := ordered; la_items := items |})
               (setListItem t st)) (OnElement SelLi (el "li" None)))
    with (setListItem []
            (setList (Some {| la_ordered := ordered; la_items := items |}) st)).
  rewrite run_app, run_item_text. reflexivity.
Qed.

Lemma run_items itemss st ordered items t :
  itemss <> [] ->
  run lower (concat (map itemEvents itemss))
    (setList (Some {| la_ordered := ordered; la_items := items |})
       (setListItem t st))
  = setList
      (Some {| la_ordered := ordered;
               la_items := items ++ map (fun cs => trim (chunksText cs)) itemss |})
      (setListItem (default [] (chunksText <$> last itemss)) st).
Proof.
  revert items t. induction itemss as [|cs itemss IH]; intros items t Hne;
    [contradiction|].
  change (concat (map itemEvents (cs :: itemss)))
    with (itemEvents cs ++ concat (map itemEvents itemss)).
  rewrite run_app, run_item.
  destruct itemss as [|cs' itemss'].
  - reflexivity.
  - rewrite IH by discriminate. rewrite <- app_assoc. reflexivity.
Qed.

(** X7: a list element, its items and its end tag push one list section
    when there is at least one item: the items are the trimmed texts of the
    [li] elements in order, [ordered] says whether the tag is [ol], and
    the list is closed.  Without items nothing is pushed and the list
    stays open. *)
Theorem list_lifecycle (l : Element) (itemss : list (list TextChunk))
    (st : state) :
  let ordered := strictEq (tagName l) (js "ol") in
  let items := map (fun cs => trim (chunksText cs)) itemss in
  (itemss <> [] ->
   sections (run lower (listEvents l itemss) st)
     = sections st ++
       [SList {| l_idx := idx st; l_ordered := ordered; l_items := items;
                 l_raw := join [LF] (listLines ordered 0 items) |}] /\
   currentList (run lower (listEvents l itemss) st) = None) /\
  run lower (listEvents l []) st
    = setList (Some {| la_ordered := ordered; la_items := [] |}) st.
Proof.
  cbv zeta. split; [|reflexivity].
  intros Hne. unfold listEvents. rewrite run_cons.
  change (handle lower st (OnElement SelList l))
    with (setList (Some {| la_ordered := strictEq (tagName l) (js "ol");
                           la_items := [] |})
            (setListItem (currentListItem st) st)).
  rewrite run_app, run_items by exact Hne.
  destruct itemss as [|cs itemss]; [contradiction|].
  split; reflexivity.
Qed.

(** *** Table cells *)

Lemma arraySet_at_length (row : list jsstring) slot v :
  arraySet (row ++ slot) (length row) v = row ++ v :: drop 1 slot.
Proof.
  induction row as [|x row IH]; simpl.
  - destruct slot; reflexivity.
  - now rewrite IH.
Qed.

Lemma run_cell_parts parts st row o :
  run lower (textEvents SelCell (map (fun p => chunk p false) parts))
    (setRow (row ++ slotList o) (length row) st)
  = setRow (row ++ slotList (match parts with
                             | [] => o
                             | _ :: _ => Some (default [] o ++ concat parts)
                             end)) (length row) st.
Proof.
  revert o. induction parts as [|p parts IH]; intros o; [reflexivity|].
  unfold textEvents. simpl map. rewrite run_cons.
  assert (Hstep : handle lower (setRow (row ++ slotList o) (length row) st)
                    (OnText SelCell (chunk p false))
                  = setRow (row ++ slotList (Some (default [] o ++ p)))
                      (length row) st).
  { simpl. rewrite arraySet_at_length.
    rewrite lookup_app_r, Nat.sub_diag by lia.
    destruct o; reflexivity. }
  rewrite Hstep. fold (textEvents SelCell (map (fun p => chunk p false) parts)).
  rewrite IH. destruct parts as [|q parts]; simpl.
  - now rewrite app_nil_r.
  - now rewrite <- !app_assoc.
Qed.

(** One cell: its chunks are concatenated into one new entry of the row
    buffer, and the cell position moves on by one. *)
Lemma run_cell c st row :
  run lower (cellEvents c) (setRow row (length row) st)
  = setRow (row ++ [cellValue c]) (length (row ++ [cellValue c])) st.
Proof.
  destruct c as [parts final]. unfold cellEvents, cellChunks, textEvents.
  simpl fst. simpl snd. rewrite map_app, run_app.
  fold (textEvents SelCell (map (fun p => chunk p false) parts)).
  pose proof (run_cell_parts parts st row None) as Hparts.
  simpl slotList in Hparts. rewrite app_nil_r in Hparts. rewrite Hparts.
  simpl map. rewrite run_cons. simpl run.
  rewrite arraySet_at_length, lookup_app_r, Nat.sub_diag by lia.
  rewrite length_app. simpl. rewrite Nat.add_1_r. unfold cellValue. simpl.
  destruct parts; simpl; [reflexivity|].
  now rewrite <- app_assoc.
Qed.

Lemma run_cells cells st row :
  run lower (concat (map cellEvents cells)) (setRow row (length row) st)
  = setRow (row ++ map cellValue cells)
      (length (row ++ map cellValue cells)) st.
Proof.
  revert row. induction cells as [|c cells IH]; intros row.
  - simpl. now rewrite app_nil_r.
  - change (concat (map cellEvents (c :: cells)))
      with (cellEvents c ++ concat (map cellEvents cells)).
    rewrite run_app, run_cell, IH. simpl.
    now rewrite <- app_assoc.
Qed.

Lemma run_row_start (cells : list (list jsstring * jsstring))
    (tr : Element) (st : state) :
  run lower (OnElement SelTr tr :: concat (map cellEvents cells)) st
  = setRow (map cellValue cells) (length cells) st.
Proof.
  rewrite run_cons.
  change (handle lower st (OnElement SelTr tr)) with (setRow [] (length (@nil (list N))) st).
  rewrite run_cells. simpl. now rewrite length_map.
Qed.

Lemma concat_cellNodesEvents (cells : list (list (list jsstring * jsstring))) :
  concat (map cellNodesEvents cells) = concat (map cellEvents (concat cells)).
Proof.
  induction cells as [|nodes cells IH]; [reflexivity|].
  change (concat (map cellNodesEvents (nodes :: cells)))
    with (concat (map cellEvents nodes) ++ concat (map cellNodesEvents cells)).
  change (concat (nodes :: cells)) with (nodes ++ concat cells).
  now rewrite IH, map_app, concat_app.
Qed.

(** X10: after the start of a [tr], the text chunks within its cells fill
    the row buffer with one entry per text node, the concatenation of the
    chunks of that node, however the node is cut into chunks; the cell
    position is the number of text nodes.  So a cell without text leaves
    no entry, as if the cell were not there, and a cell with several text
    nodes leaves several; the row has one entry per cell when every cell
    holds exactly one text node. *)
Theorem row_text_nodes_accumulate
    (cells : list (list (list jsstring * jsstring))) (tr : Element)
    (st : state) :
  run lower (OnElement SelTr tr :: concat (map cellNodesEvents cells)) st
    = setRow (map cellValue (concat cells)) (length (concat cells)) st /\
  (forall pre post,
     cells = pre ++ [] :: post ->
     run lower (OnElement SelTr tr :: concat (map cellNodesEvents cells)) st
       = run lower
           (OnElement SelTr tr :: concat (map cellNodesEvents (pre ++ post)))
           st) /\
  (Forall (fun nodes => length nodes = 1) cells ->
   length (currentRow
             (run lower
                (OnElement SelTr tr :: concat (map cellNodesEvents cells)) st))
     = length cells /\
   cellIndex (run lower
                (OnElement SelTr tr :: concat (map cellNodesEvents cells)) st)
     = length cells).
Proof.
  assert (Hrun : forall cs,
            run lower (OnElement SelTr tr :: concat (map cellNodesEvents cs)) st
            = setRow (map cellValue (concat cs)) (length (concat cs)) st).
  { intros cs. rewrite concat_cellNodesEvents. apply run_row_start. }
  split; [apply Hrun|]. split.
  - intros pre post ->. rewrite !Hrun.
    rewrite !concat_app. reflexivity.
  - intros Hone. rewrite Hrun. simpl. rewrite length_map.
    assert (Hlen : length (concat cells) = length cells).
    { induction Hone as [|nodes cells Hn Hone IH]; [reflexivity|].
      simpl. rewrite length_app, Hn, IH. reflexivity. }
    now rewrite Hlen.
Qed.


(** *** Tables *)







End Lifecycle.

(** The row "1", empty, "3": two entries, and the position is 2. *)
Lemma row_text_nodes_accumulate_witness :
  run asciiToLowerCase
    (OnElement SelTr (el "tr" None) :: concat (map cellNodesEvents sparseRow))
    initial
  = setRow [js "1"; js "3"] 2 initial.
Proof.
  exact (proj1 (row_text_nodes_accumulate asciiToLowerCase sparseRow
                  (el "tr" None) initial)).
Defined.

(** ** Trimmed text *)

Lemma last_rev (s : jsstring) : last (rev s) = head s.
Proof. destruct s as [|c s]; [reflexivity|]. simpl. apply last_snoc. Qed.

Lemma dropWhile_suffix p (s : jsstring) :
  exists k, s = k ++ dropWhile p s /\ allOf p k.
Proof.
  induction s as [|c s (k & Hk & Hp)]; simpl.
  - exists []. split; [reflexivity|constructor].
  - destruct (p c) eqn:Hc.
    + exists (c :: k). simpl. split; [now rewrite <- Hk|now constructor].
    + exists []. split; [reflexivity|constructor].
Qed.

Lemma trimEnd_prefix (s : jsstring) :
  exists k, s = trimEnd s ++ k /\ allOf isWhiteSpace k.
Proof.
  unfold trimEnd.
  destruct (dropWhile_suffix isWhiteSpace (rev s)) as (k & Hk & Hp).
  exists (rev k). split.
  - rewrite <- rev_app_distr, <- Hk. now rewrite rev_involutive.
  - apply Forall_forall. intros c Hc.
    apply (proj1 (Forall_forall _ _) Hp). apply list_elem_of_In.
    apply in_rev. now apply list_elem_of_In.
Qed.

(** [trim] leaves no white space at either end. *)
Lemma trim_trimmed (s : jsstring) : trimmed (trim s).
Proof.
  unfold trim. split.
  - intros c Hc.
    destruct (trimEnd_prefix (trimStart s)) as (k & Hk & _).
    apply (dropWhile_head isWhiteSpace s). fold (trimStart s).
    rewrite Hk. destruct (trimEnd (trimStart s)); [discriminate|exact Hc].
  - intros c Hc. unfold trimEnd in Hc. rewrite last_rev in Hc.
    now apply dropWhile_head in Hc.
Qed.

Lemma trimmed_nil : trimmed [].
Proof. split; intros c Hc; discriminate Hc. Qed.

Lemma dropWhile_fixed p (s : jsstring) :
  (forall c, head s = Some c -> p c = false) -> dropWhile p s = s.
Proof.
  destruct s as [|c s]; [reflexivity|]. intros H. simpl.
  now rewrite (H c eq_refl).
Qed.

(** A string without white space at its ends is its own [trim]. *)
Lemma trim_fixed (s : jsstring) : trimmed s -> trim s = s.
Proof.
  intros [Hhead Hlast]. unfold trim, trimStart, trimEnd.
  rewrite (dropWhile_fixed _ s Hhead).
  rewrite dropWhile_fixed; [apply rev_involutive|].
  intros c Hc. apply Hlast. pose proof (last_rev (rev s)) as H.
  rewrite rev_involutive in H. now rewrite H.
Qed.

Lemma cellText_trimmed (row : list jsstring) (i : nat) : trimmed (cellText row i).
Proof.
  unfold cellText. destruct (row !! i); [apply trim_trimmed|apply trimmed_nil].
Qed.

Lemma fillRow_values (hs : list jsstring) (i : nat) (row : list jsstring)
    (obj : gmap (list N) (list N)) (k v : jsstring) :
  fillRow hs i row obj !! k = Some v ->
  obj !! k = Some v \/ exists j, v = cellText row j.
Proof.
  revert i obj. induction hs as [|h hs IH]; intros i obj H; simpl in H.
  - now left.
  - apply IH in H as [H|H]; [|now right].
    rewrite objSet_lookup in H.
    destruct (bool_decide (h = PROTO)); [now left|].
    destruct (bool_decide (h = k)); [|now left].
    right. exists i. congruence.
Qed.

Section Tidy.
Variable lower : list N -> list N.

Lemma push_tidy mk st :
  (forall i, tidy (mk i)) -> tidyState st -> tidyState (push mk st).
Proof.
  intros Hmk [Hs Hl]. split; [|exact Hl]. simpl.
  apply Forall_app. split; [exact Hs|]. constructor; [apply Hmk|constructor].
Qed.

Lemma handle_tidy st e : tidyState st -> tidyState (handle lower st e).
Proof.
  intros Hst. pose proof Hst as [Hs Hl].
  destruct e as [sel e|sel c|sel]; destruct sel;
    cbv beta iota zeta delta [handle onElement onText onEndTag];
    try exact Hst.
  - split; [exact Hs|]. intros l [= <-]. constructor.
  - destruct (currentHeading st); exact Hst.
  - destruct (currentCode st); exact Hst.
  - destruct (currentHeading st) as [h|]; [|exact Hst].
    change (tidyState (push (fun i => SHeading
              {| h_idx := i; h_level := ha_level h;
                 h_text := trim (ha_text h);
                 h_slug := slugify lower (trim (ha_text h));
                 h_raw := hashes (ha_level h) ++ js " " ++ trim (ha_text h) |})
              st)).
    apply push_tidy; [|exact Hst]. intros i. apply trim_trimmed.
  - destruct (currentCode st) as [c|]; [|exact Hst].
    split; [|exact Hl]. simpl. apply Forall_app. split; [exact Hs|].
    constructor; [apply trim_trimmed|constructor].
  - destruct (currentTable st) as [t|]; [|exact Hst].
    split; [|exact Hl]. simpl. apply Forall_app. split; [exact Hs|].
    constructor; [|constructor]. simpl. intros m k v Hm Hv.
    apply list_elem_of_In, in_map_iff in Hm as (row & <- & _).
    unfold rowObject in Hv. apply fillRow_values in Hv as [Hv|[j ->]].
    + rewrite lookup_empty in Hv. discriminate Hv.
    + apply cellText_trimmed.
  - destruct (currentTable st) as [t|]; [|exact Hst].
    destruct (inThead st || _); exact Hst.
  - destruct (currentList st) as [l|] eqn:Hcur; [|exact Hst].
    destruct (0 <? length (la_items l)) eqn:Hlen; [|exact Hst].
    split; [|intros l' H'; discriminate H']. simpl.
    apply Forall_app. split; [exact Hs|]. constructor; [|constructor].
    simpl. split; [|now apply Hl].
    apply Nat.ltb_lt in Hlen. destruct (la_items l); [simpl in Hlen; lia|discriminate].
  - destruct (currentList st) as [l|] eqn:Hcur; [|exact Hst].
    split; [exact Hs|]. intros l' [= <-]. simpl.
    apply Forall_app. split; [now apply Hl|].
    constructor; [apply trim_trimmed|constructor].
  - destruct (pText st) as [|text outer]; [exact Hst|].
    destruct (truthy (trim text)); [|exact Hst].
    split; [|exact Hl]. simpl. apply Forall_app. split; [exact Hs|].
    constructor; [apply trim_trimmed|constructor].
Qed.

(** X8: in every document, the heading texts, the code bodies, the list
    items and the values of the table rows have no white space at either
    end, and every list section has at least one item. *)
Theorem sections_tidy (evs : list event) (src : jsstring) :
  Forall tidy (doc_sections (parseEvents lower evs src)).
Proof.
  simpl.
  apply (run_invariant lower tidyState); [exact handle_tidy|].
  split; [constructor|discriminate].
Qed.
End Tidy.

(** ** The Markdown of a table *)

Lemma substring_refl (s : jsstring) : substring s s.
Proof. exists [], []. now rewrite app_nil_r. Qed.

Lemma substring_app_l (q s pre : jsstring) :
  substring q s -> substring q (pre ++ s).
Proof.
  intros (a & b & ->). exists (pre ++ a), b. now rewrite <- app_assoc.
Qed.

Lemma substring_app_r (q s post : jsstring) :
  substring q s -> substring q (s ++ post).
Proof.
  intros (a & b & ->). exists a, (b ++ post). now rewrite <- !app_assoc.
Qed.

Lemma substring_join (sep x : jsstring) (parts : list jsstring) :
  x ∈ parts -> substring x (join sep parts).
Proof.
  induction parts as [|p parts IH]; intros Hin; [inversion Hin|].
  destruct parts as [|q parts].
  - apply elem_of_cons in Hin as [->|Hin]; [|inversion Hin].
    apply substring_refl.
  - change (join sep (p :: q :: parts)) with (p ++ sep ++ join sep (q :: parts)).
    apply elem_of_cons in Hin as [->|Hin].
    + apply substring_app_r, substring_refl.
    + apply substring_app_l, substring_app_l, IH, Hin.
Qed.

(** X12: the Markdown of a table is the header line, the separator line
    with one "---" per header and the lines of the rows, joined by line
    feeds: it starts with the header line, every row line occurs in it,
    and without rows it ends in a line feed after the separator. *)
Theorem formatTableMd_lines (headers : list jsstring)
    (rows : list (list jsstring)) :
  formatTableMd headers rows
    = tableLine headers ++ [LF]
        ++ tableLine (replicate (length headers) (js "---")) ++ [LF]
        ++ join [LF] (map tableLine rows) /\
  tableLine headers `prefix_of` formatTableMd headers rows /\
  (forall row, row ∈ rows ->
     substring (tableLine row) (formatTableMd headers rows)) /\
  (rows = [] -> last (formatTableMd headers rows) = Some LF).
Proof.
  assert (Hsep : map (fun _ : list N => js "---") headers
                 = replicate (length headers) (js "---")).
  { induction headers as [|h hs IH]; [reflexivity|]. simpl. now rewrite IH. }
  assert (Heq : formatTableMd headers rows
                = tableLine headers ++ [LF]
                    ++ tableLine (replicate (length headers) (js "---")) ++ [LF]
                    ++ join [LF] (map tableLine rows)).
  { unfold formatTableMd, tableLine. cbv zeta. rewrite Hsep. reflexivity. }
  split; [exact Heq|]. rewrite Heq. split; [|split].
  - now exists ([LF] ++ tableLine (replicate (length headers) (js "---"))
                  ++ [LF] ++ join [LF] (map tableLine rows)).
  - intros row Hrow. do 4 apply substring_app_l.
    apply substring_join. apply list_elem_of_In, in_map, list_elem_of_In, Hrow.
  - intros ->. simpl map. simpl join. rewrite app_nil_r, !app_assoc.
    apply last_snoc.
Qed.

(** ** The views and the title of a document *)

Lemma byType_heading (secs : list Section) :
  map SHeading (omap asHeading secs)
  = List.filter (fun s => SectionType_eqb (sec_type s) TyHeading) secs.
Proof.
  induction secs as [|s secs IH]; [reflexivity|].
  destruct s; simpl; rewrite <- ?IH; reflexivity.
Qed.

Lemma byType_code (secs : list Section) :
  map SCode (omap asCode secs)
  = List.filter (fun s => SectionType_eqb (sec_type s) TyCode) secs.
Proof.
  induction secs as [|s secs IH]; [reflexivity|].
  destruct s; simpl; rewrite <- ?IH; reflexivity.
Qed.

Lemma byType_table (secs : list Section) :
  map STable (omap asTable secs)
  = List.filter (fun s => SectionType_eqb (sec_type s) TyTable) secs.
Proof.
  induction secs as [|s secs IH]; [reflexivity|].
  destruct s; simpl; rewrite <- ?IH; reflexivity.
Qed.

Lemma List_filter_sublist {A} (f : A -> bool) (l : list A) :
  List.filter f l `sublist_of` l.
Proof.
  induction l as [|x l IH]; [constructor|]. simpl.
  destruct (f x); [now apply sublist_skip|now apply sublist_cons].
Qed.

Section Views.
Variable lower : list N -> list N.

(** X13: the views [headings], [codeBlocks] and [tables] hold the very
    records of the sections of their kind, in document order: wrapped as
    sections they are what [byType] returns, a subsequence of [sections];
    [byType] returns exactly the sections of the type asked for. *)
Theorem views_are_the_sections_by_type (secs : list Section) (src : jsstring) :
  let doc := assemble lower secs src in
  map SHeading (headings doc) = byType doc TyHeading /\
  map SCode (codeBlocks doc) = byType doc TyCode /\
  map STable (tables doc) = byType doc TyTable /\
  (forall ty, byType doc ty `sublist_of` doc_sections doc) /\
  (forall ty s, s ∈ byType doc ty <-> s ∈ doc_sections doc /\ sec_type s = ty).
Proof.
  simpl. split; [apply byType_heading|]. split; [apply byType_code|].
  split; [apply byType_table|]. split.
  - intros ty. apply List_filter_sublist.
  - intros ty s. rewrite !list_elem_of_In, filter_In, <- list_elem_of_In.
    split; intros [Hs Hty]; (split; [exact Hs|]).
    + destruct (sec_type s), ty; try discriminate; reflexivity.
    + rewrite Hty. now destruct ty.
Qed.

(** X14: the title is the text of the first heading of level 1, and the
    source when no heading has level 1. *)
Theorem title_is_first_h1 (secs : list Section) (src : jsstring) :
  let doc := assemble lower secs src in
  (forall pre h post,
     headings doc = pre ++ h :: post ->
     Forall (fun h' => h_level h' <> Some 1%N) pre ->
     h_level h = Some 1%N -> title doc = h_text h) /\
  (Forall (fun h' => h_level h' <> Some 1%N) (headings doc) ->
   title doc = src).
Proof.
  simpl. set (hs := omap asHeading secs). clearbody hs. split.
  - intros pre h post -> Hpre Hh.
    induction Hpre as [|h' pre Hh' Hpre IH]; simpl.
    + now rewrite bool_decide_eq_true_2.
    + rewrite bool_decide_eq_false_2 by exact Hh'. exact IH.
  - intros Hall. induction Hall as [|h' hs' Hh' Hall IH]; simpl.
    + reflexivity.
    + rewrite bool_decide_eq_false_2 by exact Hh'. exact IH.
Qed.
End Views.

(** An [h1] heading after an [h2] heading. *)
Lemma title_is_first_h1_witness :
  title (parseEvents asciiToLowerCase
           (headingEvents (el "h2" None) [chunk (js "Install") true]
            ++ headingEvents (el "h1" None) [chunk (js " Button ") true])
           (js "button.md"))
  = js "Button".
Proof.
  apply (proj1 (title_is_first_h1 asciiToLowerCase _ (js "button.md"))
           [ {| h_idx := 0; h_level := Some 2%N; h_text := js "Install";
                h_slug := js "install"; h_raw := js "## Install" |} ]
           {| h_idx := 1; h_level := Some 1%N; h_text := js "Button";
              h_slug := js "button"; h_raw := js "# Button" |}
           []).
  - reflexivity.
  - constructor; [discriminate|constructor].
  - reflexivity.
Defined.

(** ** The language of a code block *)

Lemma languageRe_inv pos a rest caps' :
  Matches languageRe pos a rest [] caps' ->
  exists w, a = js "language-" ++ w /\ w <> [] /\ allOf isWord w /\
            caps' = [(1, w)].
Proof.
  unfold languageRe. intros H.
  apply Matches_text_inv in H as (w & -> & H).
  apply Matches_group_inv in H as (c1 & H & ->).
  apply Matches_plus_inv in H as (Hne & Hw & ->).
  now exists w.
Qed.

Lemma regexMatch_languageRe (cls : jsstring) caps :
  regexMatch languageRe cls = Some caps ->
  exists pre w rest,
    cls = pre ++ js "language-" ++ w ++ rest /\
    w <> [] /\ allOf isWord w /\ caps = [(1, w)].
Proof.
  unfold regexMatch. intros H.
  destruct (searchFrom languageRe 0 cls) as [[[pos' rest'] caps']|] eqn:Hs;
    [|discriminate].
  simpl in H. simplify_eq.
  apply searchFrom_sound in Hs as (pre & suf & -> & Hm).
  unfold matchAt in Hm.
  apply matcher_sound in Hm as (a & rest & caps'' & -> & Hm & Hk).
  simplify_eq. apply languageRe_inv in Hm as (w & -> & Hne & Hw & ->).
  exists pre, w, rest'. repeat split; auto.
Qed.

Lemma text_is_word : allOf isWord (js "text").
Proof. repeat constructor. Qed.

Lemma detectLang_langWord (cls : jsstring) : langWord (detectLang cls).
Proof.
  unfold detectLang, langWord.
  destruct (regexMatch languageRe cls) as [caps|] eqn:Hm.
  - apply regexMatch_languageRe in Hm as (pre & w & rest & _ & Hne & Hw & ->).
    simpl. auto.
  - split; [discriminate|apply text_is_word].
Qed.

(** X6: the language of a code block is never empty and consists of word
    characters.  It is "text" when the class does not contain
    "language-"; for a class that starts with "language-" it is the
    longest run of word characters that follows, so "language-c++" gives
    "c". *)
Theorem detectLang_word (cls : jsstring) :
  (detectLang cls <> [] /\ allOf isWord (detectLang cls)) /\
  (~ substring (js "language-") cls -> detectLang cls = js "text") /\
  (forall w rest,
     cls = js "language-" ++ w ++ rest ->
     w <> [] -> allOf isWord w ->
     (forall c, head rest = Some c -> isWord c = false) ->
     detectLang cls = w).
Proof.
  split; [|split].
  - apply detectLang_langWord.
  - intros Hno. unfold detectLang.
    destruct (regexMatch languageRe cls) as [caps|] eqn:Hm; [|reflexivity].
    apply regexMatch_languageRe in Hm as (pre & w & rest & -> & _).
    exfalso. apply Hno. now exists pre, (w ++ rest).
  - intros w rest -> Hne Hw Hrest.
    destruct w as [|w0 w]; [contradiction|].
    apply Forall_cons in Hw as [Hw0 Hw].
    unfold detectLang, regexMatch.
    rewrite (searchFrom_first _ _ _
               (9 + S (length w), rest, [(1, w0 :: w)])).
    + reflexivity.
    + unfold matchAt, languageRe.
      change (js "language-")
        with [108; 97; 110; 103; 117; 97; 103; 101; 45]%N.
      cbn [matcher RText app]. rewrite !N.eqb_refl, Hw0.
      rewrite (starM_greedy isWord 10 w rest _ _
                 (9 + S (length w), rest, [(1, w0 :: w)])).
      * reflexivity.
      * exact Hw.
      * intros [|x a2] rest2 Hne2 -> Ha2; [contradiction|].
        apply Forall_cons in Ha2 as [Hx _].
        rewrite (Hrest x eq_refl) in Hx. discriminate Hx.
      * replace (10 + length w - 9) with (S (length w)) by lia.
        change (w0 :: w ++ rest) with ((w0 :: w) ++ rest).
        rewrite take_app_length'; reflexivity.
Qed.

(** The class "language-c++". *)
Lemma detectLang_word_witness :
  detectLang (js "language-c++") = js "c".
Proof.
  apply (proj2 (proj2 (detectLang_word (js "language-c++")))
           (js "c") (js "++")).
  - reflexivity.
  - discriminate.
  - repeat constructor.
  - intros c [= <-]. reflexivity.
Defined.

(** ** Imports *)

Lemma Matches_class_inv p pos a rest caps caps' :
  Matches (RClass p) pos a rest caps caps' ->
  exists c, a = [c] /\ p c = true /\ caps' = caps.
Proof. inversion 1; subst; eauto. Qed.

(** What a match of [matchAt] leaves is a suffix of its input. *)
Lemma matchAt_suffix r pos (input : jsstring) pos' rest' caps' :
  matchAt r pos input = Some (pos', rest', caps') ->
  exists a, input = a ++ rest' /\ pos' = pos + length a.
Proof.
  unfold matchAt. intros H.
  apply matcher_sound in H as (a & rest & caps & -> & _ & Hk).
  simplify_eq. now exists a.
Qed.

(** Every element of [matchAll] is the captures of a match that starts
    somewhere in the input. *)
Lemma matchAllLoop_sound fuel r pos (input : jsstring) caps :
  caps ∈ matchAllLoop fuel r pos input ->
  exists pre suf pos' rest',
    input = pre ++ suf /\
    matchAt r (pos + length pre) suf = Some (pos', rest', caps).
Proof.
  revert pos input. induction fuel as [|fuel IH]; intros pos input Hin;
    [inversion Hin|].
  cbn [matchAllLoop] in Hin.
  assert (Hskip : caps ∈ match input with
                         | [] => []
                         | _ :: t => matchAllLoop fuel r (S pos) t
                         end ->
                  exists pre suf pos' rest',
                    input = pre ++ suf /\
                    matchAt r (pos + length pre) suf = Some (pos', rest', caps)).
  { destruct input as [|c t]; [intros H; inversion H|]. intros H.
    apply IH in H as (pre & suf & pos' & rest' & -> & Hm).
    exists (c :: pre), suf, pos', rest'. split; [reflexivity|].
    simpl. now rewrite Nat.add_succ_r. }
  destruct (matchAt r pos input) as [[[pos' rest'] caps']|] eqn:Hm;
    [|now apply Hskip].
  assert (Hhere : exists pre suf pos'' rest'',
             input = pre ++ suf /\
             matchAt r (pos + length pre) suf = Some (pos'', rest'', caps')).
  { exists [], input, pos', rest'. now rewrite Nat.add_0_r. }
  destruct (pos <? pos').
  - apply elem_of_cons in Hin as [->|Hin]; [exact Hhere|].
    apply matchAt_suffix in Hm as (a & -> & ->).
    apply IH in Hin as (pre & suf & pos'' & rest'' & -> & Hm').
    exists (a ++ pre), suf, pos'', rest''. split; [now rewrite app_assoc|].
    now rewrite length_app, Nat.add_assoc.
  - apply elem_of_cons in Hin as [->|Hin]; [exact Hhere|now apply Hskip].
Qed.

(** What [importRe] matches, and what it captures. *)
Lemma importRe_inv pos a rest caps' :
  Matches importRe pos a rest [] caps' ->
  exists ws1 names ws2 ws3 q1 path q2,
    a = importClause ws1 names ws2 ws3 q1 path q2 /\
    (blank ws1 /\ blank ws2 /\ blank ws3) /\
    (isQuote q1 = true /\ isQuote q2 = true) /\
    names <> [] /\ allOf notCloseBrace names /\
    path <> [] /\ allOf notQuote path /\
    caps' = [(2, path); (1, names)].
Proof.
  unfold importRe. intros H.
  apply Matches_text_inv in H as (b & -> & H).
  apply Matches_seq_inv in H as (ws1 & x & c1 & -> & Hws1 & H).
  apply Matches_plus_inv in Hws1 as (Hws1 & Hws1' & ->).
  apply Matches_seq_inv in H as (ob & x' & c2 & -> & Hob & H).
  apply Matches_lit_inv in Hob as [-> ->].
  apply Matches_seq_inv in H as (names & x & c3 & -> & Hg & H).
  apply Matches_group_inv in Hg as (c4 & Hg & ->).
  apply Matches_plus_inv in Hg as (Hnames & Hnames' & ->).
  apply Matches_seq_inv in H as (cb & x' & c5 & -> & Hcb & H).
  apply Matches_lit_inv in Hcb as [-> ->].
  apply Matches_seq_inv in H as (ws2 & x & c6 & -> & Hws2 & H).
  apply Matches_plus_inv in Hws2 as (Hws2 & Hws2' & ->).
  apply Matches_text_inv in H as (b & -> & H).
  apply Matches_seq_inv in H as (ws3 & x & c7 & -> & Hws3 & H).
  apply Matches_plus_inv in Hws3 as (Hws3 & Hws3' & ->).
  apply Matches_seq_inv in H as (q1 & x' & c8 & -> & Hq1 & H).
  apply Matches_class_inv in Hq1 as (q1' & -> & Hq1 & ->).
  apply Matches_seq_inv in H as (path & q2 & c9 & -> & Hg & Hq2).
  apply Matches_group_inv in Hg as (c10 & Hg & ->).
  apply Matches_plus_inv in Hg as (Hpath & Hpath' & ->).
  apply Matches_class_inv in Hq2 as (q2' & -> & Hq2 & ->).
  exists ws1, names, ws2, ws3, q1', path, q2'.
  unfold blank. repeat split; auto.
Qed.

Lemma elem_of_setAdd (s : list jsstring) (x y : jsstring) :
  x ∈ setAdd s y <-> x ∈ s \/ x = y.
Proof.
  unfold setAdd. destruct (bool_decide_reflect (y ∈ s)) as [Hy|Hy].
  - split; [now left|]. intros [H| ->]; assumption.
  - rewrite elem_of_app, list_elem_of_singleton. reflexivity.
Qed.

Lemma setAdd_NoDup (s : list jsstring) (y : jsstring) :
  NoDup s -> NoDup (setAdd s y).
Proof.
  intros Hs. unfold setAdd. destruct (bool_decide_reflect (y ∈ s)) as [Hy|Hy];
    [exact Hs|].
  apply NoDup_app. split; [exact Hs|]. split.
  - intros x Hx Hx'. apply list_elem_of_singleton in Hx'. now subst.
  - apply NoDup_singleton.
Qed.

Lemma fold_setAdd (f : captures -> jsstring) (l : list captures)
    (s : list jsstring) :
  (NoDup s -> NoDup (fold_left (fun acc c => setAdd acc (f c)) l s)) /\
  (forall x, x ∈ fold_left (fun acc c => setAdd acc (f c)) l s <->
             x ∈ s \/ exists c, c ∈ l /\ x = f c).
Proof.
  revert s. induction l as [|c l IH]; intros s; simpl.
  - split; [auto|]. intros x. split; [now left|].
    intros [H|(c & Hc & _)]; [exact H|inversion Hc].
  - destruct (IH (setAdd s (f c))) as [Hnd Hin]. split.
    + intros Hs. apply Hnd, setAdd_NoDup, Hs.
    + intros x. rewrite Hin, elem_of_setAdd. split.
      * intros [[H| ->]|(c' & Hc' & ->)]; [now left| |].
        -- right. exists c. split; [left|reflexivity].
        -- right. exists c'. split; [now right|reflexivity].
      * intros [H|(c' & Hc' & ->)]; [now left; left|].
        apply elem_of_cons in Hc' as [->|Hc']; [left; now right|].
        right. now exists c'.
Qed.

(** The imports gathered from a list of blocks, starting from [s]. *)
Lemma extractImports_fold (blocks : list CodeSection) (s : list jsstring) :
  let step := fun imports block =>
    if importLang (c_lang block)
    then fold_left (fun imports caps => setAdd imports (importLine caps))
           (matchAll importRe (c_code block)) imports
    else imports in
  (NoDup s -> NoDup (fold_left step blocks s)) /\
  (forall x, x ∈ fold_left step blocks s <->
     x ∈ s \/ exists b caps,
       b ∈ blocks /\ importLang (c_lang b) = true /\
       caps ∈ matchAll importRe (c_code b) /\ x = importLine caps).
Proof.
  cbv zeta. revert s. induction blocks as [|b blocks IH]; intros s; simpl.
  - split; [auto|]. intros x. split; [now left|].
    intros [H|(b & caps & Hb & _)]; [exact H|inversion Hb].
  - destruct (importLang (c_lang b)) eqn:Hlang.
    + destruct (fold_setAdd importLine (matchAll importRe (c_code b)) s)
        as [Hnd Hin].
      destruct (IH (fold_left (fun imports caps => setAdd imports (importLine caps))
                      (matchAll importRe (c_code b)) s)) as [Hnd' Hin'].
      split; [auto|]. intros x. rewrite Hin', Hin. split.
      * intros [[H|(c & Hc & ->)]|(b' & caps & Hb' & Hl & Hc & ->)].
        -- now left.
        -- right. exists b, c. repeat split; auto. left.
        -- right. exists b', caps. repeat split; auto. now right.
      * intros [H|(b' & caps & Hb' & Hl & Hc & ->)]; [now left; left|].
        apply elem_of_cons in Hb' as [->|Hb'].
        -- left. right. now exists caps.
        -- right. now exists b', caps.
    + destruct (IH s) as [Hnd' Hin']. split; [exact Hnd'|].
      intros x. rewrite Hin'. split.
      * intros [H|(b' & caps & Hb' & Hl & Hc & ->)]; [now left|].
        right. exists b', caps. repeat split; auto. now right.
      * intros [H|(b' & caps & Hb' & Hl & Hc & ->)]; [now left|].
        apply elem_of_cons in Hb' as [->|Hb']; [congruence|].
        right. now exists b', caps.
Qed.

Lemma fold_left_filter_skip {A B} (f : A -> B -> A) (p : B -> bool)
    (l : list B) (a : A) :
  (forall a x, p x = false -> f a x = a) ->
  fold_left f (List.filter p l) a = fold_left f l a.
Proof.
  intros Hskip. revert a. induction l as [|x l IH]; intros a; [reflexivity|].
  simpl. destruct (p x) eqn:Hx; simpl.
  - apply IH.
  - rewrite (Hskip a x Hx). apply IH.
Qed.

(** X15: the imports have no duplicates; each one is [import { names }
    from "path";] for a clause found in the code of a [tsx], [ts] or [jsx]
    block, with the names between the braces trimmed and the path put in
    double quotes whatever quotes the code uses; blocks in other languages
    are not looked at. *)
Theorem extractImports_normalised (blocks : list CodeSection) :
  NoDup (extractImports blocks) /\
  (forall imp, imp ∈ extractImports blocks ->
     exists b names path,
       b ∈ blocks /\ importLang (c_lang b) = true /\
       substring ([123%N] ++ names ++ [125%N]) (c_code b) /\
       names <> [] /\ allOf notCloseBrace names /\
       path <> [] /\ allOf notQuote path /\
       imp = js "import { " ++ trim names ++ js " } from "
               ++ [QUOTE] ++ path ++ [QUOTE] ++ js ";") /\
  extractImports blocks
    = extractImports (List.filter (fun b => importLang (c_lang b)) blocks).
Proof.
  destruct (extractImports_fold blocks []) as [Hnd Hin]. split; [|split].
  - apply Hnd. constructor.
  - intros imp Himp. apply Hin in Himp as [H|(b & caps & Hb & Hl & Hc & ->)];
      [inversion H|].
    apply matchAllLoop_sound in Hc as (pre & suf & pos' & rest' & Hcode & Hm).
    unfold matchAt in Hm.
    apply matcher_sound in Hm as (a & rest & caps' & -> & Hm & Hk).
    simplify_eq. apply importRe_inv in Hm
      as (ws1 & names & ws2 & ws3 & q1 & path & q2 & -> & _ & _
          & H1 & H2 & H3 & H4 & ->).
    exists b, names, path. repeat split; auto.
    rewrite Hcode. unfold importClause.
    exists (pre ++ js "import" ++ ws1),
           (ws2 ++ js "from" ++ ws3 ++ [q1] ++ path ++ [q2] ++ rest').
    now rewrite <- !app_assoc.
  - unfold extractImports. symmetry. apply fold_left_filter_skip.
    intros a x Hx. now rewrite Hx.
Qed.

(** *** A clause at the start of a block *)

(** A run of a class that is followed by a code unit outside the class is
    determined by the string. *)
Lemma run_unique (p : N -> bool) (x y : jsstring) c d (r r' : jsstring) :
  allOf p x -> allOf p y -> p c = false -> p d = false ->
  x ++ c :: r = y ++ d :: r' -> x = y /\ c = d /\ r = r'.
Proof.
  intros Hx. revert y. induction Hx as [|a x Ha Hx IH]; intros y Hy Hc Hd Heq.
  - destruct Hy as [|b y Hb Hy]; simpl in Heq.
    + now simplify_eq.
    + simplify_eq. congruence.
  - destruct Hy as [|b y Hb Hy]; simpl in Heq.
    + simplify_eq. congruence.
    + injection Heq as -> Heq.
      destruct (IH y Hy Hc Hd Heq) as (-> & -> & ->). auto.
Qed.

Lemma importClause_matches pos ws1 names ws2 ws3 q1 path q2 rest :
  blank ws1 -> blank ws2 -> blank ws3 ->
  names <> [] -> allOf notCloseBrace names ->
  isQuote q1 = true -> path <> [] -> allOf notQuote path ->
  isQuote q2 = true ->
  Matches importRe pos (importClause ws1 names ws2 ws3 q1 path q2) rest []
    [(2, path); (1, names)].
Proof.
  intros [Hne1 Hws1] [Hne2 Hws2] [Hne3 Hws3] Hnames0 Hnames Hq1 Hpath0 Hpath
    Hq2.
  unfold importRe, importClause. apply Matches_text.
  econstructor; [now constructor|].
  change ([123%N] ++ names ++ ?x) with ([123%N] ++ (names ++ x)).
  econstructor; [constructor|].
  econstructor; [constructor; now constructor|].
  econstructor; [constructor|].
  econstructor; [now constructor|].
  apply Matches_text.
  econstructor; [now constructor|].
  econstructor; [now constructor|].
  replace (path ++ [q2]) with (path ++ [q2] ++ []) by now rewrite app_nil_r.
  replace rest with ([] ++ rest) at 2 by reflexivity.
  rewrite <- (app_nil_r [q2]) at 1.
  econstructor; [constructor; now constructor|].
  rewrite app_nil_r. now constructor.
Qed.

Lemma quote_not_space c : isQuote c = true -> isWhiteSpace c = false.
Proof.
  unfold isQuote. intros H. apply orb_true_iff in H as [H|H];
    apply N.eqb_eq in H; subst c; reflexivity.
Qed.

Lemma quote_not_notQuote c : isQuote c = true -> notQuote c = false.
Proof. unfold notQuote. now intros ->. Qed.

(** An import clause is determined by the string it starts. *)
Lemma importClause_unique ws1 names ws2 ws3 q1 path q2 (rest : jsstring)
    ws1' names' ws2' ws3' q1' path' q2' (rest' : jsstring) :
  blank ws1 -> blank ws2 -> blank ws3 ->
  allOf notCloseBrace names -> isQuote q1 = true -> allOf notQuote path ->
  isQuote q2 = true ->
  blank ws1' -> blank ws2' -> blank ws3' ->
  allOf notCloseBrace names' -> isQuote q1' = true -> allOf notQuote path' ->
  isQuote q2' = true ->
  importClause ws1 names ws2 ws3 q1 path q2 ++ rest
    = importClause ws1' names' ws2' ws3' q1' path' q2' ++ rest' ->
  names = names' /\ path = path' /\ rest = rest' /\
  importClause ws1 names ws2 ws3 q1 path q2
    = importClause ws1' names' ws2' ws3' q1' path' q2'.
Proof.
  intros [_ H1] [_ H2] [_ H3] Hn Hq1 Hp Hq2
         [_ H1'] [_ H2'] [_ H3'] Hn' Hq1' Hp' Hq2' Heq.
  unfold importClause in *. rewrite <- !app_assoc in Heq.
  apply app_inv_head in Heq. simpl in Heq.
  apply (run_unique isWhiteSpace) in Heq as (-> & _ & Heq);
    [|assumption|assumption|reflexivity|reflexivity].
  apply (run_unique notCloseBrace) in Heq as (-> & _ & Heq);
    [|assumption|assumption|reflexivity|reflexivity].
  apply (run_unique isWhiteSpace) in Heq as (-> & _ & Heq);
    [|assumption|assumption|reflexivity|reflexivity].
  injection Heq as Heq.
  destruct ws3 as [|w3 ws3], ws3' as [|w3' ws3'].
  - simpl in Heq. injection Heq as -> Heq.
    apply (run_unique notQuote) in Heq as (-> & -> & ->);
      auto using quote_not_notQuote.
  - simpl in Heq. injection Heq as -> Heq.
    inversion H3' as [|? ? Hw _]; subst.
    rewrite (quote_not_space _ Hq1) in Hw. discriminate.
  - simpl in Heq. injection Heq as -> Heq.
    inversion H3 as [|? ? Hw _]; subst.
    rewrite (quote_not_space _ Hq1') in Hw. discriminate.
  - apply (run_unique isWhiteSpace) in Heq as (-> & -> & Heq);
      auto using quote_not_space.
    apply (run_unique notQuote) in Heq as (-> & -> & ->);
      auto using quote_not_notQuote.
Qed.

(** At the start of a string that begins with an import clause,
    [importRe] matches the clause and nothing else. *)
Lemma matchAt_importClause ws1 names ws2 ws3 q1 path q2 (rest : jsstring) :
  blank ws1 -> blank ws2 -> blank ws3 ->
  names <> [] -> allOf notCloseBrace names ->
  isQuote q1 = true -> path <> [] -> allOf notQuote path ->
  isQuote q2 = true ->
  matchAt importRe 0 (importClause ws1 names ws2 ws3 q1 path q2 ++ rest)
    = Some (length (importClause ws1 names ws2 ws3 q1 path q2), rest,
            [(2, path); (1, names)]).
Proof.
  intros H1 H2 H3 Hn0 Hn Hq1 Hp0 Hp Hq2.
  pose proof (importClause_matches 0 ws1 names ws2 ws3 q1 path q2 rest
                H1 H2 H3 Hn0 Hn Hq1 Hp0 Hp Hq2) as Hm.
  destruct (matcher_complete _ _ _ _ _ _
              (fun pos' rest' caps' => Some (pos', rest', caps')) Hm)
    as [[[pos' rest'] caps'] Hres]; [eauto|].
  unfold matchAt. rewrite Hres.
  apply matcher_sound in Hres as (a & rest0 & caps0 & Heq & Hm' & Hk).
  simplify_eq.
  apply importRe_inv in Hm'
    as (ws1' & names' & ws2' & ws3' & q1' & path' & q2' & -> & (B1 & B2 & B3)
        & (Q1 & Q2) & Hn0' & Hn' & Hp0' & Hp' & ->).
  destruct (importClause_unique _ _ _ _ _ _ _ _ _ _ _ _ _ _ _ _
              H1 H2 H3 Hn Hq1 Hp Hq2 B1 B2 B3 Hn' Q1 Hp' Q2 Heq)
    as (-> & -> & -> & ->).
  reflexivity.
Qed.

Lemma head_setAdd (s : list jsstring) (x y : jsstring) :
  head s = Some x -> head (setAdd s y) = Some x.
Proof.
  unfold setAdd. destruct (bool_decide (y ∈ s)); [auto|].
  destruct s; [discriminate|auto].
Qed.

Lemma head_fold_setAdd (l : list captures) (s : list jsstring) (x : jsstring) :
  head s = Some x ->
  head (fold_left (fun imports caps => setAdd imports (importLine caps)) l s)
    = Some x.
Proof.
  revert s. induction l as [|c l IH]; intros s Hs; [exact Hs|].
  simpl. apply IH, head_setAdd, Hs.
Qed.

Lemma head_fold_blocks (blocks : list CodeSection) (s : list jsstring)
    (x : jsstring) :
  head s = Some x ->
  head (fold_left
          (fun imports block =>
             if importLang (c_lang block)
             then fold_left
                    (fun imports caps => setAdd imports (importLine caps))
                    (matchAll importRe (c_code block)) imports
             else imports) blocks s) = Some x.
Proof.
  revert s. induction blocks as [|b blocks IH]; intros s Hs; [exact Hs|].
  simpl. apply IH. destruct (importLang (c_lang b)); [|exact Hs].
  now apply head_fold_setAdd.
Qed.

(** X21: when the first block is in [tsx], [ts] or [jsx] and its code
    starts with an import clause ([import], white space, the names between
    braces, white space, [from], white space, the path between single or
    double quotes), the first import is that clause with the names trimmed
    and the path in double quotes. *)
Theorem leading_import_is_first (b : CodeSection) (blocks : list CodeSection)
    (ws1 names ws2 ws3 : jsstring) (q1 : N) (path : jsstring) (q2 : N)
    (rest : jsstring) :
  importLang (c_lang b) = true ->
  c_code b = importClause ws1 names ws2 ws3 q1 path q2 ++ rest ->
  blank ws1 /\ blank ws2 /\ blank ws3 ->
  names <> [] /\ allOf notCloseBrace names ->
  path <> [] /\ allOf notQuote path ->
  isQuote q1 = true /\ isQuote q2 = true ->
  head (extractImports (b :: blocks))
    = Some (js "import { " ++ trim names ++ js " } from "
              ++ [QUOTE] ++ path ++ [QUOTE] ++ js ";").
Proof.
  intros Hlang Hcode (H1 & H2 & H3) [Hn0 Hn] [Hp0 Hp] [Hq1 Hq2].
  unfold extractImports. cbn [fold_left]. rewrite Hlang.
  apply head_fold_blocks.
  unfold matchAll. cbn [matchAllLoop]. rewrite Hcode.
  rewrite matchAt_importClause by assumption.
  assert (Hpos : (0 <? length (importClause ws1 names ws2 ws3 q1 path q2))
                 = true).
  { apply Nat.ltb_lt. unfold importClause. rewrite length_app. simpl. lia. }
  rewrite Hpos. cbn [fold_left].
  apply head_fold_setAdd. reflexivity.
Qed.

(** A [tsx] block that starts with a clause in single quotes. *)
Lemma leading_import_is_first_witness :
  head (extractImports
          [{| c_idx := 0; c_lang := js "tsx";
              c_code := importClause (js " ") (js " Button, Icon ") (js " ")
                          (js " ") 39%N (js "@ui/button") 39%N
                          ++ js ";";
              c_filename := None; c_raw := [] |}])
    = Some (js "import { " ++ trim (js " Button, Icon ") ++ js " } from "
              ++ [QUOTE] ++ js "@ui/button" ++ [QUOTE] ++ js ";").
Proof.
  apply (leading_import_is_first _ [] (js " ") (js " Button, Icon ") (js " ")
           (js " ") 39%N (js "@ui/button") 39%N (js ";")).
  - reflexivity.
  - reflexivity.
  - unfold blank, allOf. repeat split; try discriminate; repeat constructor.
  - unfold allOf. split; [discriminate|repeat constructor].
  - unfold allOf. split; [discriminate|repeat constructor].
  - split; reflexivity.
Defined.

(** ** Examples and snippets *)

(** The text of the heading at list position [i], if a heading is there. *)
Lemma headingMap_snoc (hs : list HeadingSection) (h : HeadingSection) :
  headingMap (hs ++ [h]) = <[h_idx h := h_text h]> (headingMap hs).
Proof. unfold headingMap. now rewrite fold_left_app. Qed.

Lemma headingMap_lookup (secs : list Section) (i : nat) :
  map sec_idx secs = seq 0 (length secs) ->
  headingMap (omap asHeading secs) !! i
    = h_text <$> (secs !! i ≫= asHeading).
Proof.
  induction secs as [|s secs IH] using rev_ind; intros Hidx.
  - reflexivity.
  - rewrite map_app, length_app, Nat.add_1_r, seq_S in Hidx. simpl in Hidx.
    apply app_inj_tail in Hidx as [Hidx Hs].
    specialize (IH Hidx). rewrite omap_app.
    destruct (decide (i = length secs)) as [->|Hi].
    + rewrite list_lookup_middle by reflexivity.
      assert (Hnone : headingMap (omap asHeading secs) !! length secs = None).
      { rewrite IH, lookup_ge_None_2 by lia. reflexivity. }
      destruct s as [h|c|t|l|p]; simpl in *; rewrite ?app_nil_r;
        try exact Hnone.
      rewrite headingMap_snoc, Hs, lookup_insert_eq. reflexivity.
    + assert (Hlook : (secs ++ [s]) !! i = secs !! i).
      { destruct (decide (i < length secs)) as [Hlt|Hge].
        - now apply lookup_app_l.
        - rewrite !lookup_ge_None_2; [reflexivity|lia|].
          rewrite length_app. simpl. lia. }
      rewrite Hlook, <- IH.
      destruct s as [h|c|t|l|p]; simpl in *; rewrite ?app_nil_r;
        try reflexivity.
      rewrite headingMap_snoc, lookup_insert_ne by lia. reflexivity.
Qed.

Lemma examplesLoop_examplesIn (m : gmap nat (list N)) (suf pre : list Section)
    (cur : jsstring) :
  (forall i, m !! i = h_text <$> ((pre ++ suf) !! i ≫= asHeading)) ->
  map sec_idx suf = seq (length pre) (length suf) ->
  (nearestHeading m (length pre) = None -> cur = js "Example") ->
  examplesLoop m (omap asCode suf) cur
    = examplesIn suf (default (js "Example") (nearestHeading m (length pre))).
Proof.
  revert pre cur. induction suf as [|s suf IH]; intros pre cur Hm Hidx Hcur;
    [reflexivity|].
  simpl in Hidx. injection Hidx as Hs Hidx.
  assert (Hhere : m !! length pre = h_text <$> asHeading s).
  { rewrite Hm, list_lookup_middle by reflexivity. reflexivity. }
  assert (Hm' : forall i, m !! i
                  = h_text <$> (((pre ++ [s]) ++ suf) !! i ≫= asHeading)).
  { intros i. now rewrite <- app_assoc. }
  assert (Hidx' : map sec_idx suf
                  = seq (length (pre ++ [s])) (length suf)).
  { now rewrite length_app, Nat.add_1_r. }
  assert (Hlen : length (pre ++ [s]) = S (length pre)).
  { rewrite length_app. simpl. lia. }
  assert (Hcode : omap asCode (s :: suf)
                  = match asCode s with
                    | Some c => c :: omap asCode suf
                    | None => omap asCode suf
                    end) by reflexivity.
  rewrite Hcode. clear Hcode.
  destruct s as [h|c|t|l|p]; simpl in Hhere, Hs;
    cbn [asCode examplesLoop examplesIn].
  - rewrite (IH (pre ++ [SHeading h]) cur Hm' Hidx').
    + rewrite Hlen. simpl. now rewrite Hhere.
    + rewrite Hlen. simpl. now rewrite Hhere.
  - rewrite Hs.
    assert (Heq : default cur (nearestHeading m (length pre))
                  = default (js "Example") (nearestHeading m (length pre))).
    { destruct (nearestHeading m (length pre)); [reflexivity|].
      simpl. now apply Hcur. }
    rewrite Heq. f_equal.
    rewrite (IH (pre ++ [SCode c]) _ Hm' Hidx').
    + rewrite Hlen. simpl. now rewrite Hhere.
    + rewrite Hlen. simpl. rewrite Hhere. intros Hnone. now rewrite Hnone.
  - rewrite (IH (pre ++ [STable t]) cur Hm' Hidx').
    + rewrite Hlen. simpl. now rewrite Hhere.
    + rewrite Hlen. simpl. now rewrite Hhere.
  - rewrite (IH (pre ++ [SList l]) cur Hm' Hidx').
    + rewrite Hlen. simpl. now rewrite Hhere.
    + rewrite Hlen. simpl. now rewrite Hhere.
  - rewrite (IH (pre ++ [SContent p]) cur Hm' Hidx').
    + rewrite Hlen. simpl. now rewrite Hhere.
    + rewrite Hlen. simpl. now rewrite Hhere.
Qed.

(** On sections numbered by position, the backward search of
    [extractExamples] finds the last heading before each block. *)
Lemma extractExamples_examplesIn (secs : list Section) :
  map sec_idx secs = seq 0 (length secs) ->
  extractExamples (omap asHeading secs) (omap asCode secs)
    = examplesIn secs (js "Example").
Proof.
  intros Hidx. unfold extractExamples.
  now rewrite (examplesLoop_examplesIn _ secs [] (js "Example")
                 (fun i => headingMap_lookup secs i Hidx) Hidx).
Qed.

Lemma examplesIn_langs (secs : list Section) (cur : jsstring) :
  Forall (fun e => exampleLang (ex_lang e) = true) (examplesIn secs cur).
Proof.
  revert cur. induction secs as [|s secs IH]; intros cur; [constructor|].
  destruct s as [h|c|t|l|p]; simpl; try apply IH.
  destruct (exampleLang (c_lang c)) eqn:Hl; simpl; [|apply IH].
  constructor; [exact Hl|apply IH].
Qed.

Lemma exampleLang_values (lang : jsstring) :
  exampleLang lang = true ->
  lang = js "tsx" \/ lang = js "ts" \/ lang = js "jsx" \/ lang = js "js".
Proof.
  unfold exampleLang, strictEq. rewrite !orb_true_iff, !bool_decide_eq_true.
  tauto.
Qed.

Section Examples.
Variable lower : list N -> list N.

(** X16: on a parsed document, [extractExamples] is a single forward
    pass over the sections: every code block in [tsx], [ts], [jsx] or
    [js] becomes an example with the block's language, code and file
    name, titled by the text of the last heading before it, or [Example]
    when no heading comes before it; other blocks give no example. *)
Theorem examples_titled_by_last_heading (evs : list event) (src : jsstring) :
  let doc := parseEvents lower evs src in
  extractExamples (headings doc) (codeBlocks doc)
    = examplesIn (doc_sections doc) (js "Example") /\
  Forall (fun e => ex_lang e = js "tsx" \/ ex_lang e = js "ts" \/
                   ex_lang e = js "jsx" \/ ex_lang e = js "js")
    (extractExamples (headings doc) (codeBlocks doc)).
Proof.
  cbv zeta.
  assert (Heq : extractExamples (headings (parseEvents lower evs src))
                  (codeBlocks (parseEvents lower evs src))
                = examplesIn (doc_sections (parseEvents lower evs src))
                    (js "Example")).
  { apply extractExamples_examplesIn.
    pose proof (run_indexed lower evs) as Hidx. unfold indexed in Hidx.
    pose proof (f_equal (@length nat) Hidx) as Hlen.
    rewrite length_map, length_seq in Hlen.
    simpl. rewrite Hlen. exact Hidx. }
  split; [exact Heq|]. rewrite Heq.
  eapply Forall_impl; [apply examplesIn_langs|].
  intros e He. now apply exampleLang_values.
Qed.
End Examples.

(** Snippets *)

Lemma mapGet_mapSet (m : list (jsstring * jsstring)) (k v k' : jsstring) :
  mapGet (mapSet m k v) k' = if decide (k = k') then Some v else mapGet m k'.
Proof.
  induction m as [|[k0 v0] m IH]; simpl; unfold strictEq.
  - destruct (bool_decide_reflect (k = k')), (decide (k = k')); congruence.
  - destruct (bool_decide_reflect (k0 = k)) as [->|Hk]; simpl; unfold strictEq.
    + destruct (bool_decide_reflect (k = k')), (decide (k = k'));
        congruence.
    + rewrite IH.
      destruct (bool_decide_reflect (k0 = k')), (decide (k = k'));
        congruence.
Qed.

Lemma mapSet_keys (m : list (jsstring * jsstring)) (k v : jsstring) :
  map fst (mapSet m k v)
    = if bool_decide (k ∈ map fst m) then map fst m else map fst m ++ [k].
Proof.
  induction m as [|[k0 v0] m IH]; simpl; [reflexivity|]. unfold strictEq.
  destruct (bool_decide_reflect (k0 = k)) as [->|Hk]; simpl.
  - rewrite bool_decide_eq_true_2 by left. reflexivity.
  - rewrite IH.
    destruct (bool_decide_reflect (k ∈ map fst m)) as [Hin|Hin].
    + rewrite bool_decide_eq_true_2 by now right. reflexivity.
    + rewrite bool_decide_eq_false_2; [reflexivity|].
      intros H. apply elem_of_cons in H as [H|H]; congruence.
Qed.

Lemma snippets_fold (examples : list CodeExample)
    (m : list (jsstring * jsstring)) (k : jsstring) :
  let m' := fold_left (fun m e => mapSet m (snippetKey e) (ex_code e))
              examples m in
  mapGet m' k
    = match last (filter (fun e => snippetKey e = k) examples) with
      | Some e => Some (ex_code e)
      | None => mapGet m k
      end /\
  (NoDup (map fst m) -> NoDup (map fst m')) /\
  (forall k', k' ∈ map fst m' <->
              k' ∈ map fst m \/ k' ∈ map snippetKey examples).
Proof.
  cbv zeta. revert m. induction examples as [|e examples IH]; intros m.
  - simpl. split; [reflexivity|]. split; [auto|].
    intros k'. split; [now left|]. intros [H|H]; [exact H|inversion H].
  - simpl. destruct (IH (mapSet m (snippetKey e) (ex_code e)))
      as (Hget & Hnd & Hkeys).
    split; [|split].
    + rewrite Hget, mapGet_mapSet. rewrite filter_cons.
      destruct (decide (snippetKey e = k)) as [Hk|Hk].
      * destruct (filter _ examples) as [|e' l]; [reflexivity|].
        rewrite last_cons_cons.
        destruct (last (e' :: l)) eqn:Hlast; [reflexivity|].
        now apply last_None in Hlast.
      * reflexivity.
    + intros Hm. apply Hnd. rewrite mapSet_keys.
      destruct (bool_decide_reflect (snippetKey e ∈ map fst m)) as [Hin|Hin];
        [exact Hm|].
      apply NoDup_app. split; [exact Hm|]. split.
      * intros x Hx Hx'. apply list_elem_of_singleton in Hx'. now subst.
      * apply NoDup_singleton.
    + intros k'. rewrite Hkeys, mapSet_keys.
      destruct (bool_decide_reflect (snippetKey e ∈ map fst m)) as [Hin|Hin].
      * rewrite elem_of_cons. split; [tauto|].
        intros [H|[->|H]]; tauto.
      * rewrite elem_of_app, list_elem_of_singleton, elem_of_cons. tauto.
Qed.

(** X17: in the snippet map of a document, a key is bound to the code of
    the last example that has this key (the file name of the example when
    it has a non-empty one, else title, dot, language): a later example
    replaces an earlier one with the same key.  The keys are distinct and
    are exactly the keys of the examples. *)
Theorem snippets_last_example_wins (doc : ParsedDoc) :
  let examples := extractExamples (headings doc) (codeBlocks doc) in
  (forall k,
     mapGet (extractSnippets doc) k
       = ex_code <$> last (filter (fun e => snippetKey e = k) examples)) /\
  NoDup (map fst (extractSnippets doc)) /\
  (forall k, k ∈ map fst (extractSnippets doc) <->
             k ∈ map snippetKey examples).
Proof.
  cbv zeta. unfold extractSnippets.
  generalize (extractExamples (headings doc) (codeBlocks doc)).
  intros examples. split; [|split].
  - intros k. destruct (snippets_fold examples [] k) as (Hget & _ & _).
    unfold snippetsOf. rewrite Hget.
    now destruct (last (filter (fun e => snippetKey e = k) examples)).
  - destruct (snippets_fold examples [] []) as (_ & Hnd & _).
    apply Hnd. constructor.
  - intros k. destruct (snippets_fold examples [] []) as (_ & _ & Hkeys).
    unfold snippetsOf. rewrite Hkeys. split; [|now right].
    intros [H|H]; [inversion H|exact H].
Qed.

(** ** Props tables *)

(** [replace(/`/g, '')] removes every backtick and nothing else. *)
Lemma replaceLoop_backtick fuel pos (rest : jsstring) :
  length rest < fuel ->
  replaceLoop fuel (RLit 96%N) [] pos rest
    = List.filter (fun c => negb (96 =? c)%N) rest.
Proof.
  revert pos rest. induction fuel as [|fuel IH]; intros pos rest Hlen; [lia|].
  destruct rest as [|d t]; [reflexivity|]. simpl in Hlen.
  cbn [replaceLoop List.filter]. unfold matchAt. cbn [matcher].
  destruct (96 =? d)%N; cbn [negb].
  - assert (Hlt : (pos <? S pos) = true) by (apply Nat.ltb_lt; lia).
    rewrite Hlt. simpl. apply IH. lia.
  - f_equal. apply IH. lia.
Qed.

Lemma removeBackticks_filter (s : jsstring) :
  removeBackticks s = List.filter (fun c => negb (96 =? c)%N) s.
Proof. apply replaceLoop_backtick. lia. Qed.

Lemma removeBackticks_none (s : jsstring) : 96%N ∉ removeBackticks s.
Proof.
  rewrite removeBackticks_filter, list_elem_of_In. intros H.
  apply filter_In in H as [_ H]. now rewrite N.eqb_refl in H.
Qed.

Lemma truthy_nonempty (s : jsstring) : truthy s = true <-> s <> [].
Proof. destruct s; simpl; split; congruence. Qed.

(** [a || b] is [a] when [a] is a non-empty string, else [b]. *)
Lemma orElse_truthy (a : option jsstring) (b : jsstring) :
  truthy (orElse a b) = true ->
  (a = Some (orElse a b)) \/ (orElse a b = b /\ truthy b = true).
Proof.
  unfold orElse. destruct a as [s|]; [|now right].
  destruct (truthy s) eqn:Hs; [now left|now right].
Qed.

Lemma orElse_absent (a : option jsstring) (b : jsstring) :
  default [] a = [] -> orElse a b = b.
Proof. destruct a as [[|c s]|]; simpl; congruence. Qed.

(** The keys that [extractProps] reads the name of a prop from. *)
Lemma rowProp_name (row : gmap (list N) (list N)) (p : PropDefinition) :
  rowProp row = Some p ->
  exists key v,
    key ∈ [js "Prop"; js "Name"; js "Property"; js "prop"] /\
    row !! key = Some v /\ v <> [] /\
    pd_name p = removeBackticks v.
Proof.
  unfold rowProp.
  set (name := orElse (row !! js "Prop") _).
  destruct (truthy name) eqn:Hname; [|discriminate].
  intros [= <-]. cbn [pd_name].
  assert (Hne : name <> []) by now apply truthy_nonempty.
  subst name.
  apply orElse_truthy in Hname as [H|[Heq Hname]].
  { eexists _, _. split; [|split; [exact H|split; [exact Hne|reflexivity]]].
    set_unfold. tauto. }
  rewrite Heq in Hne |- *. clear Heq.
  apply orElse_truthy in Hname as [H|[Heq Hname]].
  { eexists _, _. split; [|split; [exact H|split; [exact Hne|reflexivity]]].
    set_unfold. tauto. }
  rewrite Heq in Hne |- *. clear Heq.
  apply orElse_truthy in Hname as [H|[Heq Hname]].
  { eexists _, _. split; [|split; [exact H|split; [exact Hne|reflexivity]]].
    set_unfold. tauto. }
  rewrite Heq in Hne |- *. clear Heq.
  apply orElse_truthy in Hname as [H|[Heq Hname]].
  { eexists _, _. split; [|split; [exact H|split; [exact Hne|reflexivity]]].
    set_unfold. tauto. }
  discriminate.
Qed.

Lemma rowProp_clean (row : gmap (list N) (list N)) (p : PropDefinition) :
  rowProp row = Some p ->
  (96%N ∉ pd_name p) /\ (96%N ∉ pd_type p) /\ pd_default p <> Some [].
Proof.
  unfold rowProp.
  destruct (truthy (orElse (row !! js "Prop") _)); [|discriminate].
  intros [= <-]. cbn [pd_name pd_type pd_default].
  split; [apply removeBackticks_none|]. split; [apply removeBackticks_none|].
  destruct (truthy (orElse (row !! js "Default") _)) eqn:Hd; [|discriminate].
  apply truthy_nonempty in Hd. congruence.
Qed.

Lemma rowProp_none (row : gmap (list N) (list N)) :
  (forall key, key ∈ [js "Prop"; js "Name"; js "Property"; js "prop"] ->
               default [] (row !! key) = []) ->
  rowProp row = None.
Proof.
  intros Hkeys. unfold rowProp.
  rewrite (orElse_absent (row !! js "Prop")) by (apply Hkeys; set_unfold; tauto).
  rewrite (orElse_absent (row !! js "Name")) by (apply Hkeys; set_unfold; tauto).
  rewrite (orElse_absent (row !! js "Property"))
    by (apply Hkeys; set_unfold; tauto).
  rewrite (orElse_absent (row !! js "prop")) by (apply Hkeys; set_unfold; tauto).
  reflexivity.
Qed.

Lemma omap_length_le {A B} (f : A -> option B) (l : list A) :
  length (omap f l) <= length l.
Proof.
  induction l as [|x l IH]; [reflexivity|].
  change (omap f (x :: l))
    with (match f x with Some y => y :: omap f l | None => omap f l end).
  destruct (f x); simpl; lia.
Qed.

Section Props.
Variable lower : list N -> list N.

Lemma hasHeader_spec (names headers : list jsstring) :
  hasHeader lower names headers = true <->
  exists h, h ∈ headers /\ lower h ∈ names.
Proof.
  unfold hasHeader. rewrite existsb_exists. split.
  - intros (h & Hh & Hn). apply existsb_exists in Hn as (n & Hn & Heq).
    apply bool_decide_eq_true in Heq. subst n.
    exists h. now rewrite <- !list_elem_of_In in *.
  - intros (h & Hh & Hn). exists h. split; [now apply list_elem_of_In|].
    apply existsb_exists. exists (lower h).
    split; [now apply list_elem_of_In|]. now apply bool_decide_eq_true.
Qed.

(** X18: every prop that [extractProps] returns comes from a row of a
    table that has a header whose lower case is [prop], [name] or
    [property] and a header whose lower case is [type]; its name is the
    non-empty value that the row has under one of the keys [Prop], [Name],
    [Property] or [prop], written exactly so, with the backticks removed;
    its type has no backtick either and its default is never the empty
    string.  A table gives at most one prop per row, and a row without a
    non-empty value under one of these four keys gives none, whatever the
    headers are. *)
Theorem props_come_from_named_rows (ts : list TableSection) :
  (forall p, p ∈ extractProps lower ts ->
     exists t row key v,
       t ∈ ts /\ row ∈ t_rows t /\
       (exists h, h ∈ t_headers t /\
                  lower h ∈ [js "prop"; js "name"; js "property"]) /\
       (exists h, h ∈ t_headers t /\ lower h = js "type") /\
       key ∈ [js "Prop"; js "Name"; js "Property"; js "prop"] /\
       row !! key = Some v /\ v <> [] /\
       pd_name p = List.filter (fun c => negb (96 =? c)%N) v /\
       (96%N ∉ pd_name p) /\ (96%N ∉ pd_type p) /\ pd_default p <> Some []) /\
  (forall t, length (tableProps lower t) <= length (t_rows t)) /\
  (forall t,
     (forall row key,
        row ∈ t_rows t ->
        key ∈ [js "Prop"; js "Name"; js "Property"; js "prop"] ->
        default [] (row !! key) = []) ->
     tableProps lower t = []).
Proof.
  split; [|split].
  - intros p Hp. unfold extractProps in Hp.
    apply list_elem_of_In, in_concat in Hp as (l & Hl & Hp).
    apply in_map_iff in Hl as (t & <- & Ht).
    unfold tableProps in Hp.
    destruct (hasHeader lower [js "prop"; js "name"; js "property"]
                (t_headers t)) eqn:Hname; [|inversion Hp].
    destruct (hasHeader lower [js "type"] (t_headers t)) eqn:Htype;
      [|inversion Hp].
    simpl in Hp. apply list_elem_of_In, list_elem_of_omap in Hp
      as (row & Hrow & Hprop).
    destruct (rowProp_name row p Hprop) as (key & v & Hkey & Hv & Hne & Hn).
    destruct (rowProp_clean row p Hprop) as (H1 & H2 & H3).
    exists t, row, key, v.
    split; [now apply list_elem_of_In|]. split; [exact Hrow|].
    split; [now apply hasHeader_spec|]. split.
    { apply hasHeader_spec in Htype as (h & Hh & Ht').
      exists h. split; [exact Hh|]. now apply list_elem_of_singleton in Ht'. }
    rewrite <- removeBackticks_filter. auto 10.
  - intros t. unfold tableProps.
    destruct (_ && _); [apply omap_length_le|simpl; lia].
  - intros t Hrows. unfold tableProps. destruct (_ && _); [|reflexivity].
    induction (t_rows t) as [|row rows IH]; [reflexivity|].
    change (omap rowProp (row :: rows))
      with (match rowProp row with
            | Some y => y :: omap rowProp rows
            | None => omap rowProp rows
            end).
    rewrite rowProp_none.
    + apply IH. intros row' key Hrow'. apply Hrows. now right.
    + intros key. apply Hrows. left.
Qed.
End Props.

(** ** A list inside a list *)

Section NestedLists.
Variable lower : list N -> list N.

(** While a list is open, the handlers of [li] change its items and the
    item buffer only. *)
Lemma run_items_open (evs : list event) (st : state) ordered items t :
  forallb itemEvent evs = true ->
  exists items' t',
    run lower evs
      (setList (Some {| la_ordered := ordered; la_items := items |})
         (setListItem t st))
    = setList (Some {| la_ordered := ordered; la_items := items' |})
        (setListItem t' st).
Proof.
  revert items t. induction evs as [|e evs IH]; intros items t Hevs.
  - now exists items, t.
  - simpl in Hevs. apply andb_true_iff in Hevs as [He Hevs].
    rewrite run_cons.
    destruct e as [[] e|[] c|[]]; try discriminate He.
    + change (handle lower _ (OnElement SelLi e))
        with (setList (Some {| la_ordered := ordered; la_items := items |})
                (setListItem [] st)).
      now apply IH.
    + change (handle lower _ (OnText SelLi c))
        with (setList (Some {| la_ordered := ordered; la_items := items |})
                (setListItem (t ++ chunk_text c) st)).
      now apply IH.
    + change (handle lower _ (OnEndTag SelLi))
        with (setList (Some {| la_ordered := ordered;
                               la_items := items ++ [trim t] |})
                (setListItem t st)).
      now apply IH.
Qed.

(** While no list is open, they change the item buffer only. *)
Lemma run_items_closed (evs : list event) (st : state) :
  currentList st = None ->
  forallb itemEvent evs = true ->
  exists t', run lower evs st = setListItem t' st.
Proof.
  revert st. induction evs as [|e evs IH]; intros st Hst Hevs.
  - exists (currentListItem st). now destruct st.
  - simpl in Hevs. apply andb_true_iff in Hevs as [He Hevs].
    rewrite run_cons.
    assert (Hstep : exists t, handle lower st e = setListItem t st).
    { destruct e as [[] e|[] c|[]]; try discriminate He.
      - now exists [].
      - now exists (currentListItem st ++ chunk_text c).
      - exists (currentListItem st). simpl. rewrite Hst. now destruct st. }
    destruct Hstep as [t ->].
    destruct (IH (setListItem t st) Hst Hevs) as [t' ->].
    now exists t'.
Qed.

(** A list with at least one item, from open to close. *)
Lemma run_list (l : Element) (itemss : list (list TextChunk)) (st : state) :
  itemss <> [] ->
  run lower (listEvents l itemss) st
  = setList None
      (push (fun i => SList
         {| l_idx := i; l_ordered := strictEq (tagName l) (js "ol");
            l_items := map (fun cs => trim (chunksText cs)) itemss;
            l_raw := join [LF]
                       (listLines (strictEq (tagName l) (js "ol")) 0
                          (map (fun cs => trim (chunksText cs)) itemss)) |})
         (setListItem (default [] (chunksText <$> last itemss)) st)).
Proof.
  intros Hne. unfold listEvents. rewrite run_cons.
  change (handle lower st (OnElement SelList l))
    with (setList (Some {| la_ordered := strictEq (tagName l) (js "ol");
                           la_items := [] |})
            (setListItem (currentListItem st) st)).
  rewrite run_app, run_items by exact Hne.
  destruct itemss as [|cs itemss]; [contradiction|]. reflexivity.
Qed.

(** X9: when a list with at least one item lies inside another list, the
    document gets one list section, the one of the inner list; the outer
    list pushes nothing, so the items of the outer list before and after
    the inner list are in no section. *)
Theorem nested_list_keeps_inner_items (outer inner : Element)
    (before after : list event) (items : list (list TextChunk)) (st : state) :
  items <> [] ->
  forallb itemEvent before = true ->
  forallb itemEvent after = true ->
  let st' := run lower (nestedListEvents outer inner before items after) st in
  let ordered := strictEq (tagName inner) (js "ol") in
  let texts := map (fun cs => trim (chunksText cs)) items in
  sections st'
    = sections st ++
      [SList {| l_idx := idx st; l_ordered := ordered; l_items := texts;
                l_raw := join [LF] (listLines ordered 0 texts) |}] /\
  idx st' = S (idx st) /\
  currentList st' = None.
Proof.
  intros Hne Hbefore Hafter. cbv zeta. unfold nestedListEvents.
  rewrite run_cons.
  change (handle lower st (OnElement SelList outer))
    with (setList (Some {| la_ordered := strictEq (tagName outer) (js "ol");
                           la_items := [] |})
            (setListItem (currentListItem st) st)).
  rewrite run_app.
  destruct (run_items_open before st (strictEq (tagName outer) (js "ol")) []
              (currentListItem st) Hbefore) as (items' & t' & ->).
  rewrite run_app, run_list by exact Hne.
  rewrite run_app.
  match goal with
  | |- context [run lower after ?s] =>
      destruct (run_items_closed after s eq_refl Hafter) as [t'' ->]
  end.
  repeat split.
Qed.
End NestedLists.

(** The sample of a nested list gives the section of the [ol] alone. *)
Lemma nested_list_keeps_inner_items_witness :
  sections (run asciiToLowerCase nestedSample initial)
    = [SList {| l_idx := 0; l_ordered := true; l_items := [js "b"];
                l_raw := js "1. b" |}] /\
  idx (run asciiToLowerCase nestedSample initial) = 1 /\
  currentList (run asciiToLowerCase nestedSample initial) = None.
Proof.
  exact (nested_list_keeps_inner_items asciiToLowerCase
           (el "ul" None) (el "ol" None)
           [OnElement SelLi (el "li" None); OnText SelLi (chunk (js "a") true)]
           (OnEndTag SelLi :: itemEvents [chunk (js "c") true])
           [[chunk (js "b") true]] initial
           ltac:(discriminate) eq_refl eq_refl).
Defined.

(** ** The sections along the stream *)

Lemma includes_empty (s : jsstring) : includes s [] = true.
Proof. destruct s; reflexivity. Qed.

Lemma List_filter_all {A} (f : A -> bool) (l : list A) :
  (forall x, f x = true) -> List.filter f l = l.
Proof.
  intros Hf. induction l as [|x l IH]; [reflexivity|].
  simpl. now rewrite Hf, IH.
Qed.

Section Stream.
Variable lower : list N -> list N.

(** One handler call leaves the sections and the counter alone, or it is
    an end-tag closure that pushes one section. *)
Lemma handle_pushes (st : state) (e : event) :
  (sections (handle lower st e) = sections st /\
   idx (handle lower st e) = idx st) \/
  (exists sel s,
     e = OnEndTag sel /\
     sections (handle lower st e) = sections st ++ [s] /\
     idx (handle lower st e) = S (idx st) /\
     sec_idx s = idx st /\
     pushedType sel = Some (sec_type s)).
Proof.
  destruct e as [sel e|sel c|sel]; destruct sel;
    cbv beta iota zeta delta [handle onElement onText onEndTag];
    repeat match goal with
    | |- context [match ?x with _ => _ end] => destruct x
    end;
    first [ left; split; reflexivity
          | right; eexists _, _; repeat split; reflexivity ].
Qed.

Lemma run_extends (evs : list event) (st : state) :
  sections st `prefix_of` sections (run lower evs st) /\
  idx st <= idx (run lower evs st).
Proof.
  revert st. induction evs as [|e evs IH]; intros st; [split; reflexivity|].
  rewrite run_cons. destruct (IH (handle lower st e)) as [Hsec Hidx].
  destruct (handle_pushes st e) as [[Hs Hi]|(sel & s & _ & Hs & Hi & _)];
    rewrite Hs, Hi in *.
  - split; [exact Hsec|exact Hidx].
  - split; [|lia]. etrans; [|exact Hsec]. now apply prefix_app_r.
Qed.

(** X19: the sections are append-only.  A start-tag or text handler never
    pushes; an end-tag closure pushes at most one section, which carries
    the current counter and has the type of its selector (heading for
    [h1] to [h6], code for [pre], table, list, content for [p]).  So
    the document of a stream starts with the sections of the document of
    each of its prefixes: a section, once pushed, is never changed or
    removed by what follows. *)
Theorem sections_append_only (evs more : list event) (src : jsstring) :
  (forall st e,
     (sections (handle lower st e) = sections st /\
      idx (handle lower st e) = idx st) \/
     (exists sel s,
        e = OnEndTag sel /\
        sections (handle lower st e) = sections st ++ [s] /\
        idx (handle lower st e) = S (idx st) /\
        sec_idx s = idx st /\
        pushedType sel = Some (sec_type s))) /\
  doc_sections (parseEvents lower evs src)
    `prefix_of` doc_sections (parseEvents lower (evs ++ more) src) /\
  total (parseEvents lower evs src)
    <= total (parseEvents lower (evs ++ more) src).
Proof.
  split; [exact handle_pushes|].
  assert (Hpre : sections (run lower evs initial)
                   `prefix_of` sections (run lower (evs ++ more) initial)).
  { rewrite run_app. apply run_extends. }
  split; [exact Hpre|]. simpl. now apply prefix_length.
Qed.

(** X20: the empty query selects everything: [byLang] with the empty
    string returns all code blocks, as every language starts with it, and
    where [toLowerCase] maps the empty string to itself, [search] with the
    empty string returns all sections. *)
Theorem empty_query_selects_all (secs : list Section) (src : jsstring) :
  lower [] = [] ->
  search (assemble lower secs src) [] = doc_sections (assemble lower secs src) /\
  byLang (assemble lower secs src) [] = codeBlocks (assemble lower secs src).
Proof.
  intros Hlower. split; simpl.
  - rewrite Hlower. apply List_filter_all. intros s. apply includes_empty.
  - apply List_filter_all. intros c. apply orb_true_r.
Qed.
End Stream.

(** The three sample blocks under the ASCII lower-casing. *)
Lemma empty_query_selects_all_witness :
  search (assemble asciiToLowerCase
            (sections (run asciiToLowerCase threeBlocks initial)) (js "s")) []
    = doc_sections
        (assemble asciiToLowerCase
           (sections (run asciiToLowerCase threeBlocks initial)) (js "s")) /\
  byLang (assemble asciiToLowerCase
            (sections (run asciiToLowerCase threeBlocks initial)) (js "s")) []
    = codeBlocks
        (assemble asciiToLowerCase
           (sections (run asciiToLowerCase threeBlocks initial)) (js "s")).
Proof.
  exact (empty_query_selects_all asciiToLowerCase
           (sections (run asciiToLowerCase threeBlocks initial)) (js "s")
           eq_refl).
Defined.

(** ** The computed fields *)

Section Coherent.
Variable lower : list N -> list N.

Lemma handle_coherent st e :
  coherentState lower st -> coherentState lower (handle lower st e).
Proof.
  intros [Hs Hc].
  destruct e as [sel e|sel c|sel]; destruct sel;
    cbv beta iota zeta delta [handle onElement onText onEndTag];
    repeat match goal with
    | |- context [match ?x with _ => _ end] => destruct x eqn:?
    end;
    (split;
     [ first
         [ exact Hs
         | simpl; apply Forall_app; split; [exact Hs|];
           constructor; [|constructor]; simpl;
           first [ exact I | reflexivity | split; reflexivity
                 | split; [eapply Hc; first [eassumption|reflexivity]
                          |reflexivity] ] ]
     | intros c' Hc'; simpl in Hc';
       first
         [ discriminate Hc'
         | congruence
         | now apply Hc
         | injection Hc' as <-; simpl;
           first [ apply detectLang_langWord
                 | eapply Hc; first [eassumption|reflexivity] ] ] ]).
Qed.

(** X22: in every document the computed fields agree with the fields
    they are computed from: the slug of a heading is the slug of its text
    and its [raw] is the hashes of its level, a space and the text; [raw]
    of a code block is the fenced code with its language, which is one or
    more word characters; [raw] of a list is its numbered or dashed item
    lines; [raw] of a paragraph is its text. *)
Theorem sections_coherent (evs : list event) (src : jsstring) :
  Forall (coherent lower) (doc_sections (parseEvents lower evs src)).
Proof.
  simpl.
  apply (run_invariant lower (coherentState lower)); [exact handle_coherent|].
  split; [constructor|discriminate].
Qed.
End Coherent.
